(** * Structure tensor page (src/pages/structuretensor.vue)

    A shallow embedding of the script of the structure-tensor page and the
    properties of its specification that can be settled on it.

    - JavaScript numbers are IEEE 754 binary64 values: they are modelled by
      Rocq's primitive floats, whose [+], [*] and [/] round to nearest even
      exactly as the JavaScript operators do.
    - Integers used as array indices, loop counters and canvas coordinates
      (all far below 2^53, where binary64 is exact) are modelled by [Z].
    - Arrays live in a store indexed by locations, so that [Array.map]
      (fresh array) and [Array.sort] (in place) can be told apart.
    - [Math.exp] (implementation-approximated in ECMAScript) and mathjs'
      [eigs] (a third-party solver) are parameters of the development.
    - Rounding errors are measured on the real numbers that the floats
      stand for ([SF2R]), from the definitions of [SpecFloat]. *)

From Stdlib Require Import Reals Lra Psatz.
From Stdlib Require Import ZArith QArith Qround Floats String Ascii DecimalString.
From stdpp Require Import base option list list_numbers gmap.

Local Open Scope Z_scope.

(** ** JavaScript numbers *)

Module JS.

(** ToNumber of an integer: the nearest binary64 value (exact below 2^53). *)
Definition of_Z (z : Z) : float :=
  SF2Prim (binary_normalize prec emax z 0 false).

(** [Math.PI]. *)
Definition Math_PI : float := 0x1.921fb54442d18p+1%float.

(** [Math.max(...values)]: -Infinity on no argument, NaN as soon as one
    argument is NaN, and +0 is larger than -0. *)
Definition Math_max (values : list float) : float :=
  fold_left
    (fun highest number =>
       if PrimFloat.is_nan highest || PrimFloat.is_nan number then nan
       else if PrimFloat.ltb highest number then number
       else if PrimFloat.eqb highest number && get_sign highest
               && negb (get_sign number)
            then number
            else highest)
    values neg_infinity.

(** *** Exact values

    A finite binary64 value is [m * 2^e]; the decimal conversions below
    work on that rational number. *)

Definition pow (b : Z) (p : Z) : Q :=
  if 0 <=? p then inject_Z (b ^ p) else Qinv (inject_Z (b ^ (- p))).

Definition exact (m : positive) (e : Z) : Q :=
  (inject_Z (Z.pos m) * pow 2 e)%Q.

(** The interval of reals that round to [m * 2^e]: its ends are the
    midpoints to the neighbouring floats, included when [m] is even. *)
Definition round_lo (m : positive) (e : Z) : Q :=
  if (Z.pos m =? 2 ^ 52) && (-1074 <? e)
  then (inject_Z (4 * Z.pos m - 1) * pow 2 (e - 2))%Q
  else (inject_Z (2 * Z.pos m - 1) * pow 2 (e - 1))%Q.

Definition round_hi (m : positive) (e : Z) : Q :=
  (inject_Z (2 * Z.pos m + 1) * pow 2 (e - 1))%Q.

Definition rounds_to (m : positive) (e : Z) (v : Q) : bool :=
  if Z.even (Z.pos m)
  then Qle_bool (round_lo m e) v && Qle_bool v (round_hi m e)
  else negb (Qle_bool v (round_lo m e)) && negb (Qle_bool (round_hi m e) v).

(** The [n] with [10^(n-1) <= x < 10^n], searched upwards from an
    estimate drawn from the binary exponent. *)
Fixpoint first_above (fuel : nat) (x : Q) (n : Z) : Z :=
  match fuel with
  | O => n
  | S fuel' =>
      if negb (Qle_bool (pow 10 n) x) then n else first_above fuel' x (n + 1)
  end.

Definition decimal_exponent (m : positive) (e : Z) : Z :=
  let b := Z.log2 (Z.pos m) + e in
  first_above 8 (exact m e) (b * 30103 / 100000 - 1).

(** The digits [s] (with [k] digits) and the exponent [n] of
    Number::toString: [s * 10^(n-k)] rounds to the float, [k] is as small
    as possible, and among the candidates the closest one is taken (the
    even one on a tie). *)
Fixpoint shortest (fuel : nat) (m : positive) (e : Z) (n0 k : Z)
  : Z * Z * Z :=
  let x := exact m e in
  let p := n0 - k in
  let s_lo := Qfloor (x / pow 10 p) in
  let s_hi := s_lo + 1 in
  let v_lo := (inject_Z s_lo * pow 10 p)%Q in
  let v_hi := (inject_Z s_hi * pow 10 p)%Q in
  let ok_lo := rounds_to m e v_lo in
  let ok_hi := rounds_to m e v_hi in
  let pick s := if s =? 10 ^ k then (1, 1, n0 + 1) else (s, k, n0) in
  match fuel with
  | O => pick s_lo
  | S fuel' =>
      if ok_lo && ok_hi then
        match Qcompare (x - v_lo) (v_hi - x) with
        | Lt => pick s_lo
        | Gt => pick s_hi
        | Eq => pick (if Z.even s_lo then s_lo else s_hi)
        end
      else if ok_lo then pick s_lo
      else if ok_hi then pick s_hi
      else shortest fuel' m e n0 (k + 1)
  end.

Local Open Scope string_scope.

Definition digits (s : Z) : string :=
  NilZero.string_of_uint (N.to_uint (Z.to_N s)).

Definition zeros (n : Z) : string :=
  string_of_list_ascii (replicate (Z.to_nat n) "0"%char).

Definition take_string (n : Z) (s : string) : string :=
  String.substring 0 (Z.to_nat n) s.

Definition drop_string (n : Z) (s : string) : string :=
  String.substring (Z.to_nat n) (String.length s - Z.to_nat n) s.

(** Number::toString for a positive finite value (ECMA-262, 6.1.6.1.20,
    steps 5 to 12). *)
Definition toString_pos (m : positive) (e : Z) : string :=
  let '(s, k, n) := shortest 17 m e (decimal_exponent m e) 1 in
  let d := digits s in
  if ((k <=? n) && (n <=? 21))%Z then d ++ zeros (n - k)
  else if ((0 <? n) && (n <=? 21))%Z
       then take_string n d ++ "." ++ drop_string n d
  else if ((-6 <? n) && (n <=? 0))%Z then "0." ++ zeros (- n) ++ d
  else
    let ex := (if (0 <=? n - 1)%Z then "+" else "-")
              ++ digits (Z.abs (n - 1)) in
    if (k =? 1)%Z then d ++ "e" ++ ex
    else take_string 1 d ++ "." ++ drop_string 1 d ++ "e" ++ ex.

(** Number::toString, radix 10. *)
Definition toString (x : float) : string :=
  match Prim2SF x with
  | S754_nan => "NaN"
  | S754_zero _ => "0"
  | S754_infinity false => "Infinity"
  | S754_infinity true => "-Infinity"
  | S754_finite sign m e =>
      (if sign then "-" else "") ++ toString_pos m e
  end.

(** Number.prototype.toFixed with no argument (zero fraction digits): the
    nearest integer, the larger one on a tie, after the sign was set
    aside; values of 10^21 and more print as [toString] does. *)
Definition toFixed (x : float) : string :=
  match Prim2SF x with
  | S754_finite sign m e =>
      if Qle_bool (pow 10 21) (exact m e) then toString x
      else (if sign then "-" else "")
           ++ digits (Qfloor (exact m e + (1 # 2)))
  | S754_zero _ => "0"
  | _ => toString x
  end.

End JS.

(** ** Outcomes, the store and the page state *)

(** What the script throws: its own [Error] and the engine's [TypeError]. *)
Inductive exn :=
  | Error (message : string)
  | TypeError (message : string)
  | IndexSizeError.

(** The failure the specification calls [InvalidParameter]. *)
Definition InvalidParameter : exn := Error "Size must be an odd integer.".

Inductive outcome (A : Type) :=
  | Ok (a : A)
  | Throw (e : exn).
Arguments Ok {A} a.
Arguments Throw {A} e.

(** Arrays of numbers are objects of the store, named by locations. *)
Abbreviation loc := positive (only parsing).

(** An entry of [eigs(M).eigenvectors]. *)
Record eigenpair := { value : float; vector : float * float }.

(** What the script does to the canvas. [fillRect] carries the alpha of
    the [rgba(0, 0, 0, alpha)] fill style in force; [stroke_line] is
    [beginPath(); moveTo(x0, y0); lineTo(x1, y1); stroke()]. *)
Inductive canvas_op :=
  | clearRect (x y w h : Z)
  | drawImage (dx dy : Z)
  | fillRect (alpha : float) (x y w h : Z)
  | stroke_line (x0 y0 : Z) (x1 y1 : float).

(** [let gradients: { Ix: number[]; Iy: number[] }]. *)
Record gradient_field := { Ix : loc; Iy : loc }.

(** The module-level variables of the script, the canvas and the store. *)
Record page := {
  width : Z;                          (* canvas.value.width *)
  height : Z;                         (* canvas.value.height *)
  image_data : list Z;                (* what getImageData returns when
                                         computeGradients runs *)
  kernelSize : Z;
  kernelSigma : float;
  lambda1 : string;
  lambda2 : string;
  gradients : option gradient_field;  (* unset until computeGradients ran *)
  store : gmap loc (list float);
  drawn : list canvas_op;
}.

Definition with_store (f : gmap loc (list float) -> gmap loc (list float))
  (st : page) : page :=
  {| width := width st; height := height st; image_data := image_data st;
     kernelSize := kernelSize st; kernelSigma := kernelSigma st;
     lambda1 := lambda1 st; lambda2 := lambda2 st;
     gradients := gradients st; store := f (store st); drawn := drawn st |}.

Definition with_gradients (g : gradient_field) (st : page) : page :=
  {| width := width st; height := height st; image_data := image_data st;
     kernelSize := kernelSize st; kernelSigma := kernelSigma st;
     lambda1 := lambda1 st; lambda2 := lambda2 st;
     gradients := Some g; store := store st; drawn := drawn st |}.

Definition with_lambda1 (s : string) (st : page) : page :=
  {| width := width st; height := height st; image_data := image_data st;
     kernelSize := kernelSize st; kernelSigma := kernelSigma st;
     lambda1 := s; lambda2 := lambda2 st;
     gradients := gradients st; store := store st; drawn := drawn st |}.

Definition with_lambda2 (s : string) (st : page) : page :=
  {| width := width st; height := height st; image_data := image_data st;
     kernelSize := kernelSize st; kernelSigma := kernelSigma st;
     lambda1 := lambda1 st; lambda2 := s;
     gradients := gradients st; store := store st; drawn := drawn st |}.

Definition with_drawn (op : canvas_op) (st : page) : page :=
  {| width := width st; height := height st; image_data := image_data st;
     kernelSize := kernelSize st; kernelSigma := kernelSigma st;
     lambda1 := lambda1 st; lambda2 := lambda2 st;
     gradients := gradients st; store := store st;
     drawn := drawn st ++ [op] |}.

(** *** The monad of the script: state and exceptions *)

Definition M (A : Type) : Type := page -> outcome A * page.

Global Instance M_ret : MRet M := fun A a st => (Ok a, st).

Global Instance M_bind : MBind M := fun A B f m st =>
  match m st with
  | (Ok a, st') => f a st'
  | (Throw e, st') => (Throw e, st')
  end.

Definition throw {A} (e : exn) : M A := fun st => (Throw e, st).

Definition gets {A} (f : page -> A) : M A := fun st => (Ok (f st), st).

Definition modify (f : page -> page) : M unit := fun st => (Ok tt, f st).

Definition lift {A} (o : outcome A) : M A := fun st => (o, st).

(** A [for] loop over the values [l] of its counter, threading the
    variables the body assigns. *)
Definition for_ {S : Type} (l : list Z) (body : Z -> S -> S) (init : S) : S :=
  fold_left (fun s i => body i s) l init.

Fixpoint for_M {S : Type} (l : list Z) (body : Z -> S -> M S) (init : S)
  : M S :=
  match l with
  | [] => mret init
  | i :: l' => s ← body i init; for_M l' body s
  end.

(** *** Arrays *)

(** [a[i]] read as a number: a missing element is [undefined], which
    arithmetic turns into NaN. *)
Definition aget (a : list float) (i : Z) : float :=
  if i <? 0 then nan else default nan (a !! Z.to_nat i).

(** [data[i]] on the [Uint8ClampedArray] of the canvas. *)
Definition byte_get (data : list Z) (i : Z) : float :=
  if i <? 0 then nan else from_option JS.of_Z nan (data !! Z.to_nat i).

(** [a[i] = v]: in range the element is replaced; past the end the array
    grows, its holes reading as [undefined]; a negative [i] names a
    property, not an element. *)
Definition aset (a : list float) (i : Z) (v : float) : list float :=
  if i <? 0 then a
  else if i <? Z.of_nat (length a) then <[Z.to_nat i := v]> a
  else a ++ replicate (Z.to_nat i - length a) nan ++ [v].

Definition alloc (a : list float) : M loc := fun st =>
  let l := fresh (dom (store st)) in (Ok l, with_store (insert l a) st).

Definition deref (l : loc) : M (list float) := fun st =>
  match store st !! l with
  | Some a => (Ok a, st)
  | None => (Throw (TypeError "not an array"), st)
  end.

(** [a.map(f)]: a new array; [f] gets the element and its index. *)
Definition Array_map (f : float -> Z -> float) (l : loc) : M loc :=
  a ← deref l; alloc (imap (fun i v => f v (Z.of_nat i)) a).

(** The default order of [Array.prototype.sort]: elements are compared as
    the strings [toString] gives, by code units. *)
Definition SortCompare_lt (x y : float) : bool :=
  String.ltb (JS.toString x) (JS.toString y).

Fixpoint sort_insert (x : float) (l : list float) : list float :=
  match l with
  | [] => [x]
  | y :: l' =>
      if SortCompare_lt y x then y :: sort_insert x l' else x :: y :: l'
  end.

(** The sort is stable, which fixes its result. *)
Definition sorted (a : list float) : list float := foldr sort_insert [] a.

(** [a.sort()]: sorts the array in place and returns the same array. *)
Definition Array_sort (l : loc) : M loc := fun st =>
  match store st !! l with
  | Some a => (Ok l, with_store (insert l (sorted a)) st)
  | None => (Throw (TypeError "not an array"), st)
  end.

(** [a[i].toFixed()]. *)
Definition index_toFixed (l : loc) (i : Z) : M string :=
  a ← deref l;
  if i <? 0 then throw (TypeError "undefined has no toFixed")
  else match a !! Z.to_nat i with
       | Some v => mret (JS.toFixed v)
       | None => throw (TypeError "undefined has no toFixed")
       end.

(** A canvas operation is recorded in [drawn]. What the canvas then shows
    is not computed: [image_data] stands for the pixels that
    [computeGradients] reads, which [init] does once, right after it drew
    the image and before any overlay. *)
Definition draw (op : canvas_op) : M unit := modify (with_drawn op).

(** ** The script *)

Section Script.

(** [Math.exp]. *)
Variable Math_exp : float -> float.

(** [eigs(M).eigenvectors] of mathjs, for a matrix given by its rows. *)
Variable eigs : list (list float) -> outcome (list eigenpair).

Local Open Scope float_scope.

Definition generateGaussianKernel (size : Z) (sigma : float)
  : outcome (list float) :=
  if (Z.rem size 2 =? 0)%Z then Throw (Error "Size must be an odd integer.")
  else
    let mean := (size / 2)%Z in
    let sigma2 := sigma * sigma in
    let '(kernel, sum) :=
      for_ (seqZ 0 size) (fun y =>
        for_ (seqZ 0 size) (fun x '(kernel, sum) =>
          let dx := (x - mean)%Z in
          let dy := (y - mean)%Z in
          let value :=
            (1 / (2 * JS.Math_PI * sigma2))
            * Math_exp ((- JS.of_Z (dx * dx + dy * dy)) / (2 * sigma2)) in
          (kernel ++ [value], sum + value)))
        ([], 0) in
    (* Normalize the kernel so that the sum is 1 *)
    Ok (map (fun value => value / sum) kernel).

(** [const gaussianKernel = computed(...)]: reading [gaussianKernel.value]
    gives the kernel of the current parameters, or throws what the
    generator throws. Vue keeps the table between two changes of the
    parameters; the table is recomputed here at each read, which is the
    same table whenever the generator returns one. After a read that threw,
    Vue answers later reads from what it kept before: that is not
    modelled. *)
Definition gaussianKernel : M (list float) := fun st =>
  (generateGaussianKernel (kernelSize st) (kernelSigma st), st).

(** *** Gradients *)

Definition sobelX : list float := [-1; 0; 1; -2; 0; 2; -1; 0; 1].
Definition sobelY : list float := [-1; -2; -1; 0; 0; 0; 1; 2; 1].

(** Grayscale value at (x, y). *)
Definition getGray (data : list Z) (width : Z) (x y : Z) : float :=
  let idx := ((y * width + x) * 4)%Z in
  let r := byte_get data idx in
  let g := byte_get data (idx + 1) in
  let b := byte_get data (idx + 2) in
  0.3 * r + 0.59 * g + 0.11 * b.

(** The two innermost loops: the Sobel kernels applied at (x, y). *)
Definition applySobel (data : list Z) (width : Z) (x y : Z) : float * float :=
  for_ (seqZ (-1) 3) (fun ky =>
    for_ (seqZ (-1) 3) (fun kx '(gx, gy) =>
      let pixelGray := getGray data width (x + kx) (y + ky) in
      let kernelIndex := ((ky + 1) * 3 + (kx + 1))%Z in
      (gx + pixelGray * aget sobelX kernelIndex,
       gy + pixelGray * aget sobelY kernelIndex)))
    (0, 0).

(** The arrays [Ix] and [Iy] that [computeGradients] builds. They are
    local to the function until it stores them in [gradients]. *)
Definition gradientArrays (data : list Z) (width height : Z)
  : list float * list float :=
  let Ix := replicate (Z.to_nat (width * height)) 0 in
  let Iy := replicate (Z.to_nat (width * height)) 0 in
  for_ (seqZ 1 (height - 2)) (fun y =>
    for_ (seqZ 1 (width - 2)) (fun x '(Ix, Iy) =>
      let '(gx, gy) := applySobel data width x y in
      let index := (y * width + x)%Z in
      (aset Ix index gx, aset Iy index gy)))
    (Ix, Iy).

(** [getImageData] refuses an empty rectangle. *)
Definition computeGradients : M unit :=
  width ← gets width;
  height ← gets height;
  if ((width =? 0) || (height =? 0))%Z then throw IndexSizeError
  else
    data ← gets image_data;
    let '(Ix, Iy) := gradientArrays data width height in
    Ix ← alloc Ix;
    Iy ← alloc Iy;
    modify (with_gradients {| Ix := Ix; Iy := Iy |}).

(** *** The structure tensor at a point *)

Definition get_gradients : M gradient_field := fun st =>
  match gradients st with
  | Some g => (Ok g, st)
  | None => (Throw (TypeError "gradients is undefined"), st)
  end.

(** Gaussian convolution of a gradient component at (x, y). *)
Definition applyGaussian (x y : Z) (componentArray : loc) : M float :=
  width ← gets width;
  height ← gets height;
  size ← gets kernelSize;
  let halfKernel := (size / 2)%Z in
  for_M (seqZ (- halfKernel) (2 * halfKernel + 1)) (fun ky =>
    for_M (seqZ (- halfKernel) (2 * halfKernel + 1)) (fun kx sum =>
      let pixelX := Z.min (Z.max (x + kx) 0) (width - 1) in
      let pixelY := Z.min (Z.max (y + ky) 0) (height - 1) in
      let kernelIndex := ((ky + halfKernel) * size + (kx + halfKernel))%Z in
      let pixelIndex := (pixelY * width + pixelX)%Z in
      component ← deref componentArray;
      kernel ← gaussianKernel;
      mret (sum + aget component pixelIndex * aget kernel kernelIndex)))
    0.

(** [matrix([[Ixx, Ixy], [Ixy, Iyy]])]. *)
Definition matrix (rows : list (list float)) : list (list float) := rows.

(** The smoothed structure tensor at (x, y): the part of
    [computeEigenvectors] before the eigensolver. The callback of the third
    [map] reads [gradients.Iy], which no callback writes. *)
Definition structureTensor (x y : Z) : M (list (list float)) :=
  g ← get_gradients;
  squaresX ← Array_map (fun v _ => v * v) (Ix g);
  Ixx ← applyGaussian x y squaresX;
  squaresY ← Array_map (fun v _ => v * v) (Iy g);
  Iyy ← applyGaussian x y squaresY;
  gradIy ← deref (Iy g);
  products ← Array_map (fun v i => v * aget gradIy i) (Ix g);
  Ixy ← applyGaussian x y products;
  mret (matrix [[Ixx; Ixy]; [Ixy; Iyy]]).

Definition computeEigenvectors (x y : Z) : M (list eigenpair) :=
  tensor ← structureTensor x y;
  lift (eigs tensor).

(** *** Drawing *)

(** Lines 213 to 216: the eigenvalues divided by 1000 in a new array, which
    each [sort()] orders in place. *)
Definition showLambdas (eigenvectors : list eigenpair) : M loc :=
  eigenvalues ← alloc (map (fun vec => value vec / 1000) eigenvectors);
  s ← Array_sort eigenvalues;
  l1 ← index_toFixed s 1;
  modify (with_lambda1 l1);;
  s ← Array_sort eigenvalues;
  l2 ← index_toFixed s 0;
  modify (with_lambda2 l2);;
  mret eigenvalues.

(** Lines 218 to 231: the kernel drawn at the cursor.
    [Math.max(...gaussianKernel.value)] is the largest entry of the table.
    A call with more arguments than the engine takes throws [RangeError]
    instead, which needs a table far larger than the 51 * 51 entries of the
    largest size of the slider, and is not modelled. *)
Definition drawKernel (x y : Z) : M unit :=
  size ← gets kernelSize;
  width ← gets width;
  height ← gets height;
  let halfKernel := (size / 2)%Z in
  kernel ← gaussianKernel;
  let kernelMax := JS.Math_max kernel in
  for_M (seqZ (- halfKernel) (2 * halfKernel + 1)) (fun ky =>
    for_M (seqZ (- halfKernel) (2 * halfKernel + 1)) (fun kx _ =>
      let pixelX := Z.min (Z.max (x + kx) 0) (width - 1) in
      let pixelY := Z.min (Z.max (y + ky) 0) (height - 1) in
      let kernelIndex := ((ky + halfKernel) * size + (kx + halfKernel))%Z in
      kernel ← gaussianKernel;
      let value := aget kernel kernelIndex / kernelMax in
      draw (fillRect value pixelX pixelY 1 1)))
    tt.

(** Lines 233 to 242: the eigenvectors drawn as arrows, each scaled by
    [eigenvalues[i]] as the array is when the arrow is drawn. *)
Fixpoint drawArrows (x y : Z) (eigenvectors : list eigenpair) (i : Z)
  (eigenvalues : loc) : M unit :=
  match eigenvectors with
  | [] => mret tt
  | vec :: rest =>
      scaled ← deref eigenvalues;
      draw (stroke_line x y
              (JS.of_Z x + fst (vector vec) * aget scaled i)
              (JS.of_Z y + snd (vector vec) * aget scaled i));;
      drawArrows x y rest (i + 1) eigenvalues
  end.

(** [drawOverlay] once the eigenvectors are known. *)
Definition drawResult (x y : Z) (eigenvectors : list eigenpair) : M unit :=
  eigenvalues ← showLambdas eigenvectors;
  drawKernel x y;;
  drawArrows x y eigenvectors 0 eigenvalues.

Definition drawOverlay (x y : Z) : M unit :=
  width ← gets width;
  height ← gets height;
  draw (clearRect 0 0 width height);;
  draw (drawImage 0 0);;
  eigenvectors ← computeEigenvectors x y;
  drawResult x y eigenvectors.

End Script.

(** ** A reference [Math.exp]

    ECMAScript leaves the accuracy of [Math.exp] to the implementation.
    Theorems are stated for every [Math_exp]; closed examples use this one:
    reduction of the argument by a multiple of ln 2 and a Taylor
    polynomial, accurate to a few units in the last place. *)

Module Reference.

Local Open Scope float_scope.

Definition to_Z (k : float) : Z :=
  match Prim2SF k with
  | S754_finite s m e => (if s then -1 else 1) * Z.shiftl (Z.pos m) e
  | _ => 0
  end.

Definition taylor (r : float) : float :=
  foldr (fun n acc => 1 + r / n * acc) 1
    [1; 2; 3; 4; 5; 6; 7; 8; 9; 10; 11; 12; 13; 14].

Definition Math_exp (x : float) : float :=
  if PrimFloat.is_nan x then nan
  else if 709.782712893384 <? x then infinity
  else if x <? -745.1332191019412 then 0
  else
    let k := (x * 1.4426950408889634 + 0x1.8p52) - 0x1.8p52 in
    let r := (x - k * 6.93147180369123816490e-01)
             - k * 1.90821492927058770002e-10 in
    Z.ldexp (taylor r) (to_Z k).

End Reference.

(** ** A closed-form [eigs] for 2x2 symmetric matrices *)

(** Modelled from the spec: the eigensolver behind [eigs] is mathjs code,
    which is not among the repository's sources. This stand-in follows the
    closed form of the specification (section 4.5) for a symmetric 2 by 2
    matrix and lists the smaller eigenvalue first, as mathjs does. C7 is
    settled on it and closed examples use it; the other theorems are stated
    for every [eigs]. *)
Definition closedFormEigs (M : list (list float)) : outcome (list eigenpair) :=
  match M with
  | [[a; b]; [_; d]] =>
      let trace := (a + d)%float in
      let det := (a * d - b * b)%float in
      let radicand := (trace * trace / 4 - det)%float in
      let disc := PrimFloat.sqrt (if (radicand <? 0)%float then 0%float else radicand) in
      let low := (trace / 2 - disc)%float in
      let high := (trace / 2 + disc)%float in
      let unit l :=
        let n := PrimFloat.sqrt (b * b + (l - a) * (l - a))%float in
        ((b / n)%float, ((l - a) / n)%float) in
      if (b =? 0)%float then
        if (a <=? d)%float
        then Ok [ {| value := low; vector := (1%float, 0%float) |};
                  {| value := high; vector := (0%float, 1%float) |} ]
        else Ok [ {| value := low; vector := (0%float, 1%float) |};
                  {| value := high; vector := (1%float, 0%float) |} ]
      else Ok [ {| value := low; vector := unit low |};
                {| value := high; vector := unit high |} ]
  | _ => Throw (Error "Matrix must be square")
  end.

(** * Notions used in the statements *)

(** ** The specification's reading of the Sobel stage *)

Section SobelReading.

Local Open Scope float_scope.

(** Luminance of pixel (x, y): [L = 0.3 R + 0.59 G + 0.11 B]. *)
Definition luminance (data : list Z) (width x y : Z) : float :=
  let p := (y * width + x)%Z in
  0.3 * byte_get data (4 * p) + 0.59 * byte_get data (4 * p + 1)
  + 0.11 * byte_get data (4 * p + 2).

(** [Sx = [-1 0 1; -2 0 2; -1 0 1]] and [Sy = [-1 -2 -1; 0 0 0; 1 2 1]],
    entry [kx, ky] being column [kx + 1] of row [ky + 1]. *)
Definition Sx_rows : list (list float) := [[-1; 0; 1]; [-2; 0; 2]; [-1; 0; 1]].
Definition Sy_rows : list (list float) := [[-1; -2; -1]; [0; 0; 0]; [1; 2; 1]].

Definition entry (rows : list (list float)) (kx ky : Z) : float :=
  aget (default [] (rows !! Z.to_nat (ky + 1))) (kx + 1).

(** The nine offsets [(kx, ky)] of the neighbourhood, row by row. *)
Definition neighbourhood : list (Z * Z) :=
  [(-1, -1); (0, -1); (1, -1); (-1, 0); (0, 0); (1, 0); (-1, 1); (0, 1); (1, 1)]%Z.

(** The sum of [L(x + kx, y + ky) * S[kx, ky]] over the neighbourhood,
    accumulated from 0 in that order. *)
Definition sobelSum (rows : list (list float)) (data : list Z) (width x y : Z)
  : float :=
  fold_left
    (fun acc k =>
       acc + luminance data width (x + fst k) (y + snd k)
             * entry rows (fst k) (snd k))
    neighbourhood 0.

(** The same sum over nine pixels of one luminance [c]. *)
Definition flatSum (rows : list (list float)) (c : float) : float :=
  fold_left (fun acc k => acc + c * entry rows (fst k) (snd k)) neighbourhood 0.

(** The luminance of a pixel of colour (r, g, b). *)
Definition gray (r g b : Z) : float :=
  0.3 * JS.of_Z r + 0.59 * JS.of_Z g + 0.11 * JS.of_Z b.

(** Every pixel of the [width * height] image has the colour (r, g, b). *)
Definition constant_image (data : list Z) (width height r g b : Z) : Prop :=
  forall p, (0 <= p < width * height)%Z ->
    data !! Z.to_nat (4 * p) = Some r
    /\ data !! Z.to_nat (4 * p + 1) = Some g
    /\ data !! Z.to_nat (4 * p + 2) = Some b.

End SobelReading.

(** ** The kernel table *)

(** The weight the generator computes for the loop counters (x, y),
    before normalization. *)
Definition rawWeight (Math_exp : float -> float)
    (size : Z) (sigma : float) (x y : Z) : float :=
  let mean := size / 2 in
  let sigma2 := (sigma * sigma)%float in
  let dx := x - mean in
  let dy := y - mean in
  (1 / (2 * JS.Math_PI * sigma2)
   * Math_exp (- JS.of_Z (dx * dx + dy * dy) / (2 * sigma2)))%float.

(** ** Binary64 numbers as real numbers *)

(** The float that holds the mantissa [m >= 0] at the exponent [e]. *)
Definition num (m e : Z) : spec_float :=
  match m with
  | Z0 => S754_zero false
  | Zpos p => S754_finite false p e
  | Zneg _ => S754_nan
  end.

(** The same for [0 <= m <= 2^53]: a mantissa of 54 bits is shifted. *)
Definition normal (m e : Z) : spec_float :=
  if m =? 2 ^ 53 then S754_finite false 4503599627370496 (e + 1) else num m e.

Definition pow2 (e : Z) : R := powerRZ 2 e.

(** The real number a float stands for (0 for infinities and NaN). *)
Definition SF2R (x : spec_float) : R :=
  match x with
  | S754_finite s m e =>
      ((if s then - IZR (Z.pos m) else IZR (Z.pos m)) * pow2 e)%R
  | _ => 0%R
  end.

(** Zero of either sign, or a positive finite number. *)
Definition fin0 (x : spec_float) : Prop :=
  match x with
  | S754_zero _ | S754_finite false _ _ => True
  | _ => False
  end.

(** The relative and the absolute error of one rounding: 2^-52 and the
    smallest positive number 2^-1074. *)
Definition eps : R := (/ 4503599627370496)%R.
Definition eta : R := pow2 (-1074).

(** [z] holds [t >= 0] up to one rounding. *)
Definition near (t : R) (z : spec_float) : Prop :=
  fin0 z /\ (Rabs (SF2R z - t) <= eps * t + eta)%R.

(** The same notions on the numbers of the script. *)
Definition Rval (x : float) : R := SF2R (Prim2SF x).

Definition Fin0 (x : float) : Prop := fin0 (Prim2SF x).

Definition Near (t : R) (x : float) : Prop := near t (Prim2SF x).

(** A positive finite number. *)
Definition PosFin (x : float) : Prop :=
  exists m e, Prim2SF x = S754_finite false m e.

Definition Rsum (l : list R) : R := fold_right Rplus 0%R l.

(** The exact sum of the values [v k] over the keys [ks]. *)
Definition exactSum {K : Type} (v : K -> float) (ks : list K) : R :=
  Rsum (map (fun k => Rval (v k)) ks).

(** A finite number of either sign. *)
Definition finite (x : spec_float) : Prop :=
  match x with
  | S754_zero _ | S754_finite _ _ _ => True
  | _ => False
  end.

(** [z] holds [t] up to one rounding. *)
Definition nearS (t : R) (z : spec_float) : Prop :=
  finite z /\ (Rabs (SF2R z - t) <= eps * Rabs t + eta)%R.

Definition Finite (x : float) : Prop := finite (Prim2SF x).

Definition NearS (t : R) (x : float) : Prop := nearS t (Prim2SF x).

(** The sum of the magnitudes of the values [v k] over the keys [ks]. *)
Definition magSum {K : Type} (v : K -> float) (ks : list K) : R :=
  Rsum (map (fun k => Rabs (Rval (v k))) ks).

(** ** The image data *)

(** What [getImageData] returns for a [width] by [height] rectangle: four
    bytes for every pixel. *)
Definition imageData (data : list Z) (width height : Z) : Prop :=
  Z.of_nat (length data) = 4 * (width * height)
  /\ Forall (fun b => 0 <= b <= 255) data.

(** ** Arrays written by loops, and the state after loading *)

(** The array a loop leaves when it runs [a[ix k] = v k] for the keys [ks]
    in turn, all indices being in range. *)
Definition written {K : Type} (ix : K -> Z) (v : K -> float)
    (ks : list K) (a : list float) : list float :=
  fold_left (fun a k => aset a (ix k) (v k)) ks a.

(** The pixels the loops of [computeGradients] visit, as (y, x). *)
Definition interior (width height : Z) : list (Z * Z) :=
  list_prod (seqZ 1 (height - 2)) (seqZ 1 (width - 2)).

(** The state [computeGradients] leaves: the two arrays at fresh locations
    of the store, and [gradients] pointing at them. *)
Definition gradientsComputed (st : page) : page :=
  let arrays := gradientArrays (image_data st) (width st) (height st) in
  let lx := fresh (dom (store st)) in
  let ly := fresh (dom (<[lx := fst arrays]> (store st))) in
  with_gradients {| Ix := lx; Iy := ly |}
    (with_store (insert ly (snd arrays))
       (with_store (insert lx (fst arrays)) st)).

(** ** The flat Sobel-X sum in binary64 *)

(** The flat Sobel-X sum on the specification of binary64. *)
Definition sobelX_flat (X : spec_float) : spec_float :=
  fold_left (fun acc k => SF64add acc (SF64mul X k))
    [S754_finite true 4503599627370496 (-52); S754_zero false;
     S754_finite false 4503599627370496 (-52);
     S754_finite true 4503599627370496 (-51); S754_zero false;
     S754_finite false 4503599627370496 (-51);
     S754_finite true 4503599627370496 (-52); S754_zero false;
     S754_finite false 4503599627370496 (-52)]
    (S754_zero false).

(** A float that is zero or lies between 2^-14 and 2^9. *)
Definition small (c : float) : bool :=
  (c =? 0)%float || ((0x1p-14 <=? c)%float && (c <=? 0x1p9)%float).

(** The three terms of the luminance, for every byte. *)
Definition red_terms : list float :=
  Eval vm_compute in map (fun r => (0.3 * JS.of_Z r)%float) (seqZ 0 256).
Definition green_terms : list float :=
  Eval vm_compute in map (fun g => (0.59 * JS.of_Z g)%float) (seqZ 0 256).
Definition blue_terms : list float :=
  Eval vm_compute in map (fun b => (0.11 * JS.of_Z b)%float) (seqZ 0 256).

(** ** The sampling of [applyGaussian] *)

Definition clamp (v lo hi : Z) : Z := Z.min (Z.max v lo) hi.

(** The pairs (pixelIndex, kernelIndex) that the two loops of
    [applyGaussian] visit at the query point (x, y), in order. *)
Definition sampleIndices (width height size x y : Z) : list (Z * Z) :=
  let halfKernel := size / 2 in
  map (fun k =>
         let ky := fst k in
         let kx := snd k in
         (clamp (y + ky) 0 (height - 1) * width + clamp (x + kx) 0 (width - 1),
          (ky + halfKernel) * size + (kx + halfKernel)))
    (list_prod (seqZ (- halfKernel) (2 * halfKernel + 1))
       (seqZ (- halfKernel) (2 * halfKernel + 1))).

(** The sum [applyGaussian] accumulates over given samples. *)
Definition weightedSum (component kernel : list float)
  (samples : list (Z * Z)) : float :=
  fold_left
    (fun sum s => (sum + aget component (fst s) * aget kernel (snd s))%float)
    samples 0%float.

(** The structure tensor as a function of the gradient arrays and the
    kernel. *)
Definition tensorAt (width height size : Z) (kernel ix iy : list float)
  (x y : Z) : list (list float) :=
  let samples := sampleIndices width height size x y in
  let Ixx := weightedSum (imap (fun _ v => (v * v)%float) ix) kernel samples in
  let Iyy := weightedSum (imap (fun _ v => (v * v)%float) iy) kernel samples in
  let Ixy :=
    weightedSum (imap (fun i v => (v * aget iy (Z.of_nat i))%float) ix)
      kernel samples in
  [[Ixx; Ixy]; [Ixy; Iyy]].

(** ** What a run changes *)

(** The locations [D] hold the same arrays in [st'] as in [st], and
    [gradients] still points where it did. *)
Definition preserved (D : gset loc) (st st' : page) : Prop :=
  gradients st' = gradients st
  /\ D ⊆ dom (store st')
  /\ forall l, l ∈ D -> store st' !! l = store st !! l.

(** [m] preserves the arrays at [D], and its result satisfies [Q]. *)
Definition frames {A : Type} (D : gset loc) (m : M A) (Q : A -> Prop) : Prop :=
  forall st, D ⊆ dom (store st) ->
    preserved D st (snd (m st)) /\ forall a, fst (m st) = Ok a -> Q a.

(** A computation that never changes the page. *)
Definition readonly {A : Type} (m : M A) : Prop := forall st, snd (m st) = st.

(** [st] with [ops] drawn after what was drawn. *)
Definition add_drawn (ops : list canvas_op) (st : page) : page :=
  {| width := width st; height := height st; image_data := image_data st;
     kernelSize := kernelSize st; kernelSigma := kernelSigma st;
     lambda1 := lambda1 st; lambda2 := lambda2 st;
     gradients := gradients st; store := store st;
     drawn := drawn st ++ ops |}.

(** A computation that only draws. *)
Definition draw_only {A : Type} (m : M A) : Prop :=
  forall st, exists ops, snd (m st) = add_drawn ops st.

(** A computation that only changes the store. *)
Definition store_only {A : Type} (m : M A) : Prop :=
  forall st, exists f, snd (m st) = with_store f st.

(** ** The order of [sort()] on two values *)

(** Two values in the order of [sort()]: the order of their strings. *)
Definition stringOrdered (a b : float) : float * float :=
  if SortCompare_lt b a then (b, a) else (a, b).

(** The state after lines 213 to 216 on a result of two eigenpairs. *)
Definition twoShown (e0 e1 : eigenpair) (st : page) : page :=
  let l := fresh (dom (store st)) in
  let a := (value e0 / 1000)%float in
  let b := (value e1 / 1000)%float in
  with_lambda2 (JS.toFixed (fst (stringOrdered a b)))
    (with_store (insert l (sorted [a; b]))
       (with_lambda1 (JS.toFixed (snd (stringOrdered a b)))
          (with_store (insert l (sorted [a; b]))
             (with_store (insert l [a; b]) st)))).

(** ** The cells of the kernel overlay *)

(** The operations the two loops of [drawKernel] send to the canvas. *)
Definition kernelCells (width height size : Z) (kernel : list float)
  (x y : Z) : list canvas_op :=
  let halfKernel := size / 2 in
  map (fun k =>
         let ky := fst k in
         let kx := snd k in
         fillRect
           (aget kernel ((ky + halfKernel) * size + (kx + halfKernel))
            / JS.Math_max kernel)%float
           (Z.min (Z.max (x + kx) 0) (width - 1))
           (Z.min (Z.max (y + ky) 0) (height - 1)) 1 1)
    (list_prod (seqZ (- halfKernel) (2 * halfKernel + 1))
       (seqZ (- halfKernel) (2 * halfKernel + 1))).

(** ** The canvas size and the parameters *)

(** [st'] has the canvas size and the kernel parameters of [st]. *)
Definition sameSetup (st st' : page) : Prop :=
  width st' = width st /\ height st' = height st
  /\ kernelSize st' = kernelSize st /\ kernelSigma st' = kernelSigma st.

Definition keepsSetup {A : Type} (m : M A) : Prop :=
  forall st, sameSetup st (snd (m st)).

(** ** Example pages *)

(** A 3 by 3 image whose nine pixels all have the colour (r, g, b). *)
Definition flat3x3 (r g b : Z) : page :=
  {| width := 3; height := 3;
     image_data := concat (replicate 9 [r; g; b; 255]);
     kernelSize := 15; kernelSigma := 3;
     lambda1 := "0"; lambda2 := "0";
     gradients := None; store := ∅; drawn := [] |}.

(** The gray levels whose flat Sobel-Y sum is not 0 in binary64. *)
Definition residue_levels : list Z :=
  Eval vm_compute in
    filter (fun v => PrimFloat.Leibniz.eqb (flatSum Sy_rows (gray v v v)) 0 = false)
      (seqZ 0 256).

(** A 10 by 10 black image with one white pixel at (2, 2), the kernel
    parameters (3, 1), before and after [computeGradients]. *)
Definition dot10 : page :=
  {| width := 10; height := 10;
     image_data :=
       concat (map (fun p => if p =? 22 then [255; 255; 255; 255]
                             else [0; 0; 0; 255])
                 (seqZ 0 100));
     kernelSize := 3; kernelSigma := 1;
     lambda1 := "0"; lambda2 := "0";
     gradients := None; store := ∅; drawn := [] |}.

Definition dot10_loaded : page := gradientsComputed dot10.

(** The same image with the gray level 100 at (2, 2) instead of white. *)
Definition dim10 : page :=
  {| width := 10; height := 10;
     image_data :=
       concat (map (fun p => if p =? 22 then [100; 100; 100; 255]
                             else [0; 0; 0; 255])
                 (seqZ 0 100));
     kernelSize := 3; kernelSigma := 1;
     lambda1 := "0"; lambda2 := "0";
     gradients := None; store := ∅; drawn := [] |}.

Definition dim10_loaded : page := gradientsComputed dim10.

(** The state in which [drawOverlay] computes the eigenvectors. *)
Definition dim10_cleared : page :=
  with_drawn (drawImage 0 0) (with_drawn (clearRect 0 0 10 10) dim10_loaded).

(** The 5 by 5 all-black image with the kernel parameters (3, 1). *)
Definition black5 : page :=
  {| width := 5; height := 5;
     image_data := concat (replicate 25 [0; 0; 0; 255]);
     kernelSize := 3; kernelSigma := 1;
     lambda1 := "0"; lambda2 := "0";
     gradients := None; store := ∅; drawn := [] |}.

(** What [eigs] returns for a tensor with the eigenvalues 9000 and 10000,
    the smaller first, with the eigenvectors (1, 0) and (0, 1). *)
Definition ninety_ten : list eigenpair :=
  [ {| value := 9000; vector := (1%float, 0%float) |};
    {| value := 10000; vector := (0%float, 1%float) |} ].

(** The state after lines 213 to 216 on that result: the array of scaled
    eigenvalues was [9; 10], and the sort left it as [10; 9], the order of
    the strings "10" and "9". *)
Definition ninety_ten_shown (st : page) : page :=
  let l := fresh (dom (store st)) in
  with_lambda2 "10"%string
    (with_store (insert l [10%float; 9%float])
       (with_lambda1 "9"%string
          (with_store (insert l [10%float; 9%float])
             (with_store (insert l [9%float; 10%float]) st)))).

(** ** Eigenvectors *)

(** A finite number that is not 0. *)
Definition NonZero (x : float) : Prop :=
  exists s m e, Prim2SF x = S754_finite s m e.

(** The inner product of two vectors of the script. *)
Definition dot (v w : float * float) : R :=
  (Rval (fst v) * Rval (fst w) + Rval (snd v) * Rval (snd w))%R.

(** A vector of finite numbers whose squared length is 1 up to [10^-14]. *)
Definition unitLength (v : float * float) : Prop :=
  Finite (fst v) /\ Finite (snd v)
  /\ (Rabs (dot v v - 1) <= / 100000000000000)%R.

(** * Lemmas *)

(** ** Loops *)

Section Loops.

Context {S : Type}.

Lemma for_nil (body : Z -> S -> S) (init : S) : for_ [] body init = init.
Proof. reflexivity. Qed.

Lemma for_cons (i : Z) (l : list Z) (body : Z -> S -> S) (init : S) :
  for_ (i :: l) body init = for_ l body (body i init).
Proof. reflexivity. Qed.

Lemma for_app (l1 l2 : list Z) (body : Z -> S -> S) (init : S) :
  for_ (l1 ++ l2) body init = for_ l2 body (for_ l1 body init).
Proof. unfold for_. apply fold_left_app. Qed.

(** Two nested loops visit the pairs of their counters in row-major
    order. *)
Lemma for_nested (ys xs : list Z) (body : Z -> Z -> S -> S) (init : S) :
  for_ ys (fun y => for_ xs (body y)) init
  = fold_left (fun s k => body (fst k) (snd k) s) (list_prod ys xs) init.
Proof.
  revert init. induction ys as [|y ys IH]; intros init; [reflexivity|].
  rewrite for_cons, IH. cbn [list_prod]. rewrite fold_left_app. f_equal.
  unfold for_. generalize init. clear.
  induction xs as [|x xs IH]; intros init; [reflexivity|]. cbn. apply IH.
Qed.

(** An invariant of the loop variables holds after the loop. *)
Lemma for_invariant (P : S -> Prop) (l : list Z) (body : Z -> S -> S)
  (init : S) :
  P init -> (forall i s, i ∈ l -> P s -> P (body i s)) -> P (for_ l body init).
Proof.
  revert init. induction l as [|i l IH]; intros init Hinit Hstep; [exact Hinit|].
  rewrite for_cons. apply IH.
  - apply Hstep; [left|exact Hinit].
  - intros j s Hj. apply Hstep. right. exact Hj.
Qed.

End Loops.

(** ** The Gaussian kernel *)

Section Kernel.

Variable Math_exp : float -> float.

Lemma rem_2_even (size : Z) : (Z.rem size 2 =? 0) = Z.even size.
Proof.
  destruct (Z.even size) eqn:E.
  - apply Z.eqb_eq. apply Z.even_spec in E. destruct E as [m ->].
    rewrite Z.mul_comm. apply Z.rem_mul. lia.
  - apply Z.eqb_neq. intros H. apply Z.rem_divide in H; [|lia].
    destruct H as [m ->]. rewrite Z.even_mul in E. cbn in E.
    rewrite orb_true_r in E. discriminate.
Qed.

(** The loops of the generator push one weight per pair of counters. *)
Lemma kernel_loop_length (ys xs : list Z) (weight : Z -> Z -> float)
  (kernel : list float) (sum : float) :
  length (fst (for_ ys (fun y => for_ xs (fun x '(kernel, sum) =>
            (kernel ++ [weight x y], (sum + weight x y)%float)))
          (kernel, sum)))
  = (length kernel + length ys * length xs)%nat.
Proof.
  revert kernel sum. induction ys as [|y ys IH]; intros kernel sum.
  - cbn. lia.
  - rewrite for_cons.
    assert (Hin : forall k s, length (fst (for_ xs (fun x '(kernel, sum) =>
               (kernel ++ [weight x y], (sum + weight x y)%float)) (k, s)))
              = (length k + length xs)%nat).
    { clear. induction xs as [|x xs IHx]; intros k s.
      - cbn. lia.
      - rewrite for_cons, IHx, length_app. cbn. lia. }
    specialize (Hin kernel sum).
    destruct (for_ xs _ (kernel, sum)) as [k' s'] eqn:E.
    rewrite IH. cbn [fst] in Hin. rewrite Hin. cbn [length]. lia.
Qed.

(** The generator decides on the parity of [size] alone: an even size is
    refused, and every odd size, whatever its magnitude and whatever
    sigma, yields a table with one weight per pair of counters. *)
Lemma generateGaussianKernel_cases (size : Z) (sigma : float) :
  if Z.even size
  then generateGaussianKernel Math_exp size sigma = Throw InvalidParameter
  else exists kernel,
      generateGaussianKernel Math_exp size sigma = Ok kernel
      /\ length kernel = (Z.to_nat size * Z.to_nat size)%nat.
Proof.
  unfold generateGaussianKernel. rewrite rem_2_even.
  destruct (Z.even size); [reflexivity|].
  match goal with
  | |- context [for_ ?ys ?body ?init] =>
      pose proof (kernel_loop_length (seqZ 0 size) (seqZ 0 size)
        (fun x y =>
           (1 / (2 * JS.Math_PI * (sigma * sigma))
            * Math_exp (- JS.of_Z ((x - size / 2) * (x - size / 2)
                                   + (y - size / 2) * (y - size / 2))
                        / (2 * (sigma * sigma))))%float)
        [] 0%float) as Hlen;
      change (length (fst (for_ ys body init)) = (length (@nil float)
               + length (seqZ 0 size) * length (seqZ 0 size))%nat) in Hlen;
      destruct (for_ ys body init) as [kernel sum]
  end.
  exists (map (fun value => (value / sum)%float) kernel). split; [reflexivity|].
  rewrite length_map. cbn [fst] in Hlen. rewrite Hlen, length_seqZ. cbn. lia.
Qed.

End Kernel.

(** ** Arrays written by loops *)

Lemma aset_in_range (a : list float) (i : Z) (v : float) :
  0 <= i < Z.of_nat (length a) -> aset a i v = <[Z.to_nat i := v]> a.
Proof.
  intros [H0 H1]. unfold aset.
  destruct (Z.ltb_spec i 0); [lia|].
  destruct (Z.ltb_spec i (Z.of_nat (length a))); [reflexivity|lia].
Qed.

Lemma aset_length (a : list float) (i : Z) (v : float) :
  0 <= i < Z.of_nat (length a) -> length (aset a i v) = length a.
Proof. intros H. rewrite aset_in_range by exact H. apply length_insert. Qed.

Section WrittenArray.

Context {K : Type} (ix : K -> Z) (v : K -> float).

Lemma written_length (ks : list K) (a : list float) :
  (forall k, k ∈ ks -> 0 <= ix k < Z.of_nat (length a)) ->
  length (written ix v ks a) = length a.
Proof.
  revert a. induction ks as [|k ks IH]; intros a Hr; [reflexivity|].
  change (written ix v (k :: ks) a) with (written ix v ks (aset a (ix k) (v k))).
  rewrite IH.
  - apply aset_length, Hr. left.
  - intros k' Hk'. rewrite aset_length by (apply Hr; left). apply Hr. right.
    exact Hk'.
Qed.

(** Element [i] ends up as [val] when every write to [i] writes [val] and
    either [i] held [val] from the start or some write hits [i]. *)
Lemma written_lookup (ks : list K) (a : list float) (i : nat) (val : float) :
  (forall k, k ∈ ks -> 0 <= ix k < Z.of_nat (length a)) ->
  (forall k, k ∈ ks -> Z.to_nat (ix k) = i -> v k = val) ->
  a !! i = Some val \/ (exists k, k ∈ ks /\ Z.to_nat (ix k) = i) ->
  written ix v ks a !! i = Some val.
Proof.
  revert a. induction ks as [|k ks IH]; intros a Hr Hv Hi.
  - destruct Hi as [Hi|[k [Hk _]]]; [exact Hi|]. inversion Hk.
  - change (written ix v (k :: ks) a)
      with (written ix v ks (aset a (ix k) (v k))).
    assert (Hk : 0 <= ix k < Z.of_nat (length a)) by (apply Hr; left).
    apply IH.
    + intros k' Hk'. rewrite aset_length by exact Hk. apply Hr. right.
      exact Hk'.
    + intros k' Hk'. apply Hv. right. exact Hk'.
    + rewrite aset_in_range by exact Hk.
      destruct (decide (Z.to_nat (ix k) = i)) as [E|NE].
      * left. subst i. rewrite list_lookup_insert_eq by lia.
        f_equal. apply Hv; [left|reflexivity].
      * rewrite list_lookup_insert_ne by exact NE.
        destruct Hi as [Hi|[k' [Hk' E']]]; [left; exact Hi|].
        apply elem_of_cons in Hk' as [->|Hk']; [contradiction|].
        right. exists k'. split; assumption.
Qed.

End WrittenArray.

(** Two arrays written side by side by one loop are each [written]. *)
Lemma written_pair {K : Type} (ix : K -> Z) (v : K -> float * float)
  (ks : list K) (a b : list float) :
  fold_left (fun '(a, b) k =>
               let '(va, vb) := v k in (aset a (ix k) va, aset b (ix k) vb))
    ks (a, b)
  = (written ix (fun k => fst (v k)) ks a,
     written ix (fun k => snd (v k)) ks b).
Proof.
  revert a b. induction ks as [|k ks IH]; intros a b; [reflexivity|].
  cbn. destruct (v k) as [va vb]. cbn. apply IH.
Qed.

(** ** The gradient field *)

Section Gradients.

Local Open Scope float_scope.

Lemma getGray_luminance (data : list Z) (width x y : Z) :
  getGray data width x y = luminance data width x y.
Proof.
  unfold getGray, luminance.
  replace ((y * width + x) * 4)%Z with (4 * (y * width + x))%Z by lia.
  reflexivity.
Qed.

Lemma applySobel_sums (data : list Z) (width x y : Z) :
  applySobel data width x y
  = (sobelSum Sx_rows data width x y, sobelSum Sy_rows data width x y).
Proof.
  unfold applySobel, sobelSum.
  change (seqZ (-1) 3) with [-1; 0; 1]%Z.
  cbn [for_ fold_left neighbourhood fst snd].
  rewrite !getGray_luminance. reflexivity.
Qed.

Lemma luminance_constant (data : list Z) (width height r g b x y : Z) :
  constant_image data width height r g b ->
  (0 <= x < width)%Z -> (0 <= y < height)%Z ->
  luminance data width x y = gray r g b.
Proof.
  intros Hc Hx Hy. unfold luminance, gray, byte_get.
  assert (Hp : (0 <= y * width + x < width * height)%Z) by nia.
  destruct (Hc _ Hp) as (Hr & Hg & Hb).
  repeat match goal with
         | |- context [(?i <? 0)%Z] =>
             destruct (Z.ltb_spec i 0); [lia|]
         end.
  rewrite Hr, Hg, Hb. reflexivity.
Qed.

Lemma sobelSum_constant (rows : list (list float)) (data : list Z)
  (width height r g b x y : Z) :
  constant_image data width height r g b ->
  (1 <= x < width - 1)%Z -> (1 <= y < height - 1)%Z ->
  sobelSum rows data width x y = flatSum rows (gray r g b).
Proof.
  intros Hc Hx Hy. unfold sobelSum, flatSum.
  cbn [fold_left neighbourhood fst snd].
  rewrite !(luminance_constant data width height r g b) by (assumption || lia).
  reflexivity.
Qed.

Lemma fold_left_pointwise {A B : Type} (f g : A -> B -> A) (l : list B) (a : A) :
  (forall a b, f a b = g a b) -> fold_left f l a = fold_left g l a.
Proof.
  intros E. revert a. induction l as [|b l IH]; intros a; [reflexivity|].
  cbn. rewrite E. apply IH.
Qed.

Lemma elem_of_interior (width height x y : Z) :
  (y, x) ∈ interior width height
  <-> (1 <= y < height - 1)%Z /\ (1 <= x < width - 1)%Z.
Proof.
  unfold interior. rewrite list_elem_of_In, in_prod_iff.
  rewrite <- !list_elem_of_In, !elem_of_seqZ. lia.
Qed.

Lemma gradientArrays_written (data : list Z) (width height : Z) :
  gradientArrays data width height
  = (written (fun k => fst k * width + snd k)%Z
       (fun k => sobelSum Sx_rows data width (snd k) (fst k))
       (interior width height)
       (replicate (Z.to_nat (width * height)) 0),
     written (fun k => fst k * width + snd k)%Z
       (fun k => sobelSum Sy_rows data width (snd k) (fst k))
       (interior width height)
       (replicate (Z.to_nat (width * height)) 0)).
Proof.
  unfold gradientArrays. rewrite for_nested.
  rewrite <- (written_pair (fun k => fst k * width + snd k)%Z
                (fun k => (sobelSum Sx_rows data width (snd k) (fst k),
                           sobelSum Sy_rows data width (snd k) (fst k)))).
  apply fold_left_pointwise. intros [a b] [y x]. cbn [fst snd].
  rewrite applySobel_sums. reflexivity.
Qed.

(** What the loops leave in one of the two arrays: the Sobel sum at the
    interior pixels, the initial 0 on the border. *)
Lemma written_gradient (f : Z -> Z -> float) (width height x y : Z) :
  (0 <= x < width)%Z -> (0 <= y < height)%Z ->
  written (fun k => fst k * width + snd k)%Z (fun k => f (snd k) (fst k))
    (interior width height) (replicate (Z.to_nat (width * height)) 0)
  !! Z.to_nat (y * width + x)
  = Some (if ((1 <=? x) && (x <? width - 1)
              && (1 <=? y) && (y <? height - 1))%Z
          then f x y else 0).
Proof.
  intros Hx Hy. apply written_lookup.
  - intros [y' x'] Hk. apply elem_of_interior in Hk. cbn [fst snd].
    rewrite length_replicate. nia.
  - intros [y' x'] Hk E. apply elem_of_interior in Hk. cbn [fst snd] in *.
    assert (E' : (y' * width + x' = y * width + x)%Z) by nia.
    assert (y' = y) as -> by nia.
    assert (x' = x) as -> by lia.
    destruct (Z.leb_spec 1 x), (Z.ltb_spec x (width - 1)),
      (Z.leb_spec 1 y), (Z.ltb_spec y (height - 1)); cbn; (reflexivity || lia).
  - destruct (Z.leb_spec 1 x), (Z.ltb_spec x (width - 1)),
      (Z.leb_spec 1 y), (Z.ltb_spec y (height - 1)); cbn.
    1: { right. exists (y, x). split; [apply elem_of_interior; lia|reflexivity]. }
    all: left; apply lookup_replicate_2; nia.
Qed.

End Gradients.

(** ** Running [computeGradients] *)

Lemma float_eq_dec_true (x y : float) : PrimFloat.Leibniz.eqb x y = true -> x = y.
Proof. apply FloatAxioms.Leibniz.eqb_spec. Qed.

Lemma float_neq (x y : float) : PrimFloat.Leibniz.eqb x y = false -> x <> y.
Proof.
  intros H E. apply FloatAxioms.Leibniz.eqb_spec in E. congruence.
Qed.

Lemma computeGradients_run (st : page) :
  width st <> 0 -> height st <> 0 ->
  computeGradients st = (Ok tt, gradientsComputed st).
Proof.
  intros HW HH. unfold computeGradients, gradientsComputed.
  unfold mbind, M_bind, gets, throw, modify, alloc.
  destruct (Z.eqb_spec (width st) 0); [contradiction|].
  destruct (Z.eqb_spec (height st) 0); [contradiction|].
  cbn [orb]. destruct (gradientArrays _ _ _) as [ix iy]. reflexivity.
Qed.

Lemma gradientsComputed_arrays (st : page) :
  exists g,
    gradients (gradientsComputed st) = Some g
    /\ store (gradientsComputed st) !! Ix g
       = Some (fst (gradientArrays (image_data st) (width st) (height st)))
    /\ store (gradientsComputed st) !! Iy g
       = Some (snd (gradientArrays (image_data st) (width st) (height st))).
Proof.
  unfold gradientsComputed. eexists. split; [reflexivity|]. cbn.
  set (arrays := gradientArrays _ _ _).
  set (lx := fresh (dom (store st))).
  set (ly := fresh (dom (<[lx := arrays.1]> (store st)))).
  assert (ly <> lx).
  { intros E. apply (is_fresh (dom (<[lx := arrays.1]> (store st)))).
    fold ly. rewrite E. apply elem_of_dom. rewrite lookup_insert_eq. eauto. }
  split.
  - rewrite lookup_insert_ne by done. apply lookup_insert_eq.
  - apply lookup_insert_eq.
Qed.

(** *** Examples: small images *)

Lemma flat3x3_constant (r g b : Z) :
  constant_image (image_data (flat3x3 r g b)) 3 3 r g b.
Proof.
  intros p Hp.
  assert (p = 0 \/ p = 1 \/ p = 2 \/ p = 3 \/ p = 4 \/ p = 5 \/ p = 6
          \/ p = 7 \/ p = 8) as Hcases by lia.
  repeat (destruct Hcases as [->|Hcases]; [repeat split; reflexivity|]).
  subst p. repeat split; reflexivity.
Qed.

Lemma gray_levels_checked :
  forallb
    (fun v =>
       Bool.eqb (PrimFloat.Leibniz.eqb (flatSum Sy_rows (gray v v v)) 0)
         (negb (bool_decide (v ∈ residue_levels)))
       && (PrimFloat.abs (flatSum Sy_rows (gray v v v)) <=? 0x1p-45)%float)
    (seqZ 0 256) = true.
Proof. vm_compute. reflexivity. Qed.

(** On gray images the flat Sobel-Y sum is 0 except at the levels of
    [residue_levels], and it never exceeds 2^-45 in magnitude. *)
Lemma gray_levels_flatSum (v : Z) :
  0 <= v <= 255 ->
  (flatSum Sy_rows (gray v v v) = 0%float <-> v ∉ residue_levels)
  /\ (PrimFloat.abs (flatSum Sy_rows (gray v v v)) <=? 0x1p-45)%float = true.
Proof.
  intros Hv. pose proof gray_levels_checked as H.
  rewrite forallb_forall in H. specialize (H v).
  rewrite <- list_elem_of_In, elem_of_seqZ in H. specialize (H ltac:(lia)).
  apply andb_true_iff in H as [Hy Hbound]. split; [|exact Hbound].
  apply Bool.eqb_prop in Hy.
  destruct (bool_decide_reflect (v ∈ residue_levels)) as [Hin|Hnot];
    cbn [negb] in Hy.
  - split; [|intros Hnot; contradiction].
    intros E. apply FloatAxioms.Leibniz.eqb_spec in E. congruence.
  - split; [intros _; exact Hnot|]. intros _. apply float_eq_dec_true, Hy.
Qed.

(** ** Binary64 facts behind the flat Sobel-X sum

    Multiplying by 1, 2, -1 and -2 is exact, and a value and its opposite
    add up to +0: the X kernel pairs every product with its opposite, so
    its partial sums are -c, -c, 0, -2c, -2c, 0, -c, -c, 0. *)

Lemma bounded_canonical (m : positive) (e : Z) :
  bounded prec emax m e = true ->
  fexp prec emax (Z.pos (digits2_pos m) + e) = e /\ e <= emax - prec.
Proof.
  unfold bounded, canonical_mantissa. intros H.
  apply andb_true_iff in H as [H1 H2].
  apply Z.eqb_eq in H1. apply Z.leb_le in H2. split; assumption.
Qed.

(** The product with [2^52 * 2^j], a power of two, when it needs no
    rounding: the mantissa [m * 2^52] is shifted back by 52 places. *)
Lemma mul_pow2_exact (s s' : bool) (m : positive) (e j : Z) :
  fexp prec emax (Z.pos (digits2_pos m) + (e + j + 52)) = e + j + 52 ->
  e + j + 52 <= emax - prec ->
  SF64mul (S754_finite s m e) (S754_finite s' 4503599627370496 j)
  = S754_finite (xorb s s') m (e + j + 52).
Proof.
  intros Hc Hb. unfold SF64mul, SFmul, binary_round_aux.
  rewrite Pos.mul_comm.
  let shifted := eval cbv [Pos.mul] in (4503599627370496 * m)%positive in
  change (4503599627370496 * m)%positive with shifted.
  unfold shr_fexp at 1. unfold Zdigits2. cbn [digits2_pos].
  rewrite !Pos2Z.inj_succ.
  match goal with
  | |- context [fexp prec emax ?a - ?b] =>
      replace a with (Z.pos (digits2_pos m) + (e + j + 52)) by lia;
      rewrite Hc; replace (e + j + 52 - b) with 52 by lia
  end.
  cbn [shr shr_record_of_loc SpecFloat.iter_pos shr_1 orb].
  cbn [shr_m loc_of_shr_record round_nearest_even].
  unfold shr_fexp. unfold Zdigits2.
  rewrite Hc. rewrite Z.sub_diag. cbn [shr shr_record_of_loc shr_m].
  apply Z.leb_le in Hb. rewrite Hb. reflexivity.
Qed.

Lemma add_opposite (m : positive) (e : Z) :
  SF64add (S754_finite true m e) (S754_finite false m e) = S754_zero false.
Proof.
  unfold SF64add, SFadd. rewrite Z.min_id. unfold shl_align.
  rewrite Z.sub_diag. cbn [fst]. unfold cond_Zopp.
  replace (- Z.pos m + Z.pos m) with 0 by lia. reflexivity.
Qed.

Lemma flatSum_Sx_spec (c : float) :
  Prim2SF (flatSum Sx_rows c) = sobelX_flat (Prim2SF c).
Proof.
  unfold flatSum, sobelX_flat. cbn [fold_left neighbourhood fst snd].
  change (entry Sx_rows (-1) (-1)) with (-1)%float.
  change (entry Sx_rows 0 (-1)) with 0%float.
  change (entry Sx_rows 1 (-1)) with 1%float.
  change (entry Sx_rows (-1) 0) with (-2)%float.
  change (entry Sx_rows 0 0) with 0%float.
  change (entry Sx_rows 1 0) with 2%float.
  change (entry Sx_rows (-1) 1) with (-1)%float.
  change (entry Sx_rows 0 1) with 0%float.
  change (entry Sx_rows 1 1) with 1%float.
  rewrite !add_spec, !mul_spec. reflexivity.
Qed.

Lemma sobelX_flat_zero (s : bool) : sobelX_flat (S754_zero s) = S754_zero false.
Proof. destruct s; reflexivity. Qed.

Lemma sobelX_flat_normal (m : positive) (e : Z) :
  bounded prec emax m e = true ->
  Z.pos (digits2_pos m) = 53 ->
  e + 1 <= emax - prec ->
  sobelX_flat (S754_finite false m e) = S754_zero false.
Proof.
  intros Hb Hd He. destruct (bounded_canonical m e Hb) as [Hc Hle].
  assert (H1 : forall s',
             SF64mul (S754_finite false m e)
               (S754_finite s' 4503599627370496 (-52))
             = S754_finite s' m e).
  { intros s'. rewrite mul_pow2_exact.
    - f_equal. lia.
    - replace (e + -52 + 52) with e by lia. exact Hc.
    - lia. }
  assert (H2 : forall s',
             SF64mul (S754_finite false m e)
               (S754_finite s' 4503599627370496 (-51))
             = S754_finite s' m (e + 1)).
  { intros s'. rewrite mul_pow2_exact.
    - f_equal. lia.
    - replace (e + -51 + 52) with (e + 1) by lia.
      unfold fexp in *. rewrite Hd in *. unfold emin, prec, emax in *. lia.
    - lia. }
  unfold sobelX_flat. cbn [fold_left]. rewrite !H1, !H2.
  change (SF64mul (S754_finite false m e) (S754_zero false))
    with (S754_zero false).
  change (SF64add (S754_zero false) (S754_finite true m e))
    with (S754_finite true m e).
  change (SF64add (S754_finite true m e) (S754_zero false))
    with (S754_finite true m e).
  rewrite (add_opposite m e).
  change (SF64add (S754_zero false) (S754_finite true m (e + 1)))
    with (S754_finite true m (e + 1)).
  change (SF64add (S754_finite true m (e + 1)) (S754_zero false))
    with (S754_finite true m (e + 1)).
  rewrite (add_opposite m (e + 1)).
  change (SF64add (S754_zero false) (S754_finite true m e))
    with (S754_finite true m e).
  change (SF64add (S754_finite true m e) (S754_zero false))
    with (S754_finite true m e).
  rewrite (add_opposite m e). reflexivity.
Qed.

Lemma small_spec (c : float) :
  small c = true ->
  (exists s, Prim2SF c = S754_zero s)
  \/ exists m e, Prim2SF c = S754_finite false m e
                 /\ bounded prec emax m e = true
                 /\ Z.pos (digits2_pos m) = 53 /\ e + 1 <= emax - prec.
Proof.
  unfold small. rewrite FloatAxioms.eqb_spec, !FloatAxioms.leb_spec.
  pose proof (Prim2SF_valid c) as Hv.
  change (Prim2SF 0) with (S754_zero false).
  change (Prim2SF 0x1p-14) with (S754_finite false 4503599627370496 (-66)).
  change (Prim2SF 0x1p9) with (S754_finite false 4503599627370496 (-43)).
  destruct (Prim2SF c) as [s|s| |s m e].
  - intros _. left. eauto.
  - intros H. destruct s; vm_compute in H; discriminate H.
  - intros H. vm_compute in H. discriminate H.
  - intros H. unfold SFeqb, SFleb, SFcompare in H.
    destruct s; cbv beta iota in H; [discriminate H|].
    right. exists m, e. split; [reflexivity|]. split; [exact Hv|].
    destruct (Z.compare_spec (-66) e), (Z.compare_spec e (-43));
      cbv beta iota in H; try discriminate H.
    all: destruct (bounded_canonical m e Hv) as [Hc Hle];
      unfold fexp, emin, prec, emax in *; lia.
Qed.

Lemma flatSum_Sx_small (c : float) :
  small c = true -> flatSum Sx_rows c = 0%float.
Proof.
  intros H. apply Prim2SF_inj. rewrite flatSum_Sx_spec.
  change (Prim2SF 0) with (S754_zero false).
  destruct (small_spec c H) as [[s ->]|(m & e & -> & Hb & Hd & He)].
  - apply sobelX_flat_zero.
  - apply sobelX_flat_normal; assumption.
Qed.

(** Checked on each of the 2^24 colours: the luminance is small. *)
Lemma luminances_checked :
  forallb (fun r => forallb (fun g =>
    let rg := (r + g)%float in
    forallb (fun b => small (rg + b)%float) blue_terms) green_terms) red_terms
  = true.
Proof. vm_compute. reflexivity. Qed.

Lemma gray_small (r g b : Z) :
  0 <= r <= 255 -> 0 <= g <= 255 -> 0 <= b <= 255 -> small (gray r g b) = true.
Proof.
  intros Hr Hg Hb. pose proof luminances_checked as H.
  assert (Hred : In (0.3 * JS.of_Z r)%float red_terms).
  { change red_terms with (map (fun r => (0.3 * JS.of_Z r)%float) (seqZ 0 256)).
    apply (in_map (fun r => (0.3 * JS.of_Z r)%float)).
    apply list_elem_of_In, elem_of_seqZ. lia. }
  assert (Hgreen : In (0.59 * JS.of_Z g)%float green_terms).
  { change green_terms
      with (map (fun g => (0.59 * JS.of_Z g)%float) (seqZ 0 256)).
    apply (in_map (fun g => (0.59 * JS.of_Z g)%float)).
    apply list_elem_of_In, elem_of_seqZ. lia. }
  assert (Hblue : In (0.11 * JS.of_Z b)%float blue_terms).
  { change blue_terms
      with (map (fun b => (0.11 * JS.of_Z b)%float) (seqZ 0 256)).
    apply (in_map (fun b => (0.11 * JS.of_Z b)%float)).
    apply list_elem_of_In, elem_of_seqZ. lia. }
  rewrite forallb_forall in H. specialize (H _ Hred).
  rewrite forallb_forall in H. specialize (H _ Hgreen). cbv zeta in H.
  rewrite forallb_forall in H. exact (H _ Hblue).
Qed.

(** The flat Sobel-X sum vanishes for the luminance of every colour. *)
Lemma flatSum_Sx_gray (r g b : Z) :
  0 <= r <= 255 -> 0 <= g <= 255 -> 0 <= b <= 255 ->
  flatSum Sx_rows (gray r g b) = 0%float.
Proof. intros Hr Hg Hb. apply flatSum_Sx_small, gray_small; assumption. Qed.

(** ** What a run of the script leaves alone *)

Section Frames.

Context (D : gset loc).

Lemma preserved_refl (st : page) : D ⊆ dom (store st) -> preserved D st st.
Proof.
  intros H. split; [reflexivity|]. split; [exact H|]. intros l _. reflexivity.
Qed.

Lemma preserved_trans (st1 st2 st3 : page) :
  preserved D st1 st2 -> preserved D st2 st3 -> preserved D st1 st3.
Proof.
  intros (G1 & S1 & L1) (G2 & S2 & L2). repeat split.
  - congruence.
  - exact S2.
  - intros l Hl. rewrite L2, L1 by exact Hl. reflexivity.
Qed.

Lemma frames_weaken {A} (m : M A) (Q R : A -> Prop) :
  frames D m Q -> (forall a, Q a -> R a) -> frames D m R.
Proof.
  intros Hm HQR st HD. destruct (Hm st HD) as [Hp HQ].
  split; [exact Hp|]. intros a Ha. apply HQR, HQ, Ha.
Qed.

Lemma frames_ret {A} (a : A) (Q : A -> Prop) : Q a -> frames D (mret a) Q.
Proof.
  intros HQ st HD. split; [apply preserved_refl, HD|].
  intros a' [= <-]. exact HQ.
Qed.

Lemma frames_bind {A B} (m : M A) (f : A -> M B) (Q : A -> Prop)
  (R : B -> Prop) :
  frames D m Q -> (forall a, Q a -> frames D (f a) R) -> frames D (m ≫= f) R.
Proof.
  intros Hm Hf st HD. destruct (Hm st HD) as [Hp HQ].
  unfold mbind, M_bind. destruct (m st) as [[a|e] st1]; cbn [fst snd] in *.
  - destruct Hp as (G1 & S1 & L1).
    destruct (Hf a (HQ a eq_refl) st1 S1) as [Hp2 HR].
    split; [|exact HR]. eapply preserved_trans; [|exact Hp2].
    repeat split; assumption.
  - split; [exact Hp|]. intros b [=].
Qed.

Lemma frames_readonly {A} (m : M A) :
  readonly m -> frames D m (fun _ => True).
Proof.
  intros Hm st HD. rewrite Hm. split; [apply preserved_refl, HD|]. auto.
Qed.

Lemma frames_alloc (a : list float) : frames D (alloc a) (fun l => l ∉ D).
Proof.
  intros st HD. unfold alloc. cbn [fst snd].
  pose proof (is_fresh (dom (store st))) as Hfresh.
  assert (Hnot : fresh (dom (store st)) ∉ D) by set_solver.
  split.
  - repeat split; cbn.
    + rewrite dom_insert_L. set_solver.
    + intros l Hl. apply lookup_insert_ne. intros E. apply Hnot.
      rewrite E. exact Hl.
  - intros l [= <-]. exact Hnot.
Qed.

Lemma frames_sort (l : loc) :
  l ∉ D -> frames D (Array_sort l) (fun r => r = l).
Proof.
  intros Hl st HD. unfold Array_sort.
  destruct (store st !! l) as [a|] eqn:E; cbn [fst snd].
  - split.
    + repeat split; cbn.
      * rewrite dom_insert_L. set_solver.
      * intros l' Hl'. apply lookup_insert_ne. intros El. apply Hl.
        rewrite El. exact Hl'.
    + intros r [= <-]. reflexivity.
  - split; [apply preserved_refl, HD|]. intros r [=].
Qed.

Lemma frames_modify (f : page -> page) :
  (forall st, store (f st) = store st /\ gradients (f st) = gradients st) ->
  frames D (modify f) (fun _ => True).
Proof.
  intros Hf st HD. unfold modify. cbn [fst snd]. destruct (Hf st) as [Hs Hg].
  split; [|auto]. repeat split.
  - exact Hg.
  - rewrite Hs. exact HD.
  - intros l _. rewrite Hs. reflexivity.
Qed.

Lemma frames_for_M {S} (l : list Z) (body : Z -> S -> M S) (init : S) :
  (forall i s, frames D (body i s) (fun _ => True)) ->
  frames D (for_M l body init) (fun _ => True).
Proof.
  intros Hbody. revert init. induction l as [|i l IH]; intros init.
  - apply frames_ret. exact I.
  - cbn [for_M]. eapply frames_bind; [apply Hbody|]. intros s _. apply IH.
Qed.

End Frames.

(** *** Read-only parts of the script *)

Lemma readonly_ret {A} (a : A) : readonly (mret a).
Proof. intros st. reflexivity. Qed.

Lemma readonly_bind {A B} (m : M A) (f : A -> M B) :
  readonly m -> (forall a, readonly (f a)) -> readonly (m ≫= f).
Proof.
  intros Hm Hf st. unfold mbind, M_bind. specialize (Hm st).
  destruct (m st) as [[a|e] st1]; cbn [snd] in *; subst st1.
  - apply Hf.
  - reflexivity.
Qed.

Lemma readonly_gets {A} (f : page -> A) : readonly (gets f).
Proof. intros st. reflexivity. Qed.

Lemma readonly_throw {A} (e : exn) : readonly (@throw A e).
Proof. intros st. reflexivity. Qed.

Lemma readonly_lift {A} (o : outcome A) : readonly (lift o).
Proof. intros st. reflexivity. Qed.

Lemma readonly_deref (l : loc) : readonly (deref l).
Proof. intros st. unfold deref. destruct (store st !! l); reflexivity. Qed.

Lemma readonly_get_gradients : readonly get_gradients.
Proof. intros st. unfold get_gradients. destruct (gradients st); reflexivity. Qed.

Lemma readonly_for_M {S} (l : list Z) (body : Z -> S -> M S) (init : S) :
  (forall i s, readonly (body i s)) -> readonly (for_M l body init).
Proof.
  intros Hbody. revert init. induction l as [|i l IH]; intros init.
  - apply readonly_ret.
  - cbn [for_M]. apply readonly_bind; [apply Hbody|]. intros s. apply IH.
Qed.

Lemma readonly_index_toFixed (l : loc) (i : Z) : readonly (index_toFixed l i).
Proof.
  unfold index_toFixed. apply readonly_bind; [apply readonly_deref|].
  intros a. destruct (i <? 0); [apply readonly_throw|].
  destruct (a !! Z.to_nat i); [apply readonly_ret|apply readonly_throw].
Qed.

(** *** The query preserves what it did not allocate *)

Section QueryFrames.

Variable Math_exp : float -> float.
Variable eigs : list (list float) -> outcome (list eigenpair).
Context (D : gset loc).

Lemma readonly_gaussianKernel : readonly (gaussianKernel Math_exp).
Proof. intros st. reflexivity. Qed.

Lemma readonly_applyGaussian (x y : Z) (l : loc) :
  readonly (applyGaussian Math_exp x y l).
Proof.
  unfold applyGaussian.
  repeat (apply readonly_bind; [apply readonly_gets|intros ?]).
  apply readonly_for_M. intros ky s. apply readonly_for_M. intros kx s'.
  apply readonly_bind; [apply readonly_deref|intros c].
  apply readonly_bind; [apply readonly_gaussianKernel|intros k].
  apply readonly_ret.
Qed.

Lemma frames_Array_map (f : float -> Z -> float) (l : loc) :
  frames D (Array_map f l) (fun r => r ∉ D).
Proof.
  unfold Array_map. eapply frames_bind.
  - apply frames_readonly, readonly_deref.
  - intros a _. apply frames_alloc.
Qed.

Ltac frames_read lemma :=
  eapply frames_bind; [apply frames_readonly, lemma|intros ? _].

Lemma frames_structureTensor (x y : Z) :
  frames D (structureTensor Math_exp x y) (fun _ => True).
Proof.
  unfold structureTensor.
  frames_read readonly_get_gradients.
  eapply frames_bind; [apply frames_Array_map|intros ? _].
  frames_read readonly_applyGaussian.
  eapply frames_bind; [apply frames_Array_map|intros ? _].
  frames_read readonly_applyGaussian.
  frames_read readonly_deref.
  eapply frames_bind; [apply frames_Array_map|intros ? _].
  frames_read readonly_applyGaussian.
  apply frames_ret. exact I.
Qed.

Lemma frames_computeEigenvectors (x y : Z) :
  frames D (computeEigenvectors Math_exp eigs x y) (fun _ => True).
Proof.
  unfold computeEigenvectors.
  eapply frames_bind; [apply frames_structureTensor|intros ? _].
  apply frames_readonly, readonly_lift.
Qed.

Lemma frames_showLambdas (eigenvectors : list eigenpair) :
  frames D (showLambdas eigenvectors) (fun l => l ∉ D).
Proof.
  unfold showLambdas.
  eapply frames_bind; [apply frames_alloc|intros eigenvalues Hfresh].
  eapply frames_bind; [apply frames_sort, Hfresh|intros ? ->].
  frames_read readonly_index_toFixed.
  eapply frames_bind; [apply frames_modify; intros; split; reflexivity|intros ? _].
  eapply frames_bind; [apply frames_sort, Hfresh|intros ? ->].
  frames_read readonly_index_toFixed.
  eapply frames_bind; [apply frames_modify; intros; split; reflexivity|intros ? _].
  apply frames_ret. exact Hfresh.
Qed.

Lemma frames_draw (op : canvas_op) : frames D (draw op) (fun _ => True).
Proof. apply frames_modify. intros st. split; reflexivity. Qed.

Lemma frames_drawKernel (x y : Z) :
  frames D (drawKernel Math_exp x y) (fun _ => True).
Proof.
  unfold drawKernel.
  repeat frames_read (@readonly_gets Z).
  frames_read readonly_gaussianKernel.
  apply frames_for_M. intros ky s. apply frames_for_M. intros kx s'.
  frames_read readonly_gaussianKernel. apply frames_draw.
Qed.

Lemma frames_drawArrows (x y : Z) (eigenvectors : list eigenpair) (i : Z)
  (eigenvalues : loc) :
  frames D (drawArrows x y eigenvectors i eigenvalues) (fun _ => True).
Proof.
  revert i. induction eigenvectors as [|vec rest IH]; intros i; cbn [drawArrows].
  - apply frames_ret. exact I.
  - frames_read readonly_deref.
    eapply frames_bind; [apply frames_draw|intros ? _]. apply IH.
Qed.

Lemma frames_drawResult (x y : Z) (eigenvectors : list eigenpair) :
  frames D (drawResult Math_exp x y eigenvectors) (fun _ => True).
Proof.
  unfold drawResult.
  eapply frames_bind; [apply frames_showLambdas|intros eigenvalues _].
  eapply frames_bind; [apply frames_drawKernel|intros ? _].
  apply frames_drawArrows.
Qed.

Lemma frames_drawOverlay (x y : Z) :
  frames D (drawOverlay Math_exp eigs x y) (fun _ => True).
Proof.
  unfold drawOverlay.
  repeat frames_read (@readonly_gets Z).
  eapply frames_bind; [apply frames_draw|intros ? _].
  eapply frames_bind; [apply frames_draw|intros ? _].
  eapply frames_bind; [apply frames_computeEigenvectors|intros ? _].
  apply frames_drawResult.
Qed.

End QueryFrames.

(** ** The sampling of [applyGaussian] *)

Lemma for_M_pure {S : Type} (l : list Z) (body : Z -> S -> M S)
  (f : Z -> S -> S) (init : S) (st : page) :
  (forall i s, body i s st = (Ok (f i s), st)) ->
  for_M l body init st = (Ok (for_ l f init), st).
Proof.
  intros Hbody. revert init. induction l as [|i l IH]; intros init.
  - reflexivity.
  - cbn [for_M]. unfold mbind, M_bind. rewrite Hbody. rewrite for_cons.
    apply IH.
Qed.

Section Sampling.

Variable Math_exp : float -> float.

Lemma applyGaussian_run (x y : Z) (l : loc) (st : page)
  (component kernel : list float) :
  store st !! l = Some component ->
  generateGaussianKernel Math_exp (kernelSize st) (kernelSigma st) = Ok kernel ->
  applyGaussian Math_exp x y l st
  = (Ok (weightedSum component kernel
           (sampleIndices (width st) (height st) (kernelSize st) x y)), st).
Proof.
  intros Hl Hk. unfold applyGaussian, mbind, M_bind, gets.
  erewrite for_M_pure.
  2: { intros ky s. erewrite for_M_pure; [reflexivity|].
       intros kx s'. unfold mbind, M_bind, deref, gaussianKernel.
       rewrite Hl, Hk. reflexivity. }
  f_equal. f_equal. rewrite for_nested.
  unfold weightedSum, sampleIndices, clamp.
  generalize (list_prod (seqZ (- (kernelSize st / 2)) (2 * (kernelSize st / 2) + 1))
                (seqZ (- (kernelSize st / 2)) (2 * (kernelSize st / 2) + 1))).
  intros ks. generalize 0%float. induction ks as [|k ks IH]; intros acc.
  - reflexivity.
  - cbn [map fold_left fst snd]. rewrite IH. reflexivity.
Qed.

(** Every sample reads an element of the component array and a weight of
    the kernel table: the pixel coordinates were clamped into the canvas. *)
Lemma sampleIndices_in_range (width height size x y : Z) :
  0 < width -> 0 < height -> 0 < size -> Z.odd size = true ->
  Forall (fun s => 0 <= fst s < width * height /\ 0 <= snd s < size * size)
    (sampleIndices width height size x y).
Proof.
  intros HW HH Hs Hodd. unfold sampleIndices. apply Forall_map, Forall_forall.
  intros [ky kx] Hk. apply list_elem_of_In, in_prod_iff in Hk.
  rewrite <- !list_elem_of_In, !elem_of_seqZ in Hk. cbn [fst snd].
  apply Z.odd_spec in Hodd as [m Hm].
  assert (Hh : size / 2 = m)
    by (symmetry; apply (Z.div_unique size 2 m 1); lia).
  rewrite Hh in *. unfold clamp.
  split; nia.
Qed.

End Sampling.

Section TensorRun.

Variable Math_exp : float -> float.

Lemma Array_map_run (f : float -> Z -> float) (l : loc) (a : list float)
  (st : page) :
  store st !! l = Some a ->
  Array_map f l st
  = (Ok (fresh (dom (store st))),
     with_store (insert (fresh (dom (store st)))
                   (imap (fun i v => f v (Z.of_nat i)) a)) st).
Proof.
  intros Hl. unfold Array_map, mbind, M_bind, deref, alloc. rewrite Hl.
  reflexivity.
Qed.

Lemma lookup_after_alloc (l : loc) (a b : list float) (st : page) :
  store st !! l = Some a ->
  store (with_store (insert (fresh (dom (store st))) b) st) !! l = Some a.
Proof.
  intros Hl. cbn. rewrite lookup_insert_ne; [exact Hl|].
  intros E. apply (is_fresh (dom (store st))). rewrite E.
  apply elem_of_dom. eauto.
Qed.

Lemma lookup_alloc (b : list float) (st : page) :
  store (with_store (insert (fresh (dom (store st))) b) st)
  !! fresh (dom (store st)) = Some b.
Proof. cbn. apply lookup_insert_eq. Qed.

(** With the gradient field in place and an odd kernel size, the tensor
    stage succeeds and computes [tensorAt]. *)
Lemma structureTensor_run (x y : Z) (st : page) (g : gradient_field)
  (ix iy kernel : list float) :
  gradients st = Some g ->
  store st !! Ix g = Some ix ->
  store st !! Iy g = Some iy ->
  generateGaussianKernel Math_exp (kernelSize st) (kernelSigma st) = Ok kernel ->
  fst (structureTensor Math_exp x y st)
  = Ok (tensorAt (width st) (height st) (kernelSize st) kernel ix iy x y).
Proof.
  intros Hg Hix Hiy Hk. unfold structureTensor.
  unfold mbind at 1. unfold M_bind at 1. unfold get_gradients. rewrite Hg.
  unfold mbind at 1. unfold M_bind at 1.
  rewrite (Array_map_run _ _ ix) by exact Hix.
  set (st1 := with_store _ st).
  assert (Hix1 : store st1 !! Ix g = Some ix) by (apply lookup_after_alloc, Hix).
  assert (Hiy1 : store st1 !! Iy g = Some iy) by (apply lookup_after_alloc, Hiy).
  unfold mbind at 1. unfold M_bind at 1.
  erewrite (applyGaussian_run Math_exp x y _ st1);
    [|apply lookup_alloc|exact Hk].
  unfold mbind at 1. unfold M_bind at 1.
  rewrite (Array_map_run _ _ iy) by exact Hiy1.
  set (st2 := with_store _ st1).
  assert (Hix2 : store st2 !! Ix g = Some ix) by (apply lookup_after_alloc, Hix1).
  assert (Hiy2 : store st2 !! Iy g = Some iy) by (apply lookup_after_alloc, Hiy1).
  unfold mbind at 1. unfold M_bind at 1.
  erewrite (applyGaussian_run Math_exp x y _ st2);
    [|apply lookup_alloc|exact Hk].
  unfold mbind at 1. unfold M_bind at 1. unfold deref at 1. rewrite Hiy2.
  unfold mbind at 1. unfold M_bind at 1.
  rewrite (Array_map_run _ _ ix) by exact Hix2.
  set (st3 := with_store _ st2).
  unfold mbind at 1. unfold M_bind at 1.
  erewrite (applyGaussian_run Math_exp x y _ st3);
    [|apply lookup_alloc|exact Hk].
  reflexivity.
Qed.

End TensorRun.

(** ** Drawing the result *)

Lemma add_drawn_nil (st : page) : add_drawn [] st = st.
Proof. destruct st. unfold add_drawn. cbn. rewrite app_nil_r. reflexivity. Qed.

Lemma add_drawn_app (ops1 ops2 : list canvas_op) (st : page) :
  add_drawn ops2 (add_drawn ops1 st) = add_drawn (ops1 ++ ops2) st.
Proof. unfold add_drawn. cbn. rewrite app_assoc. reflexivity. Qed.

Lemma draw_only_readonly {A} (m : M A) : readonly m -> draw_only m.
Proof. intros Hm st. exists []. rewrite Hm, add_drawn_nil. reflexivity. Qed.

Lemma draw_only_bind {A B} (m : M A) (f : A -> M B) :
  draw_only m -> (forall a, draw_only (f a)) -> draw_only (m ≫= f).
Proof.
  intros Hm Hf st. destruct (Hm st) as [ops1 H1]. unfold mbind, M_bind.
  destruct (m st) as [[a|e] st1]; cbn [snd] in *; subst st1.
  - destruct (Hf a (add_drawn ops1 st)) as [ops2 H2].
    exists (ops1 ++ ops2). rewrite H2. apply add_drawn_app.
  - exists ops1. reflexivity.
Qed.

Lemma draw_only_draw (op : canvas_op) : draw_only (draw op).
Proof. intros st. exists [op]. reflexivity. Qed.

Lemma draw_only_for_M {S} (l : list Z) (body : Z -> S -> M S) (init : S) :
  (forall i s, draw_only (body i s)) -> draw_only (for_M l body init).
Proof.
  intros Hbody. revert init. induction l as [|i l IH]; intros init.
  - apply draw_only_readonly, readonly_ret.
  - cbn [for_M]. apply draw_only_bind; [apply Hbody|]. intros s. apply IH.
Qed.

Lemma draw_only_drawKernel (Math_exp : float -> float) (x y : Z) :
  draw_only (drawKernel Math_exp x y).
Proof.
  unfold drawKernel.
  repeat (apply draw_only_bind;
          [apply draw_only_readonly, readonly_gets|intros ?]).
  apply draw_only_bind;
    [apply draw_only_readonly, readonly_gaussianKernel|intros kernel].
  apply draw_only_for_M. intros ky s. apply draw_only_for_M. intros kx s'.
  apply draw_only_bind;
    [apply draw_only_readonly, readonly_gaussianKernel|intros k].
  apply draw_only_draw.
Qed.

Lemma draw_only_drawArrows (x y : Z) (eigenvectors : list eigenpair) (i : Z)
  (eigenvalues : loc) :
  draw_only (drawArrows x y eigenvectors i eigenvalues).
Proof.
  revert i. induction eigenvectors as [|vec rest IH]; intros i; cbn [drawArrows].
  - apply draw_only_readonly, readonly_ret.
  - apply draw_only_bind; [apply draw_only_readonly, readonly_deref|intros ?].
    apply draw_only_bind; [apply draw_only_draw|intros ?]. apply IH.
Qed.

(** The two arrows of a two-element result, given what the array of
    eigenvalues holds when they are drawn. *)
Lemma drawArrows_two (x y : Z) (e0 e1 : eigenpair) (l : loc)
  (scaled : list float) (st : page) :
  store st !! l = Some scaled ->
  drawArrows x y [e0; e1] 0 l st
  = (Ok tt,
     add_drawn
       [stroke_line x y
          (JS.of_Z x + fst (vector e0) * aget scaled 0)
          (JS.of_Z y + snd (vector e0) * aget scaled 0);
        stroke_line x y
          (JS.of_Z x + fst (vector e1) * aget scaled 1)
          (JS.of_Z y + snd (vector e1) * aget scaled 1)]%float st).
Proof.
  intros Hl. cbn [drawArrows]. unfold mbind, M_bind, deref, draw, modify.
  rewrite Hl. cbn [store with_drawn]. rewrite Hl.
  unfold mret, M_ret. f_equal. unfold with_drawn, add_drawn. cbn.
  rewrite <- app_assoc. reflexivity.
Qed.

(** *** A result whose eigenvalues are 9000 and 10000 *)

Lemma bind_run {A B} (m : M A) (f : A -> M B) (a : A) (st st1 : page) :
  m st = (Ok a, st1) -> (m ≫= f) st = f a st1.
Proof. intros H. unfold mbind, M_bind. rewrite H. reflexivity. Qed.

Lemma Array_sort_run (l : loc) (a : list float) (st : page) :
  store st !! l = Some a ->
  Array_sort l st = (Ok l, with_store (insert l (sorted a)) st).
Proof. intros H. unfold Array_sort. rewrite H. reflexivity. Qed.

Lemma index_toFixed_run (l : loc) (i : Z) (a : list float) (v : float)
  (st : page) :
  store st !! l = Some a -> 0 <= i -> a !! Z.to_nat i = Some v ->
  index_toFixed l i st = (Ok (JS.toFixed v), st).
Proof.
  intros Hl Hi Hv. unfold index_toFixed, mbind, M_bind, deref. rewrite Hl.
  destruct (Z.ltb_spec i 0); [lia|]. rewrite Hv. reflexivity.
Qed.

Lemma showLambdas_ninety_ten (st : page) :
  showLambdas ninety_ten st
  = (Ok (fresh (dom (store st))), ninety_ten_shown st).
Proof.
  unfold showLambdas.
  erewrite bind_run by reflexivity.
  erewrite bind_run by (apply Array_sort_run; apply lookup_insert_eq).
  erewrite bind_run
    by (eapply index_toFixed_run;
        [apply lookup_insert_eq|lia|vm_compute; reflexivity]).
  erewrite bind_run by reflexivity.
  erewrite bind_run by (apply Array_sort_run; apply lookup_insert_eq).
  erewrite bind_run
    by (eapply index_toFixed_run;
        [apply lookup_insert_eq|lia|vm_compute; reflexivity]).
  erewrite bind_run by reflexivity.
  reflexivity.
Qed.

(** ** The entries of the kernel table *)

Lemma list_prod_lookup {A B : Type} (ys : list A) (xs : list B) (i j : nat)
  (a : A) (b : B) :
  ys !! i = Some a -> xs !! j = Some b ->
  list_prod ys xs !! (i * length xs + j)%nat = Some (a, b).
Proof.
  revert i. induction ys as [|y ys IH]; intros i Hi Hj; [inversion Hi|].
  cbn [list_prod]. destruct i as [|i]; cbn in Hi.
  - injection Hi as ->. cbn. rewrite lookup_app_l.
    + rewrite list_lookup_fmap, Hj. reflexivity.
    + rewrite length_map. eapply lookup_lt_Some, Hj.
  - rewrite lookup_app_r; rewrite length_map; [|lia].
    replace (S i * length xs + j - length xs)%nat
      with (i * length xs + j)%nat by lia.
    apply IH; assumption.
Qed.

Section KernelEntries.

Variable Math_exp : float -> float.

Lemma kernel_loop_entries (ys xs : list Z) (weight : Z -> Z -> float)
  (kernel : list float) (sum : float) :
  fst (for_ ys (fun y => for_ xs (fun x '(kernel, sum) =>
         (kernel ++ [weight x y], (sum + weight x y)%float)))
       (kernel, sum))
  = kernel ++ map (fun k => weight (snd k) (fst k)) (list_prod ys xs).
Proof.
  rewrite for_nested. generalize (list_prod ys xs). intros ks.
  revert kernel sum. induction ks as [|k ks IH]; intros kernel sum.
  - cbn. rewrite app_nil_r. reflexivity.
  - cbn [fold_left map]. rewrite IH. rewrite <- app_assoc. reflexivity.
Qed.

Lemma generateGaussianKernel_entries (size : Z) (sigma : float) :
  Z.odd size = true ->
  exists sum,
    generateGaussianKernel Math_exp size sigma
    = Ok (map (fun k => (rawWeight Math_exp size sigma (snd k) (fst k) / sum)%float)
            (list_prod (seqZ 0 size) (seqZ 0 size))).
Proof.
  intros Hodd. unfold generateGaussianKernel. rewrite rem_2_even.
  rewrite <- Z.negb_odd, Hodd. cbn [negb].
  pose proof (kernel_loop_entries (seqZ 0 size) (seqZ 0 size)
                (rawWeight Math_exp size sigma) [] 0%float) as He.
  unfold rawWeight in He at 1 2. cbv zeta in He.
  destruct (for_ _ _ _) as [kernel sum]. cbn [fst app] in He.
  exists sum. rewrite He, map_map. reflexivity.
Qed.

End KernelEntries.

(** ** Rounding in binary64 *)

Lemma digits2_pos_bounds (p : positive) :
  2 ^ (Z.pos (digits2_pos p) - 1) <= Z.pos p < 2 ^ Z.pos (digits2_pos p).
Proof.
  induction p as [p IH|p IH|]; cbn [digits2_pos].
  - rewrite Pos2Z.inj_succ. change (Z.pos p~1) with (2 * Z.pos p + 1).
    replace (Z.succ (Z.pos (digits2_pos p)) - 1)
      with (Z.succ (Z.pos (digits2_pos p) - 1)) by lia.
    rewrite !Z.pow_succ_r by lia.
    generalize dependent (2 ^ (Z.pos (digits2_pos p) - 1)).
    generalize dependent (2 ^ Z.pos (digits2_pos p)). lia.
  - rewrite Pos2Z.inj_succ. change (Z.pos p~0) with (2 * Z.pos p).
    replace (Z.succ (Z.pos (digits2_pos p)) - 1)
      with (Z.succ (Z.pos (digits2_pos p) - 1)) by lia.
    rewrite !Z.pow_succ_r by lia.
    generalize dependent (2 ^ (Z.pos (digits2_pos p) - 1)).
    generalize dependent (2 ^ Z.pos (digits2_pos p)). lia.
  - cbn. lia.
Qed.

Lemma Zdigits2_bounds (m : Z) :
  0 < m -> 2 ^ (Zdigits2 m - 1) <= m < 2 ^ Zdigits2 m.
Proof.
  destruct m as [|p|p]; try lia. intros _. apply digits2_pos_bounds.
Qed.

Lemma Zdigits2_nonneg (m : Z) : 0 <= Zdigits2 m.
Proof. destruct m; cbn; lia. Qed.

Lemma Zdigits2_upper (m : Z) : 0 <= m -> m < 2 ^ Zdigits2 m.
Proof.
  intros H. destruct (Z.eq_dec m 0) as [->|NE]; [cbn; lia|].
  apply Zdigits2_bounds. lia.
Qed.

(** [m < 2^n] bounds the number of digits. *)
Lemma Zdigits2_le (m n : Z) : 0 <= m -> 0 <= n -> m < 2 ^ n -> Zdigits2 m <= n.
Proof.
  intros Hm Hn H. destruct (Z.eq_dec m 0) as [->|NE]; [cbn; lia|].
  destruct (Zdigits2_bounds m ltac:(lia)) as [Hlo _].
  destruct (Z.le_gt_cases (Zdigits2 m) n) as [Hle|Hgt]; [exact Hle|].
  assert (2 ^ n <= 2 ^ (Zdigits2 m - 1)) by (apply Z.pow_le_mono_r; lia).
  lia.
Qed.

Lemma shr_1_m (r : shr_record) : 0 <= shr_m r -> shr_m (shr_1 r) = shr_m r / 2.
Proof.
  destruct r as [m r s]. cbn [shr_m]. intros Hm.
  destruct m as [|[p|p|]|p]; cbn [shr_1 shr_m].
  - reflexivity.
  - change (Z.pos p~1) with (2 * Z.pos p + 1).
    apply (Z.div_unique _ 2 _ 1); lia.
  - change (Z.pos p~0) with (2 * Z.pos p).
    apply (Z.div_unique _ 2 _ 0); lia.
  - reflexivity.
  - lia.
Qed.

Lemma shr_iter_m (n : positive) (r : shr_record) :
  0 <= shr_m r ->
  shr_m (SpecFloat.iter_pos shr_1 n r) = shr_m r / 2 ^ Z.pos n.
Proof.
  revert r. induction n as [n IH|n IH|]; intros r Hr; cbn [SpecFloat.iter_pos].
  - assert (H1 : 0 <= shr_m (shr_1 r))
      by (rewrite shr_1_m by exact Hr; apply Z.div_pos; lia).
    assert (H2 : 0 <= shr_m (SpecFloat.iter_pos shr_1 n (shr_1 r)))
      by (rewrite IH by exact H1; apply Z.div_pos; lia).
    rewrite IH by exact H2. rewrite IH by exact H1. rewrite shr_1_m by exact Hr.
    rewrite !Z.div_div by lia. f_equal.
    change (Z.pos n~1) with (2 * Z.pos n + 1).
    replace (2 * Z.pos n + 1) with (1 + Z.pos n + Z.pos n) by lia.
    rewrite !Z.pow_add_r by lia. lia.
  - assert (H2 : 0 <= shr_m (SpecFloat.iter_pos shr_1 n r))
      by (rewrite IH by exact Hr; apply Z.div_pos; lia).
    rewrite IH by exact H2. rewrite IH by exact Hr.
    rewrite !Z.div_div by lia. f_equal.
    change (Z.pos n~0) with (2 * Z.pos n).
    replace (2 * Z.pos n) with (Z.pos n + Z.pos n) by lia.
    rewrite !Z.pow_add_r by lia. lia.
  - rewrite shr_1_m by exact Hr. reflexivity.
Qed.

Lemma shr_record_of_loc_m (m : Z) (l : location) :
  shr_m (shr_record_of_loc m l) = m.
Proof. destruct l as [|[]]; reflexivity. Qed.

Lemma loc_of_shr_record_of_loc (m : Z) (l : location) :
  loc_of_shr_record (shr_record_of_loc m l) = l.
Proof. destruct l as [|[]]; reflexivity. Qed.

Lemma round_nearest_even_cases (m : Z) (l : location) :
  m <= round_nearest_even m l <= m + 1.
Proof.
  destruct l as [|[]]; cbn [round_nearest_even]; try lia.
  destruct (Z.even m); lia.
Qed.

(** The second shift of [binary_round_aux]: it happens only when the
    rounding carried into bit 53. *)
Lemma second_shift (m E : Z) :
  0 <= m <= 2 ^ 53 -> SpecFloat.emin prec emax <= E <= 970 ->
  (let '(mrs, e) := shr_fexp prec emax m E loc_Exact in
   match shr_m mrs with
   | Z0 => S754_zero false
   | Zpos p =>
       if e <=? emax - prec then S754_finite false p e
       else S754_infinity false
   | Zneg _ => S754_nan
   end) = normal m E.
Proof.
  intros Hm HE. unfold normal.
  destruct (Z.eqb_spec m (2 ^ 53)) as [->|NE].
  - unfold shr_fexp. change (Zdigits2 (2 ^ 53)) with 54.
    unfold fexp, SpecFloat.emin, prec, emax in *.
    replace (Z.max (54 + E - 53) (3 - 1024 - 53) - E) with 1 by lia.
    cbn [shr shr_record_of_loc SpecFloat.iter_pos].
    change (shr_m (shr_1 {| shr_m := 2 ^ 53; shr_r := false; shr_s := false |}))
      with 4503599627370496.
    destruct (Z.leb_spec (E + 1) (1024 - 53)); [reflexivity|lia].
  - assert (Hd : Zdigits2 m <= 53) by (apply Zdigits2_le; lia).
    unfold shr_fexp, shr.
    assert (Hk : fexp prec emax (Zdigits2 m + E) - E <= 0)
      by (unfold fexp, SpecFloat.emin, prec, emax in *; lia).
    destruct (fexp prec emax (Zdigits2 m + E) - E) as [|k|k]; try lia;
      cbn [shr_record_of_loc shr_m]; unfold num; destruct m as [|p|p];
      try reflexivity; try lia;
      unfold emax, prec;
      (destruct (Z.leb_spec E (1024 - 53)); [reflexivity|lia]).
Qed.

(** The shape of every rounding of a non-negative mantissa: the mantissa
    is cut to the exponent of the format, moved up by at most one, and the
    result holds it. *)
Lemma binary_round_aux_shape (m e : Z) (l : location) :
  0 <= m -> Zdigits2 m + e <= 1023 -> e <= 970 ->
  let E := Z.max e (fexp prec emax (Zdigits2 m + e)) in
  exists m2,
    m / 2 ^ (E - e) <= m2 <= m / 2 ^ (E - e) + 1
    /\ (l = loc_Exact -> E = e -> m2 = m)
    /\ binary_round_aux prec emax false m e l = normal m2 E.
Proof.
  intros Hm Hd He E.
  assert (Hdn := Zdigits2_nonneg m).
  assert (Hup := Zdigits2_upper m Hm).
  unfold binary_round_aux.
  unfold shr_fexp at 1. unfold shr.
  destruct (fexp prec emax (Zdigits2 m + e) - e) as [|k|k] eqn:Hk.
  - (* no shift *)
    assert (HE : E = e) by (unfold E; lia).
    rewrite shr_record_of_loc_m, loc_of_shr_record_of_loc.
    exists (round_nearest_even m l).
    rewrite HE, Z.sub_diag, Z.pow_0_r, Z.div_1_r.
    split; [apply round_nearest_even_cases|].
    split; [intros -> _; reflexivity|].
    apply second_shift.
    + pose proof (round_nearest_even_cases m l).
      assert (Zdigits2 m <= 53) by (unfold fexp, SpecFloat.emin, prec, emax in *; lia).
      assert (2 ^ Zdigits2 m <= 2 ^ 53) by (apply Z.pow_le_mono_r; lia).
      lia.
    + unfold fexp, SpecFloat.emin, prec, emax in *. lia.
  - (* shift by k *)
    assert (HE : E = e + Z.pos k) by (unfold E; lia).
    rewrite shr_iter_m by (rewrite shr_record_of_loc_m; exact Hm).
    rewrite shr_record_of_loc_m.
    exists (round_nearest_even (m / 2 ^ Z.pos k)
              (loc_of_shr_record
                 (SpecFloat.iter_pos shr_1 k (shr_record_of_loc m l)))).
    replace (E - e) with (Z.pos k) by lia. rewrite <- HE.
    split; [apply round_nearest_even_cases|].
    split; [intros _ HEe; lia|].
    apply second_shift.
    + match goal with
      | |- context [round_nearest_even ?a ?b] =>
          pose proof (round_nearest_even_cases a b) as Hr
      end.
      assert (0 <= m / 2 ^ Z.pos k) by (apply Z.div_pos; lia).
      assert (m / 2 ^ Z.pos k < 2 ^ 53).
      { apply Z.div_lt_upper_bound; [lia|].
        rewrite <- Z.pow_add_r by lia.
        assert (2 ^ Zdigits2 m <= 2 ^ (Z.pos k + 53)).
        { apply Z.pow_le_mono_r; [lia|].
          unfold fexp, SpecFloat.emin, prec, emax in *. lia. }
        lia. }
      lia.
    + unfold fexp, SpecFloat.emin, prec, emax in *. lia.
  - (* the exponent is above the format's: no shift *)
    assert (HE : E = e) by (unfold E; lia).
    rewrite shr_record_of_loc_m, loc_of_shr_record_of_loc.
    exists (round_nearest_even m l).
    rewrite HE, Z.sub_diag, Z.pow_0_r, Z.div_1_r.
    split; [apply round_nearest_even_cases|].
    split; [intros -> _; reflexivity|].
    apply second_shift.
    + pose proof (round_nearest_even_cases m l).
      assert (Zdigits2 m <= 52) by (unfold fexp, SpecFloat.emin, prec, emax in *; lia).
      assert (2 ^ Zdigits2 m <= 2 ^ 52) by (apply Z.pow_le_mono_r; lia).
      lia.
    + unfold fexp, SpecFloat.emin, prec, emax in *. lia.
Qed.

(** ** The loops of the kernel generator *)

Lemma kernel_loop_run (ys xs : list Z) (weight : Z -> Z -> float)
  (kernel : list float) (sum : float) :
  for_ ys (fun y => for_ xs (fun x '(kernel, sum) =>
         (kernel ++ [weight x y], (sum + weight x y)%float)))
       (kernel, sum)
  = (kernel ++ map (fun k => weight (snd k) (fst k)) (list_prod ys xs),
     fold_left (fun s k => (s + weight (snd k) (fst k))%float)
       (list_prod ys xs) sum).
Proof.
  rewrite for_nested. generalize (list_prod ys xs). intros ks.
  revert kernel sum. induction ks as [|k ks IH]; intros kernel sum.
  - cbn. rewrite app_nil_r. reflexivity.
  - cbn [fold_left map]. rewrite IH. rewrite <- app_assoc. reflexivity.
Qed.

Lemma generateGaussianKernel_run (Math_exp : float -> float) (size : Z)
  (sigma : float) :
  Z.odd size = true ->
  let ks := list_prod (seqZ 0 size) (seqZ 0 size) in
  let w := fun k : Z * Z => rawWeight Math_exp size sigma (snd k) (fst k) in
  generateGaussianKernel Math_exp size sigma
  = Ok (map (fun k => (w k / fold_left (fun s k => s + w k) ks 0)%float) ks).
Proof.
  intros Hodd ks w. unfold generateGaussianKernel. rewrite rem_2_even.
  rewrite <- Z.negb_odd, Hodd. cbn [negb].
  pose proof (kernel_loop_run (seqZ 0 size) (seqZ 0 size)
                (rawWeight Math_exp size sigma) [] 0%float) as He.
  unfold rawWeight in He at 1 2. cbv zeta in He.
  rewrite He. cbn [app]. rewrite map_map. reflexivity.
Qed.

(** ** Rounding errors as real numbers *)

Section Binary64Reals.

Local Open Scope R_scope.

Lemma pow2_pos (e : Z) : 0 < pow2 e.
Proof. apply powerRZ_lt. lra. Qed.

Lemma pow2_add (a b : Z) : pow2 (a + b) = pow2 a * pow2 b.
Proof. apply powerRZ_add. lra. Qed.

Lemma pow2_IZR (n : Z) : (0 <= n)%Z -> IZR (2 ^ n) = pow2 n.
Proof.
  intros Hn. destruct n as [|p|p]; [reflexivity| |lia].
  change (2 ^ Z.pos p)%Z with (Z.pow_pos 2 p). apply Zpower_pos_powerRZ.
Qed.

Lemma pow2_ge_1 (n : Z) : (0 <= n)%Z -> 1 <= pow2 n.
Proof.
  intros Hn. rewrite <- pow2_IZR by exact Hn. apply IZR_le.
  pose proof (Z.pow_pos_nonneg 2 n ltac:(lia) Hn). lia.
Qed.

Lemma pow2_le (a b : Z) : (a <= b)%Z -> pow2 a <= pow2 b.
Proof.
  intros H. replace b with (a + (b - a))%Z by lia. rewrite pow2_add.
  pose proof (pow2_pos a). pose proof (pow2_ge_1 (b - a) ltac:(lia)). nra.
Qed.

Lemma pow2_1 : pow2 1 = 2.
Proof. exact (powerRZ_1 2). Qed.

Lemma pow2_lt (a b : Z) : (a < b)%Z -> pow2 a < pow2 b.
Proof.
  intros H. replace b with (a + 1 + (b - a - 1))%Z by lia.
  rewrite !pow2_add.
  pose proof (pow2_pos a) as Ha.
  pose proof (pow2_ge_1 (b - a - 1) ltac:(lia)) as Hb.
  rewrite pow2_1.
  assert (pow2 a * 1 <= pow2 a * pow2 (b - a - 1))
    by (apply Rmult_le_compat_l; lra).
  lra.
Qed.

Lemma pow2_le_inv (a b : Z) : pow2 a <= pow2 b -> (a <= b)%Z.
Proof.
  intros H. destruct (Z.le_gt_cases a b) as [Hle|Hgt]; [exact Hle|].
  pose proof (pow2_lt b a ltac:(lia)). lra.
Qed.

Lemma pow2_lt_inv (a b : Z) : pow2 a < pow2 b -> (a < b)%Z.
Proof.
  intros H. destruct (Z.lt_ge_cases a b) as [Hlt|Hge]; [exact Hlt|].
  pose proof (pow2_le b a Hge). lra.
Qed.

Lemma eps_pow2 : eps = pow2 (-52).
Proof.
  unfold eps. change (-52)%Z with (- (52))%Z. unfold pow2.
  rewrite powerRZ_neg'. fold (pow2 52). rewrite <- pow2_IZR by lia.
  reflexivity.
Qed.

Lemma pow2_neg (n : Z) : pow2 (- n) = / pow2 n.
Proof. apply powerRZ_neg'. Qed.

Lemma SF2R_num (m e : Z) : (0 <= m)%Z -> SF2R (num m e) = IZR m * pow2 e.
Proof. destruct m; cbn; intros; try lra; lia. Qed.

Lemma fin0_num (m e : Z) : (0 <= m)%Z -> fin0 (num m e).
Proof. destruct m; cbn; intros; try exact I; lia. Qed.

Lemma SF2R_normal (m e : Z) :
  (0 <= m)%Z -> SF2R (normal m e) = IZR m * pow2 e.
Proof.
  intros Hm. unfold normal. destruct (Z.eqb_spec m (2 ^ 53)) as [->|NE].
  - cbn [SF2R]. rewrite pow2_add, pow2_1.
    change (2 ^ 53)%Z with 9007199254740992%Z. lra.
  - apply SF2R_num, Hm.
Qed.

Lemma fin0_normal (m e : Z) : (0 <= m)%Z -> fin0 (normal m e).
Proof.
  intros Hm. unfold normal. destruct (m =? 2 ^ 53)%Z; [exact I|].
  apply fin0_num, Hm.
Qed.

Lemma Zdigits2_pow2 (m e : Z) :
  (0 < m)%Z -> pow2 (Zdigits2 m - 1 + e) <= IZR m * pow2 e.
Proof.
  intros Hm. rewrite pow2_add.
  destruct (Zdigits2_bounds m Hm) as [Hlo _].
  assert (0 < Zdigits2 m)%Z by (destruct m; cbn; lia).
  rewrite <- pow2_IZR by lia.
  apply Rmult_le_compat_r; [apply Rlt_le, pow2_pos|]. apply IZR_le, Hlo.
Qed.

(** One rounding of the mantissa [m] at the exponent [e], when the value
    it stands for is [t]: exactly [m * 2^e], or somewhere up to
    [(m + 1) * 2^e] when the location says that digits were cut. *)
Lemma binary_round_aux_near (m e : Z) (l : location) (t : R) :
  (0 <= m)%Z -> (e <= 970)%Z -> t <= pow2 900 ->
  (l = loc_Exact /\ t = IZR m * pow2 e)
  \/ ((e <= fexp prec emax (Zdigits2 m + e))%Z
      /\ IZR m * pow2 e <= t <= (IZR m + 1) * pow2 e) ->
  near t (binary_round_aux prec emax false m e l).
Proof.
  intros Hm He Ht Hcase.
  pose proof (pow2_pos e) as Hpe.
  pose proof (IZR_le 0%Z m Hm) as Hm0.
  assert (Hlo : IZR m * pow2 e <= t <= (IZR m + 1) * pow2 e).
  { destruct Hcase as [[_ ->]|[_ H]]; [|exact H]. lra. }
  assert (Ht0 : 0 <= t) by nra.
  assert (Hd : (Zdigits2 m + e <= 1023)%Z).
  { destruct (Z.eq_dec m 0%Z) as [->|NE]; [cbn; lia|].
    pose proof (Zdigits2_pow2 m e ltac:(lia)) as H.
    assert (H' : pow2 (Zdigits2 m - 1 + e) <= pow2 900) by lra.
    apply pow2_le_inv in H'. lia. }
  destruct (binary_round_aux_shape m e l Hm Hd He) as (m2 & Hm2 & Hex & ->).
  set (F := fexp prec emax (Zdigits2 m + e)) in *.
  set (E := Z.max e F) in *.
  assert (Hk : (0 <= E - e)%Z) by (unfold E; lia).
  assert (Hp : (0 < 2 ^ (E - e))%Z) by (apply Z.pow_pos_nonneg; lia).
  assert (Hm1 : (0 <= m / 2 ^ (E - e))%Z) by (apply Z.div_pos; lia).
  assert (Hm20 : (0 <= m2)%Z) by lia.
  split; [apply fin0_normal, Hm20|].
  rewrite SF2R_normal by exact Hm20.
  pose proof (pow2_pos (-1074)) as Heta. fold eta in Heta.
  assert (Heps : 0 < eps) by (unfold eps; lra).
  assert (Hsplit : (l = loc_Exact /\ E = e /\ t = IZR m * pow2 e) \/ E = F).
  { destruct (Z.eq_dec E e) as [HEe|HEe].
    - destruct Hcase as [[-> ->]|[HF _]]; [left; auto|].
      right. unfold E in *. lia.
    - right. unfold E in *. lia. }
  destruct Hsplit as [(-> & HEe & ->)|HEF].
  - rewrite (Hex eq_refl HEe), HEe.
    replace (IZR m * pow2 e - IZR m * pow2 e) with 0 by lra.
    rewrite Rabs_R0. nra.
  - (* both the result and [t] lie between two neighbours at [E] *)
    set (m1 := (m / 2 ^ (E - e))%Z) in *.
    assert (HpE : pow2 E = IZR (2 ^ (E - e)) * pow2 e).
    { rewrite pow2_IZR by exact Hk. rewrite <- pow2_add. f_equal. lia. }
    assert (Hz1 : (2 ^ (E - e) * m1 <= m)%Z)
      by (apply Z.mul_div_le; exact Hp).
    assert (Hz2 : (m + 1 <= 2 ^ (E - e) * (m1 + 1))%Z).
    { pose proof (Z.mul_succ_div_gt m (2 ^ (E - e)) Hp) as H.
      fold m1 in H. lia. }
    apply IZR_le in Hz1, Hz2.
    rewrite mult_IZR in Hz1. rewrite mult_IZR, !plus_IZR in Hz2.
    assert (Hr1 : IZR m1 <= IZR m2 <= IZR m1 + 1).
    { destruct Hm2 as [Ha Hb]. apply IZR_le in Ha, Hb.
      rewrite plus_IZR in Hb. lra. }
    pose proof (pow2_pos E) as HE0.
    assert (Ht1 : IZR m1 * pow2 E <= t).
    { rewrite HpE.
      apply Rle_trans with (IZR m * pow2 e); [|lra].
      rewrite <- Rmult_assoc. apply Rmult_le_compat_r; lra. }
    assert (Ht2 : t <= (IZR m1 + 1) * pow2 E).
    { rewrite HpE.
      apply Rle_trans with ((IZR m + 1) * pow2 e); [lra|].
      rewrite <- Rmult_assoc. apply Rmult_le_compat_r; lra. }
    assert (Herr : Rabs (IZR m2 * pow2 E - t) <= pow2 E).
    { apply Rabs_le. nra. }
    apply Rle_trans with (pow2 E); [exact Herr|].
    (* one unit at [E] is small *)
    unfold F, fexp, SpecFloat.emin, prec, emax in HEF.
    destruct (Z.max_spec (Zdigits2 m + e - 53) (3 - 1024 - 53))
      as [[_ Hmax]|[Hge Hmax]]; rewrite Hmax in HEF.
    + rewrite HEF. change (3 - 1024 - 53)%Z with (-1074)%Z. fold eta. nra.
    + assert (Hmpos : (0 < m)%Z).
      { destruct (Z.eq_dec m 0%Z) as [Hz|NE]; [|lia].
        rewrite Hz in HEF. cbn in HEF. unfold E in *. lia. }
      pose proof (Zdigits2_pow2 m e Hmpos) as Hdig.
      rewrite HEF.
      replace (Zdigits2 m + e - 53)%Z with (Zdigits2 m - 1 + e + -52)%Z by lia.
      rewrite pow2_add, <- eps_pow2.
      pose proof (pow2_pos (Zdigits2 m - 1 + e)). nra.
Qed.

(** ** The three operations of the kernel generator *)

Lemma iter_xO_Z (m d : positive) :
  Z.pos (Pos.iter xO m d) = (Z.pos m * 2 ^ Z.pos d)%Z.
Proof.
  induction d as [|d IH] using Pos.peano_ind.
  - change (Pos.iter xO m 1) with (xO m). rewrite Z.pow_1_r. lia.
  - rewrite Pos.iter_succ, Pos2Z.inj_succ, Z.pow_succ_r by lia.
    change (Z.pos (xO (Pos.iter xO m d))) with (2 * Z.pos (Pos.iter xO m d))%Z.
    rewrite IH. lia.
Qed.

(** Aligning a mantissa to a lower exponent keeps the value. *)
Lemma shl_align_R (m : positive) (e e' : Z) :
  (e' <= e)%Z ->
  snd (shl_align m e e') = e'
  /\ IZR (Z.pos (fst (shl_align m e e'))) * pow2 e' = IZR (Z.pos m) * pow2 e.
Proof.
  intros H. unfold shl_align.
  destruct (e' - e)%Z as [|d|d] eqn:Hd; try lia.
  - assert (e' = e) by lia. subst e'. split; reflexivity.
  - cbn [fst snd]. split; [reflexivity|].
    rewrite iter_xO_Z, mult_IZR, pow2_IZR by lia.
    rewrite Rmult_assoc, <- pow2_add. do 2 f_equal. lia.
Qed.

(** Aligning to any exponent keeps the value and does not raise the
    exponent. *)
Lemma shl_align_any (m : positive) (e e' : Z) :
  (snd (shl_align m e e') <= e)%Z
  /\ IZR (Z.pos (fst (shl_align m e e'))) * pow2 (snd (shl_align m e e'))
     = IZR (Z.pos m) * pow2 e.
Proof.
  destruct (Z.le_gt_cases e' e) as [H|H].
  - destruct (shl_align_R m e e' H) as [-> Hv]. split; [exact H|exact Hv].
  - unfold shl_align. destruct (e' - e)%Z as [|d|d] eqn:Hd; try lia;
      cbn [fst snd]; split; try reflexivity; lia.
Qed.

Lemma SF2R_pos (m : positive) (e : Z) :
  pow2 e <= SF2R (S754_finite false m e).
Proof.
  cbn [SF2R]. pose proof (pow2_pos e).
  assert (1 <= IZR (Z.pos m)) by (apply IZR_le; lia). nra.
Qed.

Lemma near_zero (s : bool) : near 0 (S754_zero s).
Proof.
  split; [exact I|]. cbn [SF2R]. rewrite Rminus_0_r, Rabs_R0.
  pose proof (pow2_pos (-1074)). unfold eta. lra.
Qed.

Lemma near_exact (x : spec_float) : fin0 x -> 0 <= SF2R x -> near (SF2R x) x.
Proof.
  intros Hx H0. split; [exact Hx|].
  replace (SF2R x - SF2R x) with 0 by lra. rewrite Rabs_R0.
  pose proof (pow2_pos (-1074)). unfold eta, eps. nra.
Qed.

Lemma fin0_nonneg (x : spec_float) : fin0 x -> 0 <= SF2R x.
Proof.
  destruct x as [s|s| |[] m e]; cbn; intros H; try lra; try contradiction.
  pose proof (pow2_pos e). assert (0 <= IZR (Z.pos m)) by (apply IZR_le; lia).
  nra.
Qed.

Lemma SFmul_near (x y : spec_float) :
  fin0 x -> fin0 y -> SF2R x * SF2R y <= pow2 900 ->
  near (SF2R x * SF2R y) (SFmul prec emax x y).
Proof.
  intros Hx Hy Ht.
  destruct x as [sx|sx| |[] mx ex]; try contradiction;
    destruct y as [sy|sy| |[] my ey]; try contradiction;
    cbn [SFmul SF2R]; rewrite ?Rmult_0_l, ?Rmult_0_r; try apply near_zero.
  cbn [xorb]. cbn [SF2R] in Ht.
  pose proof (pow2_pos ex). pose proof (pow2_pos ey).
  assert (H1x : 1 <= IZR (Z.pos mx)) by (apply IZR_le; lia).
  assert (H1y : 1 <= IZR (Z.pos my)) by (apply IZR_le; lia).
  assert (Hv : IZR (Z.pos (mx * my)) * pow2 (ex + ey)
               = IZR (Z.pos mx) * pow2 ex * (IZR (Z.pos my) * pow2 ey)).
  { rewrite Pos2Z.inj_mul, mult_IZR, pow2_add. ring. }
  apply binary_round_aux_near.
  - lia.
  - assert (Hle : pow2 (ex + ey) <= pow2 900).
    { rewrite pow2_add.
      apply Rle_trans
        with (IZR (Z.pos mx) * pow2 ex * (IZR (Z.pos my) * pow2 ey));
        [|exact Ht].
      apply Rmult_le_compat; nra. }
    apply pow2_le_inv in Hle. lia.
  - exact Ht.
  - left. split; [reflexivity|]. symmetry. exact Hv.
Qed.

Lemma SFadd_near (x y : spec_float) :
  fin0 x -> fin0 y -> SF2R x + SF2R y <= pow2 900 ->
  near (SF2R x + SF2R y) (SFadd prec emax x y).
Proof.
  intros Hx Hy Ht.
  destruct x as [sx|sx| |[] mx ex]; try contradiction;
    destruct y as [sy|sy| |[] my ey]; try contradiction.
  - cbn [SF2R]. rewrite Rplus_0_l.
    destruct sx, sy; apply near_zero.
  - cbn [SFadd]. rewrite Rplus_0_l. apply near_exact; [exact I|].
    apply fin0_nonneg. exact I.
  - cbn [SFadd]. rewrite Rplus_0_r. apply near_exact; [exact I|].
    apply fin0_nonneg. exact I.
  - cbn [SFadd cond_Zopp]. cbn [SF2R] in *.
    destruct (shl_align_R mx ex (Z.min ex ey) ltac:(lia)) as [_ Hvx].
    destruct (shl_align_R my ey (Z.min ex ey) ltac:(lia)) as [_ Hvy].
    set (ax := fst (shl_align mx ex (Z.min ex ey))) in *.
    set (ay := fst (shl_align my ey (Z.min ex ey))) in *.
    change (Z.pos ax + Z.pos ay)%Z with (Z.pos (ax + ay)).
    cbn [binary_normalize]. unfold binary_round.
    set (F := fexp prec emax (Z.pos (digits2_pos (ax + ay)) + Z.min ex ey)).
    destruct (shl_align_any (ax + ay) (Z.min ex ey) F) as [Hle Hv].
    destruct (shl_align (ax + ay) (Z.min ex ey) F) as [mz ez].
    cbn [fst snd] in Hle, Hv.
    assert (Hsum : IZR (Z.pos mz) * pow2 ez
                   = IZR (Z.pos mx) * pow2 ex + IZR (Z.pos my) * pow2 ey).
    { rewrite Hv, Pos2Z.inj_add, plus_IZR. lra. }
    pose proof (SF2R_pos mx ex) as Hpx. cbn [SF2R] in Hpx.
    pose proof (fin0_nonneg (S754_finite false my ey) I) as Hpy.
    cbn [SF2R] in Hpy.
    apply binary_round_aux_near.
    + lia.
    + assert (H : pow2 ex <= pow2 900) by lra.
      apply pow2_le_inv in H. lia.
    + exact Ht.
    + left. split; [reflexivity|]. symmetry. exact Hsum.
Qed.

Lemma Zdigits2_ge (q n : Z) : (0 <= n)%Z -> (2 ^ n <= q)%Z -> (n + 1 <= Zdigits2 q)%Z.
Proof.
  intros Hn H.
  assert (Hq : (0 < q)%Z) by (pose proof (Z.pow_pos_nonneg 2 n); lia).
  destruct (Zdigits2_bounds q Hq) as [_ Hup].
  destruct (Z.le_gt_cases (n + 1) (Zdigits2 q)) as [Hle|Hgt]; [exact Hle|].
  assert (2 ^ Zdigits2 q <= 2 ^ n)%Z
    by (apply Z.pow_le_mono_r; pose proof (Zdigits2_nonneg q); lia).
  lia.
Qed.

Lemma SFdiv_near (x : spec_float) (my : positive) (ey : Z) :
  fin0 x ->
  SF2R x / SF2R (S754_finite false my ey) <= pow2 900 ->
  near (SF2R x / SF2R (S754_finite false my ey))
    (SFdiv prec emax x (S754_finite false my ey)).
Proof.
  intros Hx Ht.
  pose proof (pow2_pos ey) as Hpy.
  assert (H1y : 1 <= IZR (Z.pos my)) by (apply IZR_le; lia).
  assert (Hy : 0 < SF2R (S754_finite false my ey)) by (cbn [SF2R]; nra).
  destruct x as [sx|sx| |[] mx ex]; try contradiction.
  - cbn [SFdiv]. replace (SF2R (S754_zero sx) / _) with 0
      by (cbn [SF2R]; unfold Rdiv; lra).
    apply near_zero.
  - cbn [SFdiv xorb]. unfold SFdiv_core_binary.
    set (d1 := Zdigits2 (Z.pos mx)). set (d2 := Zdigits2 (Z.pos my)).
    set (e' := Z.min (fexp prec emax (d1 + ex - (d2 + ey))) (ex - ey)).
    set (s := (ex - ey - e')%Z).
    assert (Hs : (0 <= s)%Z) by (unfold s, e'; lia).
    set (m' := match s with
               | Z0 => Z.pos mx
               | Zpos _ => Z.shiftl (Z.pos mx) s
               | Zneg _ => 0%Z
               end).
    assert (Hm' : m' = (Z.pos mx * 2 ^ s)%Z).
    { unfold m'. destruct s as [|p|p] eqn:Hsp; try lia.
      apply Z.shiftl_mul_pow2. lia. }
    clearbody m'.
    destruct (Z.div_eucl m' (Z.pos my)) as [q r] eqn:Hdiv.
    assert (Hq : q = (m' / Z.pos my)%Z) by (unfold Z.div; rewrite Hdiv; reflexivity).
    assert (Hps : (0 < 2 ^ s)%Z) by (apply Z.pow_pos_nonneg; lia).
    assert (Hm'0 : (0 <= m')%Z) by nia.
    assert (Hq0 : (0 <= q)%Z) by (rewrite Hq; apply Z.div_pos; lia).
    assert (Hq1 : (Z.pos my * q <= m')%Z)
      by (rewrite Hq; apply Z.mul_div_le; lia).
    assert (Hq2 : (m' < Z.pos my * (q + 1))%Z).
    { rewrite Hq. pose proof (Z.mul_succ_div_gt m' (Z.pos my) ltac:(lia)). lia. }
    (* the exact quotient, in units of 2^e' *)
    pose proof (pow2_pos ex) as Hpx. pose proof (pow2_pos e') as Hpe'.
    assert (Hval : SF2R (S754_finite false mx ex) / SF2R (S754_finite false my ey)
                   = IZR m' / IZR (Z.pos my) * pow2 e').
    { cbn [SF2R]. rewrite Hm', mult_IZR, pow2_IZR by exact Hs.
      replace ex with (s + e' + ey)%Z at 1 by (unfold s; lia).
      rewrite !pow2_add. field. lra. }
    rewrite Hval in *.
    assert (Hqt : IZR q * pow2 e' <= IZR m' / IZR (Z.pos my) * pow2 e'
                  <= (IZR q + 1) * pow2 e').
    { apply IZR_le in Hq1. apply IZR_lt in Hq2.
      rewrite mult_IZR in Hq1. rewrite mult_IZR, plus_IZR in Hq2.
      assert (Hlo : IZR q <= IZR m' / IZR (Z.pos my)).
      { apply Rmult_le_reg_l with (IZR (Z.pos my)); [lra|].
        replace (IZR (Z.pos my) * (IZR m' / IZR (Z.pos my))) with (IZR m')
          by (field; lra).
        exact Hq1. }
      assert (Hhi : IZR m' / IZR (Z.pos my) <= IZR q + 1).
      { apply Rmult_le_reg_l with (IZR (Z.pos my)); [lra|].
        replace (IZR (Z.pos my) * (IZR m' / IZR (Z.pos my))) with (IZR m')
          by (field; lra).
        lra. }
      split; apply Rmult_le_compat_r; lra. }
    (* sizes *)
    destruct (Zdigits2_bounds (Z.pos mx) ltac:(lia)) as [Hx1 Hx2].
    destruct (Zdigits2_bounds (Z.pos my) ltac:(lia)) as [Hy1 Hy2].
    fold d1 in Hx1, Hx2. fold d2 in Hy1, Hy2.
    assert (Hd1 : (0 < d1)%Z) by (unfold d1; cbn; lia).
    assert (Hd2 : (0 < d2)%Z) by (unfold d2; cbn; lia).
    assert (Hmag : (d1 + ex - (d2 + ey) <= 901)%Z).
    { assert (H : pow2 (d1 - 1 + ex - (d2 + ey)) <= pow2 900).
      { apply Rle_trans with (IZR m' / IZR (Z.pos my) * pow2 e'); [|exact Ht].
        rewrite <- Hval. cbn [SF2R].
        replace (d1 - 1 + ex - (d2 + ey))%Z
          with ((d1 - 1) + ex + - (d2 + ey))%Z by lia.
        rewrite !pow2_add, pow2_neg, pow2_add.
        assert (Hx1' : pow2 (d1 - 1) <= IZR (Z.pos mx))
          by (rewrite <- pow2_IZR by lia; apply IZR_le, Hx1).
        assert (Hy2' : IZR (Z.pos my) <= pow2 d2)
          by (rewrite <- pow2_IZR by lia; apply IZR_le; lia).
        pose proof (pow2_pos (d1 - 1)). pose proof (pow2_pos d2).
        unfold Rdiv.
        apply Rmult_le_compat.
        - apply Rmult_le_pos; lra.
        - apply Rlt_le, Rinv_0_lt_compat. apply Rmult_lt_0_compat; lra.
        - apply Rmult_le_compat_r; lra.
        - apply Rinv_le_contravar; [nra|].
          apply Rmult_le_compat_r; lra. }
      apply pow2_le_inv in H. lia. }
    apply binary_round_aux_near.
    + exact Hq0.
    + unfold e', fexp, SpecFloat.emin, prec, emax. lia.
    + exact Ht.
    + right. split; [|exact Hqt].
      (* the quotient has 53 digits unless the exponent is the lowest *)
      unfold fexp, SpecFloat.emin, prec, emax.
      destruct (Z.le_gt_cases e' (3 - 1024 - 53)) as [Hlow|Hhigh]; [lia|].
      assert (He' : (e' <= d1 + ex - (d2 + ey) - 53)%Z)
        by (unfold e', fexp, SpecFloat.emin, prec, emax in *; lia).
      assert (Hs53 : (52 + d2 <= d1 - 1 + s)%Z) by (unfold s; lia).
      assert (Hbig : (2 ^ 52 <= q)%Z).
      { rewrite Hq. apply Z.div_le_lower_bound; [lia|].
        assert (Hpw : (2 ^ (52 + d2) <= 2 ^ (d1 - 1 + s))%Z)
          by (apply Z.pow_le_mono_r; lia).
        rewrite !Z.pow_add_r in Hpw by lia.
        assert (Ha : (Z.pos my * 2 ^ 52 <= 2 ^ d2 * 2 ^ 52)%Z)
          by (apply Z.mul_le_mono_nonneg_r; lia).
        assert (Hb : (2 ^ (d1 - 1) * 2 ^ s <= Z.pos mx * 2 ^ s)%Z)
          by (apply Z.mul_le_mono_nonneg_r; lia).
        rewrite Hm'. lia. }
      apply Zdigits2_ge in Hbig; lia.
Qed.

(** ** Comparisons *)

Lemma canonical_digits (m : positive) (e : Z) :
  SpecFloat.bounded prec emax m e = true ->
  (Z.pos (digits2_pos m) <= 53)%Z
  /\ (-1074 <= e)%Z
  /\ ((-1074 < e)%Z -> Z.pos (digits2_pos m) = 53%Z).
Proof.
  unfold SpecFloat.bounded, canonical_mantissa. intros H.
  apply andb_true_iff in H as [H _]. apply Z.eqb_eq in H.
  unfold fexp, SpecFloat.emin, prec, emax in H. lia.
Qed.

Lemma SFleb_R (m1 : positive) (e1 : Z) (m2 : positive) (e2 : Z) :
  SpecFloat.bounded prec emax m1 e1 = true ->
  SpecFloat.bounded prec emax m2 e2 = true ->
  SFleb (S754_finite false m1 e1) (S754_finite false m2 e2) = true ->
  SF2R (S754_finite false m1 e1) <= SF2R (S754_finite false m2 e2).
Proof.
  intros Hb1 Hb2. unfold SFleb, SFcompare. cbn [SF2R].
  destruct (canonical_digits m1 e1 Hb1) as (Hd1 & He1 & _).
  destruct (canonical_digits m2 e2 Hb2) as (_ & _ & Hn2).
  destruct (Z.compare_spec e1 e2) as [->|Hlt|Hgt].
  - intros H. apply Rmult_le_compat_r; [apply Rlt_le, pow2_pos|].
    apply IZR_le. change (Pos.compare_cont Eq m1 m2) with (m1 ?= m2)%positive in H.
    destruct (Pos.compare_spec m1 m2); [lia|lia|discriminate].
  - intros _.
    destruct (digits2_pos_bounds m1) as [_ Hu1].
    destruct (digits2_pos_bounds m2) as [Hl2 _].
    rewrite (Hn2 ltac:(lia)) in Hl2.
    assert (Hu1' : (Z.pos m1 <= 2 ^ 53)%Z).
    { assert (2 ^ Z.pos (digits2_pos m1) <= 2 ^ 53)%Z
        by (apply Z.pow_le_mono_r; lia).
      lia. }
    apply IZR_le in Hu1', Hl2.
    rewrite pow2_IZR in Hu1', Hl2 by lia.
    apply Rle_trans with (pow2 53 * pow2 e1).
    { apply Rmult_le_compat_r; [apply Rlt_le, pow2_pos|exact Hu1']. }
    apply Rle_trans with (pow2 (53 - 1) * pow2 e2).
    { rewrite <- !pow2_add. apply pow2_le. lia. }
    apply Rmult_le_compat_r; [apply Rlt_le, pow2_pos|exact Hl2].
  - discriminate.
Qed.

(** ** Numbers of the script *)

Lemma PosFin_Fin0 (x : float) : PosFin x -> Fin0 x.
Proof. intros (m & e & H). unfold Fin0. rewrite H. exact I. Qed.

Lemma PosFin_Rval (x : float) : PosFin x -> 0 < Rval x.
Proof.
  intros (m & e & H). unfold Rval. rewrite H. cbn [SF2R].
  pose proof (pow2_pos e). assert (1 <= IZR (Z.pos m)) by (apply IZR_le; lia).
  nra.
Qed.

Lemma Fin0_PosFin (x : float) : Fin0 x -> 0 < Rval x -> PosFin x.
Proof.
  unfold Fin0, Rval, PosFin. destruct (Prim2SF x) as [s|s| |[] m e]; cbn;
    intros H H0; try contradiction; try lra.
  exists m, e. reflexivity.
Qed.

Lemma Fin0_nonneg (x : float) : Fin0 x -> 0 <= Rval x.
Proof. apply fin0_nonneg. Qed.

Lemma mul_near (x y : float) :
  Fin0 x -> Fin0 y -> Rval x * Rval y <= pow2 900 ->
  Near (Rval x * Rval y) (x * y)%float.
Proof. intros. unfold Near. rewrite mul_spec. apply SFmul_near; assumption. Qed.

Lemma add_near (x y : float) :
  Fin0 x -> Fin0 y -> Rval x + Rval y <= pow2 900 ->
  Near (Rval x + Rval y) (x + y)%float.
Proof. intros. unfold Near. rewrite add_spec. apply SFadd_near; assumption. Qed.

Lemma div_near (x y : float) :
  Fin0 x -> PosFin y -> Rval x / Rval y <= pow2 900 ->
  Near (Rval x / Rval y) (x / y)%float.
Proof.
  intros Hx (m & e & Hy) Ht. unfold Near, Rval in *. rewrite div_spec.
  rewrite Hy in *. apply SFdiv_near; assumption.
Qed.

(** Between two positive finite numbers there are only positive finite
    numbers. *)
Lemma leb_between (lo hi x : float) :
  PosFin lo -> PosFin hi ->
  (lo <=? x)%float = true -> (x <=? hi)%float = true ->
  PosFin x /\ Rval lo <= Rval x <= Rval hi.
Proof.
  intros (ml & el & Hl) (mh & eh & Hh). rewrite !leb_spec.
  pose proof (Prim2SF_valid lo) as Vl. pose proof (Prim2SF_valid hi) as Vh.
  pose proof (Prim2SF_valid x) as Vx.
  unfold PosFin, Rval. rewrite Hl, Hh in *.
  destruct (Prim2SF x) as [s|s| |s m e].
  - destruct s; cbn; discriminate.
  - destruct s; cbn; discriminate.
  - cbn. discriminate.
  - destruct s; [cbn; discriminate|]. intros H1 H2.
    split; [exists m, e; reflexivity|].
    split; apply SFleb_R; assumption.
Qed.

(** Between 0 and 1 there are only zeros and positive finite numbers. *)
Lemma leb_unit (x : float) :
  (0 <=? x)%float = true -> (x <=? 1)%float = true ->
  Fin0 x /\ Rval x <= 1.
Proof.
  rewrite !leb_spec. pose proof (Prim2SF_valid x) as Vx.
  unfold Fin0, Rval.
  change (Prim2SF 0) with (S754_zero false).
  change (Prim2SF 1) with (S754_finite false 4503599627370496 (-52)).
  destruct (Prim2SF x) as [s|s| |s m e].
  - intros _ _. split; [exact I|]. cbn. lra.
  - destruct s; cbn; discriminate.
  - cbn. discriminate.
  - destruct s; [cbn; discriminate|]. intros _ H.
    split; [exact I|]. apply SFleb_R in H; [|exact Vx|reflexivity].
    apply Rle_trans with (1 := H). cbn [SF2R].
    change (-52)%Z with (- (52))%Z. rewrite pow2_neg, <- pow2_IZR by lia.
    change (2 ^ 52)%Z with 4503599627370496%Z. right. field.
Qed.

(** ** Sums of rounded numbers *)

Lemma eps_pos : 0 < eps.
Proof. unfold eps. lra. Qed.

Lemma eta_pos : 0 < eta.
Proof. apply pow2_pos. Qed.

Lemma pow_up (n : nat) :
  2 * INR n * eps <= 1 -> (1 + eps) ^ n <= 1 + 2 * INR n * eps.
Proof.
  pose proof eps_pos as He.
  induction n as [|n IH]; intros H.
  - cbn. lra.
  - rewrite S_INR in *. pose proof (pos_INR n) as Hn.
    assert (IH' := IH ltac:(nra)).
    change ((1 + eps) ^ S n) with ((1 + eps) * (1 + eps) ^ n).
    assert (0 < (1 + eps) ^ n) by (apply pow_lt; lra).
    nra.
Qed.

Lemma pow_down (n : nat) :
  INR n * eps <= 1 -> 1 - INR n * eps <= (1 - eps) ^ n <= 1.
Proof.
  pose proof eps_pos as He.
  assert (He1 : eps <= 1) by (unfold eps; lra).
  induction n as [|n IH]; intros H.
  - cbn. lra.
  - rewrite S_INR in *. pose proof (pos_INR n) as Hn.
    assert (IH' := IH ltac:(nra)).
    change ((1 - eps) ^ S n) with ((1 - eps) * (1 - eps) ^ n).
    nra.
Qed.

Lemma near_bounds (t : R) (z : spec_float) :
  near t z -> fin0 z /\ (1 - eps) * t - eta <= SF2R z <= (1 + eps) * t + eta.
Proof.
  intros [Hf H]. split; [exact Hf|].
  unfold Rabs in H. destruct (Rcase_abs (SF2R z - t)); lra.
Qed.

Section Sums.

Context {K : Type} (v : K -> float).

Lemma exactSum_nil : exactSum v [] = 0.
Proof. reflexivity. Qed.

Lemma exactSum_cons (k : K) (ks : list K) :
  exactSum v (k :: ks) = Rval (v k) + exactSum v ks.
Proof. reflexivity. Qed.

Lemma exactSum_nonneg (ks : list K) :
  (forall k, k ∈ ks -> Fin0 (v k)) -> 0 <= exactSum v ks.
Proof.
  induction ks as [|k ks IH]; intros H.
  - rewrite exactSum_nil. lra.
  - rewrite exactSum_cons.
    assert (Hk : 0 <= Rval (v k)) by (apply Fin0_nonneg, H; left).
    assert (Hks : 0 <= exactSum v ks)
      by (apply IH; intros k' Hk'; apply H; right; exact Hk').
    lra.
Qed.

Lemma exactSum_ge (ks : list K) (k0 : K) :
  (forall k, k ∈ ks -> Fin0 (v k)) -> k0 ∈ ks -> Rval (v k0) <= exactSum v ks.
Proof.
  induction ks as [|k ks IH]; intros H Hin; [inversion Hin|].
  assert (Hk : 0 <= Rval (v k)) by (apply Fin0_nonneg, H; left).
  assert (Hks : 0 <= exactSum v ks)
    by (apply exactSum_nonneg; intros k' Hk'; apply H; right; exact Hk').
  rewrite exactSum_cons.
  apply elem_of_cons in Hin as [->|Hin]; [lra|].
  assert (Rval (v k0) <= exactSum v ks)
    by (apply IH; [intros k' Hk'; apply H; right; exact Hk'|exact Hin]).
  lra.
Qed.

(** The accumulated sum [sum += value] of non-negative values. *)
Lemma fold_add_near (ks : list K) (a : float) :
  (forall k, k ∈ ks -> Fin0 (v k)) -> Fin0 a ->
  (1 + eps) ^ length ks * (Rval a + exactSum v ks + INR (length ks) * eta)
  <= pow2 900 ->
  Fin0 (fold_left (fun s k => (s + v k)%float) ks a)
  /\ (1 - eps) ^ length ks * (Rval a + exactSum v ks) - INR (length ks) * eta
     <= Rval (fold_left (fun s k => (s + v k)%float) ks a)
     <= (1 + eps) ^ length ks * (Rval a + exactSum v ks + INR (length ks) * eta).
Proof.
  pose proof eps_pos as He. pose proof eta_pos as Hη.
  assert (He1 : eps <= 1) by (unfold eps; lra).
  revert a. induction ks as [|k ks IH]; intros a Hv Ha Hb.
  - cbn [fold_left length]. rewrite exactSum_nil. cbn [pow INR].
    split; [exact Ha|]. lra.
  - assert (Hk : Fin0 (v k)) by (apply Hv; left).
    assert (Hv' : forall k', k' ∈ ks -> Fin0 (v k'))
      by (intros k' Hk'; apply Hv; right; exact Hk').
    pose proof (Fin0_nonneg a Ha) as Ha0.
    pose proof (Fin0_nonneg (v k) Hk) as Hk0.
    pose proof (exactSum_nonneg ks Hv') as Ht0.
    pose proof (pos_INR (length ks)) as Hn0.
    assert (Hu : 1 <= (1 + eps) ^ length ks) by (apply pow_R1_Rle; lra).
    assert (Hl : 0 <= (1 - eps) ^ length ks <= 1).
    { split; [apply pow_le; lra|].
      apply Rle_trans with (1 ^ length ks); [apply pow_incr; lra|].
      rewrite pow1. lra. }
    cbn [length fold_left] in *. rewrite S_INR in *.
    change ((1 + eps) ^ S (length ks))
      with ((1 + eps) * (1 + eps) ^ length ks) in *.
    change ((1 - eps) ^ S (length ks))
      with ((1 - eps) * (1 - eps) ^ length ks) in *.
    rewrite exactSum_cons in *.
    set (U := (1 + eps) ^ length ks) in *.
    set (L := (1 - eps) ^ length ks) in *.
    set (T := exactSum v ks) in *. set (n := INR (length ks)) in *.
    set (A := Rval a) in *. set (V := Rval (v k)) in *.
    assert (Hne : 0 <= n * eta) by (apply Rmult_le_pos; lra).
    assert (Hsmall : A + V <= pow2 900).
    { apply Rle_trans with (2 := Hb).
      apply Rle_trans with (1 * (A + (V + T) + (n + 1) * eta)); [lra|].
      rewrite Rmult_assoc.
      apply Rmult_le_compat; try lra.
      assert (0 <= eps * (U * (A + (V + T) + (n + 1) * eta)))
        by (apply Rmult_le_pos; [lra|apply Rmult_le_pos; lra]).
      assert (1 * (A + (V + T) + (n + 1) * eta)
              <= U * (A + (V + T) + (n + 1) * eta))
        by (apply Rmult_le_compat_r; lra).
      lra. }
    destruct (near_bounds _ _ (add_near a (v k) Ha Hk Hsmall)) as [Hf Hr].
    fold (Rval (a + v k)%float) in Hr. fold A V in Hr.
    set (A1 := Rval (a + v k)%float) in *.
    assert (Hstep : U * (A1 + T + n * eta)
                    <= (1 + eps) * U * (A + (V + T) + (n + 1) * eta)).
    { rewrite (Rmult_comm (1 + eps) U), Rmult_assoc.
      apply Rmult_le_compat_l; [lra|].
      assert (0 <= eps * (T + (n + 1) * eta))
        by (apply Rmult_le_pos; lra).
      lra. }
    destruct (IH (a + v k)%float Hv' Hf) as [Hfr [Hlo Hhi]].
    { fold A1 T n U. lra. }
    fold A1 T n U L in Hlo, Hhi.
    split; [exact Hfr|]. split.
    + apply Rle_trans with (2 := Hlo).
      assert (H1 : L * ((1 - eps) * (A + V) - eta + T) <= L * (A1 + T))
        by (apply Rmult_le_compat_l; lra).
      assert (H2 : L * eta <= 1 * eta) by (apply Rmult_le_compat_r; lra).
      assert (H3 : 0 <= eps * T) by (apply Rmult_le_pos; lra).
      assert (H4 : L * ((1 - eps) * T) <= L * T)
        by (apply Rmult_le_compat_l; lra).
      lra.
    + lra.
Qed.

(** The normalized values [value / sum]. *)
Lemma weights_near (ks : list K) (s : float) :
  PosFin s ->
  (forall k, k ∈ ks -> Fin0 (v k) /\ Rval (v k) / Rval s <= pow2 900) ->
  (forall k, k ∈ ks -> Fin0 (v k / s)%float)
  /\ Rabs (Rsum (map (fun k => Rval (v k / s)%float) ks) - exactSum v ks / Rval s)
     <= eps * (exactSum v ks / Rval s) + INR (length ks) * eta.
Proof.
  intros Hs. pose proof (PosFin_Rval s Hs) as Hs0.
  induction ks as [|k ks IH]; intros H.
  - split; [intros k Hk; inversion Hk|].
    rewrite exactSum_nil. cbn [map length Rsum fold_right INR].
    unfold Rdiv. rewrite Rmult_0_l, Rminus_0_r, Rabs_R0. lra.
  - destruct (H k ltac:(left)) as [Hk Hb].
    destruct (IH ltac:(intros k' Hk'; apply H; right; exact Hk')) as [Hf He].
    destruct (div_near (v k) s Hk Hs Hb) as [Hfk Hek].
    fold (Rval (v k / s)%float) in Hek.
    split.
    + intros k' Hk'. apply elem_of_cons in Hk' as [->|Hk'];
        [exact Hfk|apply Hf, Hk'].
    + cbn [map length]. rewrite S_INR.
      change (Rsum (?x :: ?l)) with (x + Rsum l).
      rewrite exactSum_cons.
      replace (Rval (v k / s)%float
               + Rsum (map (fun k0 => Rval (v k0 / s)%float) ks)
               - (Rval (v k) + exactSum v ks) / Rval s)
        with ((Rval (v k / s)%float - Rval (v k) / Rval s)
              + (Rsum (map (fun k0 => Rval (v k0 / s)%float) ks)
                 - exactSum v ks / Rval s))
        by (field; lra).
      eapply Rle_trans; [apply Rabs_triang|].
      replace (eps * ((Rval (v k) + exactSum v ks) / Rval s)
               + (INR (length ks) + 1) * eta)
        with ((eps * (Rval (v k) / Rval s) + eta)
              + (eps * (exactSum v ks / Rval s) + INR (length ks) * eta))
        by (field; lra).
      apply Rplus_le_compat; assumption.
Qed.

End Sums.

(** ** The sum of the kernel table *)

Lemma Rval_closed (x : float) (m p : positive) :
  Prim2SF x = S754_finite false m (Z.neg p) ->
  Rval x = IZR (Z.pos m) / IZR (2 ^ Z.pos p).
Proof.
  intros H. unfold Rval. rewrite H. cbn [SF2R].
  change (Z.neg p) with (- Z.pos p)%Z. rewrite pow2_neg, <- pow2_IZR by lia.
  reflexivity.
Qed.

Lemma PosFin_closed (x : float) (m : positive) (e : Z) :
  Prim2SF x = S754_finite false m e -> PosFin x.
Proof. intros H. exists m, e. exact H. Qed.

Lemma eps_small : eps <= / 1000000000000000.
Proof. unfold eps. lra. Qed.

Lemma eta_small : eta <= / 1000000000000000000000000000000.
Proof.
  apply Rle_trans with (pow2 (-100)); [apply pow2_le; lia|].
  change (-100)%Z with (- (100))%Z. rewrite pow2_neg, <- pow2_IZR by lia.
  change (2 ^ 100)%Z with 1267650600228229401496703205376%Z.
  apply Rinv_le_contravar; lra.
Qed.

Lemma pow2_900_large : 1000000000000000000000000000000 <= pow2 900.
Proof.
  apply Rle_trans with (pow2 100); [|apply pow2_le; lia].
  rewrite <- pow2_IZR by lia.
  change (2 ^ 100)%Z with 1267650600228229401496703205376%Z. lra.
Qed.

Ltac closed_Rval x :=
  rewrite (Rval_closed x _ _ eq_refl);
  match goal with
  | |- context [IZR (2 ^ Z.pos ?p)] =>
      let z := eval vm_compute in (2 ^ Z.pos p)%Z in
      change (2 ^ Z.pos p)%Z with z
  end.

Lemma Rval_0 : Rval 0 = 0.
Proof. reflexivity. Qed.

Lemma Rval_1 : Rval 1 = 1.
Proof.
  closed_Rval (1)%float. field.
Qed.

Lemma Rval_tenth : / 10 <= Rval 0.1.
Proof.
  closed_Rval (0.1)%float. lra.
Qed.

Lemma Rval_30 : Rval 30 = 30.
Proof.
  closed_Rval (30)%float. lra.
Qed.

Lemma Rval_2pi : 6 <= Rval (2 * JS.Math_PI) <= 7.
Proof.
  closed_Rval ((2 * JS.Math_PI))%float. lra.
Qed.

Lemma Rval_2 : Rval 2 = 2.
Proof.
  closed_Rval (2)%float. lra.
Qed.

Lemma Near_bounds (t : R) (x : float) :
  Near t x -> Fin0 x /\ (1 - eps) * t - eta <= Rval x <= (1 + eps) * t + eta.
Proof. apply near_bounds. Qed.

(** A rounded result within known bounds. *)
Lemma Near_interval (t lo hi : R) (x : float) :
  Near t x -> 0 <= lo <= t -> t <= hi ->
  Fin0 x
  /\ lo * (1 - / 1000000000000000) - / 1000000000000000000000000000000
     <= Rval x
     <= hi * (1 + / 1000000000000000) + / 1000000000000000000000000000000.
Proof.
  intros H Hlo Hhi. apply Near_bounds in H as [Hf [H1 H2]].
  split; [exact Hf|].
  pose proof eps_small. pose proof eps_pos. pose proof eta_small.
  pose proof eta_pos.
  assert (lo * (1 - / 1000000000000000) <= t * (1 - eps))
    by (apply Rmult_le_compat; lra).
  assert (t * (1 + eps) <= hi * (1 + / 1000000000000000))
    by (apply Rmult_le_compat; lra).
  lra.
Qed.

Lemma exactSum_le {K : Type} (v : K -> float) (ks : list K) (bound : R) :
  (forall k, k ∈ ks -> Rval (v k) <= bound) ->
  exactSum v ks <= INR (length ks) * bound.
Proof.
  induction ks as [|k ks IH]; intros H.
  - rewrite exactSum_nil. cbn [length INR]. lra.
  - rewrite exactSum_cons. cbn [length]. rewrite S_INR.
    assert (Rval (v k) <= bound) by (apply H; left).
    assert (exactSum v ks <= INR (length ks) * bound)
      by (apply IH; intros k' Hk'; apply H; right; exact Hk').
    lra.
Qed.

Lemma Fin0_leb (x : float) : Fin0 x -> (0 <=? x)%float = true.
Proof.
  unfold Fin0. rewrite leb_spec. change (Prim2SF 0) with (S754_zero false).
  destruct (Prim2SF x) as [s|s| |[] m e]; intros H; try contradiction;
    reflexivity.
Qed.

(** A quotient of two close numbers is close to 1. *)
Lemma quotient_close (T s d : R) :
  0 < T -> 0 <= d <= / 2 ->
  T * (1 - d) <= s <= T * (1 + d) ->
  1 - d <= T / s <= 1 + 2 * d.
Proof.
  intros HT Hd [H1 H2].
  assert (Hs : 0 < s) by nra.
  split.
  - apply Rmult_le_reg_r with s; [exact Hs|].
    replace (T / s * s) with T by (field; lra). nra.
  - apply Rmult_le_reg_r with s; [exact Hs|].
    replace (T / s * s) with T by (field; lra). nra.
Qed.

Lemma Rabs_le_both (x b : R) : Rabs x <= b <-> - b <= x <= b.
Proof.
  split; [|apply Rabs_le].
  intros H. unfold Rabs in H. destruct (Rcase_abs x); lra.
Qed.

Section KernelSum.

Variable Math_exp : float -> float.
Variable size : Z.
Variable sigma : float.

Hypothesis Hodd : Z.odd size = true.
Hypothesis Hsize : (1 <= size <= 51)%Z.
Hypothesis Hlo : (0.1 <=? sigma)%float = true.
Hypothesis Hhi : (sigma <=? 30)%float = true.
Hypothesis Hexp0 : Math_exp (-0)%float = 1%float.
Hypothesis Hexp : forall d : Z,
  (0 < d <= 2 * ((size / 2) * (size / 2)))%Z ->
  (0 <=? Math_exp (- JS.of_Z d / (2 * (sigma * sigma))))%float = true
  /\ (Math_exp (- JS.of_Z d / (2 * (sigma * sigma))) <=? 1)%float = true.

Lemma sigma_range : PosFin sigma /\ / 10 <= Rval sigma <= 30.
Proof.
  destruct (leb_between 0.1 30 sigma) as [Hp [H1 H2]].
  - eapply PosFin_closed. reflexivity.
  - eapply PosFin_closed. reflexivity.
  - exact Hlo.
  - exact Hhi.
  - split; [exact Hp|]. pose proof Rval_tenth. rewrite Rval_30 in H2. lra.
Qed.

Lemma sigma2_range :
  PosFin (sigma * sigma) /\ 9 / 1000 <= Rval (sigma * sigma) <= 901.
Proof.
  destruct sigma_range as [Hp [H1 H2]].
  pose proof pow2_900_large as Hbig.
  assert (Hsq : / 100 <= Rval sigma * Rval sigma <= 900) by nra.
  destruct (Near_interval _ (/ 100) 900 _
              (mul_near sigma sigma (PosFin_Fin0 _ Hp) (PosFin_Fin0 _ Hp) ltac:(lra))
              ltac:(lra) ltac:(lra)) as [Hf Hr].
  split; [apply Fin0_PosFin; [exact Hf|lra]|lra].
Qed.

Lemma scale_range :
  PosFin (2 * JS.Math_PI * (sigma * sigma))
  /\ / 20 <= Rval (2 * JS.Math_PI * (sigma * sigma)) <= 6400.
Proof.
  destruct sigma2_range as [Hp [H1 H2]].
  pose proof pow2_900_large as Hbig. pose proof Rval_2pi as Hpi.
  assert (Hf2pi : Fin0 (2 * JS.Math_PI))
    by (eapply PosFin_Fin0, PosFin_closed; reflexivity).
  assert (Hprod : 54 / 1000 <= Rval (2 * JS.Math_PI) * Rval (sigma * sigma)
                  <= 6307) by nra.
  destruct (Near_interval _ (54 / 1000) 6307 _
              (mul_near _ _ Hf2pi (PosFin_Fin0 _ Hp) ltac:(lra))
              ltac:(lra) ltac:(lra)) as [Hf Hr].
  split; [apply Fin0_PosFin; [exact Hf|lra]|lra].
Qed.

(** The factor [1 / (2 * Math.PI * sigma2)]. *)
Lemma factor_range :
  PosFin (1 / (2 * JS.Math_PI * (sigma * sigma)))
  /\ / 10000 <= Rval (1 / (2 * JS.Math_PI * (sigma * sigma))) <= 21.
Proof.
  destruct scale_range as [Hp [H1 H2]].
  pose proof pow2_900_large as Hbig.
  set (T := Rval (2 * JS.Math_PI * (sigma * sigma))) in *.
  assert (Hf1 : Fin0 1) by (eapply PosFin_Fin0, PosFin_closed; reflexivity).
  assert (Hq : / 6400 <= Rval 1 / T <= 20).
  { rewrite Rval_1. unfold Rdiv. rewrite Rmult_1_l. split.
    - apply Rinv_le_contravar; lra.
    - replace 20 with (/ / 20) by field. apply Rinv_le_contravar; lra. }
  destruct (Near_interval _ (/ 6400) 20 _
              (div_near 1 _ Hf1 Hp ltac:(fold T; lra))
              ltac:(fold T; lra) ltac:(fold T; lra)) as [Hf Hr].
  split; [apply Fin0_PosFin; [exact Hf|lra]|lra].
Qed.

Lemma double_sigma2_pos : PosFin (2 * (sigma * sigma)).
Proof.
  destruct sigma2_range as [Hp [H1 H2]].
  pose proof pow2_900_large as Hbig.
  assert (Hf2 : Fin0 2) by (eapply PosFin_Fin0, PosFin_closed; reflexivity).
  assert (Hprod : 18 / 1000 <= Rval 2 * Rval (sigma * sigma) <= 1802)
    by (rewrite Rval_2; lra).
  destruct (Near_interval _ (18 / 1000) 1802 _
              (mul_near _ _ Hf2 (PosFin_Fin0 _ Hp) ltac:(lra))
              ltac:(lra) ltac:(lra)) as [Hf Hr].
  apply Fin0_PosFin; [exact Hf|lra].
Qed.

(** The exponent of the centre is -0, whose exponential is 1. *)
Lemma centre_argument :
  (- JS.of_Z 0 / (2 * (sigma * sigma)))%float = (-0)%float.
Proof.
  destruct double_sigma2_pos as (m & e & H).
  apply Prim2SF_inj. rewrite div_spec, H. reflexivity.
Qed.

(** What [Math.exp] returns on the exponents of the table lies in [0, 1]. *)
Lemma exp_unit (d : Z) :
  (0 <= d <= 2 * ((size / 2) * (size / 2)))%Z ->
  Fin0 (Math_exp (- JS.of_Z d / (2 * (sigma * sigma))))
  /\ Rval (Math_exp (- JS.of_Z d / (2 * (sigma * sigma)))) <= 1.
Proof.
  intros Hd. destruct (Z.eq_dec d 0%Z) as [->|NE].
  - rewrite centre_argument, Hexp0, Rval_1.
    split; [eapply PosFin_Fin0, PosFin_closed; reflexivity|lra].
  - destruct (Hexp d ltac:(lia)) as [H0 H1]. apply leb_unit; assumption.
Qed.

(** Every weight before normalization is a number between 0 and 22. *)
Lemma weight_range (k : Z * Z) :
  k ∈ list_prod (seqZ 0 size) (seqZ 0 size) ->
  Fin0 (rawWeight Math_exp size sigma (snd k) (fst k))
  /\ Rval (rawWeight Math_exp size sigma (snd k) (fst k)) <= 22.
Proof.
  destruct k as [y x]. cbn [fst snd].
  intros Hk. apply list_elem_of_In, in_prod_iff in Hk as [Hy Hx].
  apply list_elem_of_In, elem_of_seqZ in Hy, Hx.
  pose proof Hodd as Ho. apply Z.odd_spec in Ho as [h Hh].
  assert (Hhalf : (size / 2 = h)%Z)
    by (symmetry; apply (Z.div_unique size 2 h 1); lia).
  unfold rawWeight. cbv zeta. rewrite Hhalf.
  destruct (exp_unit ((x - h) * (x - h) + (y - h) * (y - h))) as [He He1].
  { rewrite Hhalf.
    assert (Hsq : forall a : Z, (- h <= a <= h)%Z -> (0 <= a * a <= h * h)%Z)
      by (intros a Ha; nia).
    pose proof (Hsq (x - h)%Z ltac:(lia)). pose proof (Hsq (y - h)%Z ltac:(lia)).
    lia. }
  destruct factor_range as [Hc [Hc1 Hc2]].
  pose proof (Fin0_nonneg _ He) as He0.
  pose proof pow2_900_large as Hbig.
  match goal with
  | |- Fin0 (?c * ?e)%float /\ _ =>
      assert (Hprod : 0 <= Rval c * Rval e <= 21) by nra;
      destruct (Near_interval _ 0 21 _
                  (mul_near c e (PosFin_Fin0 _ Hc) He ltac:(lra))
                  ltac:(lra) ltac:(lra)) as [Hf Hr]
  end.
  split; [exact Hf|lra].
Qed.

(** The weight of the centre is at least 9e-5. *)
Lemma centre_weight :
  (size / 2, size / 2)%Z ∈ list_prod (seqZ 0 size) (seqZ 0 size)
  /\ 9 / 100000 <= Rval (rawWeight Math_exp size sigma (size / 2) (size / 2)).
Proof.
  split.
  - apply list_elem_of_In, in_prod_iff.
    split; apply list_elem_of_In, elem_of_seqZ;
      (split; [apply Z.div_pos; lia|apply Z.div_lt_upper_bound; lia]).
  - unfold rawWeight. cbv zeta. rewrite Z.sub_diag.
    change (0 * 0 + 0 * 0)%Z with 0%Z.
    rewrite centre_argument, Hexp0.
    destruct factor_range as [Hc [Hc1 Hc2]].
    pose proof pow2_900_large as Hbig.
    assert (Hf1 : Fin0 1) by (eapply PosFin_Fin0, PosFin_closed; reflexivity).
    match goal with
    | |- _ <= Rval (?c * 1)%float =>
        assert (Hprod : / 10000 <= Rval c * Rval 1 <= 21)
          by (rewrite Rval_1; lra);
        destruct (Near_interval _ (/ 10000) 21 _
                    (mul_near c 1 (PosFin_Fin0 _ Hc) Hf1 ltac:(lra))
                    ltac:(lra) ltac:(lra)) as [Hf Hr]
    end.
    lra.
Qed.

Lemma table_length :
  length (list_prod (seqZ 0 size) (seqZ 0 size)) = Z.to_nat (size * size)
  /\ 1 <= INR (length (list_prod (seqZ 0 size) (seqZ 0 size))) <= 2601.
Proof.
  assert (Hlen : length (list_prod (seqZ 0 size) (seqZ 0 size))
                 = Z.to_nat (size * size)).
  { rewrite length_prod, !length_seqZ. lia. }
  split; [exact Hlen|]. rewrite Hlen, INR_IZR_INZ, Z2Nat.id by nia.
  split; apply IZR_le; nia.
Qed.

(** The accumulated [sum] is a positive number within 7e-12 of the exact
    sum of the weights, relatively. *)
Lemma sum_range :
  let ks := list_prod (seqZ 0 size) (seqZ 0 size) in
  let w := fun k : Z * Z => rawWeight Math_exp size sigma (snd k) (fst k) in
  let s := fold_left (fun s k => (s + w k)%float) ks 0%float in
  PosFin s
  /\ 9 / 100000 <= exactSum w ks <= 57222
  /\ exactSum w ks * (1 - 7 / 1000000000000) <= Rval s
     <= exactSum w ks * (1 + 7 / 1000000000000).
Proof.
  intros ks w s.
  destruct table_length as [_ [Hn1 Hn2]]. fold ks in Hn1, Hn2.
  destruct centre_weight as [Hin Hc]. fold ks in Hin.
  assert (Hw : forall k, k ∈ ks -> Fin0 (w k))
    by (intros k Hk; apply weight_range, Hk).
  assert (Ht1 : 9 / 100000 <= exactSum w ks).
  { apply Rle_trans with (1 := Hc). apply (exactSum_ge w ks (size / 2, size / 2)%Z Hw Hin). }
  assert (Ht2 : exactSum w ks <= 57222).
  { apply Rle_trans with (INR (length ks) * 22); [|lra].
    apply exactSum_le. intros k Hk. apply weight_range, Hk. }
  pose proof eps_small as He. pose proof eps_pos as He0.
  pose proof eta_small as Hη. pose proof eta_pos as Hη0.
  pose proof pow2_900_large as Hbig.
  assert (Hne : INR (length ks) * eps <= 3 / 1000000000000) by nra.
  assert (Hnη : 0 <= INR (length ks) * eta <= 3 / 1000000000000000000000000000)
    by nra.
  pose proof (pow_up (length ks) ltac:(lra)) as Hup.
  destruct (pow_down (length ks) ltac:(lra)) as [Hdn Hdn1].
  assert (Hup1 : 1 <= (1 + eps) ^ length ks) by (apply pow_R1_Rle; lra).
  set (U := (1 + eps) ^ length ks) in *.
  set (L := (1 - eps) ^ length ks) in *.
  set (T := exactSum w ks) in *. set (n := INR (length ks)) in *.
  destruct (fold_add_near w ks 0%float Hw) as [Hf [Hlo' Hhi']].
  { exact I. }
  { rewrite Rval_0. fold T n U. nra. }
  fold s in Hf, Hlo', Hhi'. rewrite Rval_0 in Hlo', Hhi'. fold T n U L in Hlo', Hhi'.
  assert (Hs1 : T * (1 - 7 / 1000000000000) <= Rval s).
  { apply Rle_trans with (2 := Hlo').
    assert ((1 - n * eps) * T <= L * (0 + T))
      by (rewrite Rplus_0_l; apply Rmult_le_compat_r; lra).
    assert (n * eps * T <= 3 / 1000000000000 * T)
      by (apply Rmult_le_compat_r; lra).
    lra. }
  assert (Hs2 : Rval s <= T * (1 + 7 / 1000000000000)).
  { apply Rle_trans with (1 := Hhi').
    assert (U * (0 + T + n * eta) <= (1 + 2 * n * eps) * (0 + T + n * eta))
      by (apply Rmult_le_compat_r; lra).
    assert (n * eps * (T + n * eta)
            <= 3 / 1000000000000 * (T + n * eta))
      by (apply Rmult_le_compat_r; lra).
    lra. }
  split; [apply Fin0_PosFin; [exact Hf|nra]|].
  split; [split; assumption|]. split; assumption.
Qed.

(** The table: its entries are non-negative numbers, and their sum, exact
    or accumulated in binary64, is within 1e-10 of 1. *)
Lemma table_sum :
  let ks := list_prod (seqZ 0 size) (seqZ 0 size) in
  let w := fun k : Z * Z => rawWeight Math_exp size sigma (snd k) (fst k) in
  let s := fold_left (fun s k => (s + w k)%float) ks 0%float in
  let kernel := map (fun k => (w k / s)%float) ks in
  (forall x, x ∈ kernel -> Fin0 x)
  /\ Rabs (Rsum (map Rval kernel) - 1) <= / 10000000000
  /\ Rabs (Rval (fold_left (fun s x => (s + x)%float) kernel 0%float) - 1)
     <= / 10000000000.
Proof.
  intros ks w s kernel.
  assert (Hsr : PosFin s
                /\ 9 / 100000 <= exactSum w ks <= 57222
                /\ exactSum w ks * (1 - 7 / 1000000000000) <= Rval s
                   <= exactSum w ks * (1 + 7 / 1000000000000))
    by exact sum_range.
  destruct Hsr as (Hs & [Ht1 Ht2] & [Hs1 Hs2]).
  destruct table_length as [_ [Hn1 Hn2]]. fold ks in Hn1, Hn2.
  pose proof eps_small as He. pose proof eps_pos as He0.
  pose proof eta_small as Hη. pose proof eta_pos as Hη0.
  pose proof pow2_900_large as Hbig.
  pose proof (PosFin_Rval s Hs) as Hs0.
  set (T := exactSum w ks) in *. set (n := INR (length ks)) in *.
  assert (Hratio : forall k, k ∈ ks ->
            Fin0 (w k) /\ Rval (w k) / Rval s <= pow2 900).
  { intros k Hk. destruct (weight_range k Hk) as [Hf Hb].
    change (Fin0 (w k)) in Hf. change (Rval (w k) <= 22) in Hb.
    split; [exact Hf|].
    apply Rle_trans with 300000; [|lra].
    apply Rmult_le_reg_r with (Rval s); [exact Hs0|].
    replace (Rval (w k) / Rval s * Rval s) with (Rval (w k)) by (field; lra).
    lra. }
  destruct (weights_near w ks s Hs Hratio) as [Hfin Herr].
  fold T n in Herr.
  destruct (quotient_close T (Rval s) (7 / 1000000000000)
              ltac:(lra) ltac:(lra) ltac:(lra)) as [Hq1 Hq2].
  set (Q := T / Rval s) in *.
  assert (Hkernel : map Rval kernel = map (fun k => Rval (w k / s)%float) ks)
    by (unfold kernel; apply map_map).
  assert (Hall : forall x, x ∈ kernel -> Fin0 x).
  { intros x Hx. apply list_elem_of_fmap in Hx as (k & -> & Hk).
    apply Hfin, Hk. }
  assert (Hlen : length kernel = length ks) by apply length_map.
  assert (Htotal : exactSum (fun x : float => x) kernel = Rsum (map Rval kernel))
    by reflexivity.
  clearbody kernel. rewrite Hkernel in *.
  set (W := Rsum (map (fun k => Rval (w k / s)%float) ks)) in *.
  apply Rabs_le_both in Herr.
  assert (Hne : 0 <= n * eta <= 3 / 1000000000000000000000000000) by nra.
  assert (HeQ : 0 <= eps * Q <= 2 / 1000000000000000) by nra.
  assert (HW : 1 - 2 / 100000000000 <= W <= 1 + 2 / 100000000000) by lra.
  split; [exact Hall|].
  split; [apply Rabs_le_both; lra|].
  (* the sum accumulated in binary64 *)
  assert (Hn : n * eps <= 3 / 1000000000000) by nra.
  pose proof (pow_up (length ks) ltac:(fold n; lra)) as Hup.
  destruct (pow_down (length ks) ltac:(fold n; lra)) as [Hdn Hdn1].
  assert (Hup1 : 1 <= (1 + eps) ^ length ks) by (apply pow_R1_Rle; lra).
  fold n in Hup, Hdn.
  set (U := (1 + eps) ^ length ks) in *.
  set (L := (1 - eps) ^ length ks) in *.
  destruct (fold_add_near (fun x : float => x) kernel 0%float Hall I)
    as [_ [Hlo' Hhi']].
  { rewrite Rval_0, Htotal, Hlen. fold n U.
    assert (U * (0 + W + n * eta) <= 2 * (0 + W + n * eta))
      by (apply Rmult_le_compat_r; lra).
    lra. }
  rewrite Rval_0, Htotal, Hlen in Hlo', Hhi'. fold n U L in Hlo', Hhi'.
  apply Rabs_le_both. split.
  - assert ((1 - n * eps) * (0 + W) <= L * (0 + W))
      by (apply Rmult_le_compat_r; lra).
    assert (n * eps * W <= 3 / 1000000000000 * W)
      by (apply Rmult_le_compat_r; lra).
    lra.
  - assert (U * (0 + W + n * eta) <= (1 + 2 * n * eps) * (0 + W + n * eta))
      by (apply Rmult_le_compat_r; lra).
    assert (n * eps * (W + n * eta) <= 3 / 1000000000000 * (W + n * eta))
      by (apply Rmult_le_compat_r; lra).
    lra.
Qed.

End KernelSum.

End Binary64Reals.

(** ** The tensor of a zero gradient field *)

(** Adding a product with a zero factor to +0 leaves +0. *)
Lemma add_zero_product (w : float) : Fin0 w -> (0 + 0 * w)%float = 0%float.
Proof.
  unfold Fin0. intros H. apply Prim2SF_inj. rewrite add_spec, mul_spec.
  change (Prim2SF 0) with (S754_zero false).
  destruct (Prim2SF w) as [s|s| |[] m e]; try contradiction;
    [destruct s|]; reflexivity.
Qed.

Lemma weightedSum_zero (component kernel : list float)
  (samples : list (Z * Z)) :
  Forall (fun s => aget component (fst s) = 0%float
                   /\ Fin0 (aget kernel (snd s))) samples ->
  weightedSum component kernel samples = 0%float.
Proof.
  unfold weightedSum.
  induction 1 as [|s samples [H0 Hw] _ IH]; [reflexivity|].
  cbn [fold_left]. rewrite H0, add_zero_product by exact Hw. exact IH.
Qed.

Lemma aget_replicate (n : nat) (i : Z) :
  0 <= i < Z.of_nat n -> aget (replicate n 0%float) i = 0%float.
Proof.
  intros Hi. unfold aget. destruct (Z.ltb_spec i 0); [lia|].
  rewrite lookup_replicate_2 by lia. reflexivity.
Qed.

Lemma aget_imap_replicate (f : nat -> float -> float) (n : nat) (i : Z) :
  0 <= i < Z.of_nat n ->
  aget (imap f (replicate n 0%float)) i = f (Z.to_nat i) 0%float.
Proof.
  intros Hi. unfold aget. destruct (Z.ltb_spec i 0); [lia|].
  rewrite list_lookup_imap, lookup_replicate_2 by lia. reflexivity.
Qed.

Lemma aget_Fin0 (kernel : list float) (i : Z) :
  (forall w, w ∈ kernel -> Fin0 w) ->
  0 <= i < Z.of_nat (length kernel) -> Fin0 (aget kernel i).
Proof.
  intros Hk Hi. unfold aget. destruct (Z.ltb_spec i 0); [lia|].
  destruct (lookup_lt_is_Some_2 kernel (Z.to_nat i) ltac:(lia)) as [w Hw].
  rewrite Hw. apply Hk. eapply list_elem_of_lookup_2, Hw.
Qed.

Lemma tensorAt_zero (width height size : Z) (kernel : list float) (x y : Z) :
  0 < width -> 0 < height -> 0 < size -> Z.odd size = true ->
  length kernel = Z.to_nat (size * size) ->
  (forall w, w ∈ kernel -> Fin0 w) ->
  tensorAt width height size kernel
    (replicate (Z.to_nat (width * height)) 0%float)
    (replicate (Z.to_nat (width * height)) 0%float) x y
  = [[0; 0]; [0; 0]]%float.
Proof.
  intros HW HH Hs Hodd Hlen Hk. unfold tensorAt. cbv zeta.
  pose proof (sampleIndices_in_range width height size x y HW HH Hs Hodd) as Hr.
  assert (Hzero : forall component,
            (forall i, 0 <= i < width * height -> aget component i = 0%float) ->
            weightedSum component kernel (sampleIndices width height size x y)
            = 0%float).
  { intros component Hc. apply weightedSum_zero.
    eapply Forall_impl; [exact Hr|]. intros s [H1 H2]. cbn beta.
    split; [apply Hc, H1|]. apply aget_Fin0; [exact Hk|]. rewrite Hlen. lia. }
  rewrite !Hzero; [reflexivity|..]; intros i Hi;
    rewrite aget_imap_replicate by lia; rewrite ?aget_replicate by lia;
    reflexivity.
Qed.

(** ** The gradient field of a black image *)

Lemma written_replicate (f : Z -> Z -> float) (width height : Z) :
  0 < width -> 0 < height ->
  (forall x y, 1 <= x < width - 1 -> 1 <= y < height - 1 -> f x y = 0%float) ->
  written (fun k => fst k * width + snd k) (fun k => f (snd k) (fst k))
    (interior width height) (replicate (Z.to_nat (width * height)) 0%float)
  = replicate (Z.to_nat (width * height)) 0%float.
Proof.
  intros HW HH Hf. apply list_eq. intros i.
  destruct (Nat.lt_ge_cases i (Z.to_nat (width * height))) as [Hi|Hi].
  - rewrite lookup_replicate_2 by exact Hi.
    set (x := Z.of_nat i mod width). set (y := Z.of_nat i / width).
    assert (Hx : 0 <= x < width) by (apply Z.mod_pos_bound; lia).
    assert (Hdiv : Z.of_nat i = width * y + x) by (apply Z.div_mod; lia).
    assert (Hy : 0 <= y < height).
    { split; [apply Z.div_pos; lia|].
      apply Z.div_lt_upper_bound; [lia|]. nia. }
    replace i with (Z.to_nat (y * width + x)) by lia.
    rewrite written_gradient by assumption.
    destruct ((1 <=? x) && (x <? width - 1) && (1 <=? y) && (y <? height - 1))
      eqn:E; [|reflexivity].
    rewrite Hf; [reflexivity| |]; lia.
  - rewrite !lookup_ge_None_2; [reflexivity| |].
    + rewrite length_replicate. exact Hi.
    + rewrite written_length; [rewrite length_replicate; exact Hi|].
      intros [y' x'] Hk. apply elem_of_interior in Hk. cbn [fst snd].
      rewrite length_replicate. nia.
Qed.

Lemma black_image_arrays (data : list Z) (width height : Z) :
  0 < width -> 0 < height ->
  constant_image data width height 0 0 0 ->
  gradientArrays data width height
  = (replicate (Z.to_nat (width * height)) 0%float,
     replicate (Z.to_nat (width * height)) 0%float).
Proof.
  intros HW HH Hc. rewrite gradientArrays_written.
  rewrite !written_replicate; try assumption; [reflexivity| |];
    intros x y Hx Hy;
    rewrite (sobelSum_constant _ data width height 0 0 0) by assumption;
    reflexivity.
Qed.

Lemma gradientsComputed_parameters (st : page) :
  width (gradientsComputed st) = width st
  /\ height (gradientsComputed st) = height st
  /\ kernelSize (gradientsComputed st) = kernelSize st
  /\ kernelSigma (gradientsComputed st) = kernelSigma st.
Proof. repeat split; reflexivity. Qed.

(** ** Entries of the kernel table at equal distances *)

Lemma kernel_pair_lookup (size u v : Z) :
  0 <= u < size -> 0 <= v < size ->
  list_prod (seqZ 0 size) (seqZ 0 size) !! Z.to_nat (v * size + u)
  = Some (v, u).
Proof.
  intros Hu Hv.
  replace (Z.to_nat (v * size + u))
    with (Z.to_nat v * length (seqZ 0 size) + Z.to_nat u)%nat
    by (rewrite length_seqZ; nia).
  apply list_prod_lookup.
  - rewrite lookup_seqZ_lt by lia. f_equal. lia.
  - rewrite lookup_seqZ_lt by lia. f_equal. lia.
Qed.

(** ** A computation that throws *)

Lemma bind_throw {A B} (m : M A) (f : A -> M B) (e : exn) (st st1 : page) :
  m st = (Throw e, st1) -> (m ≫= f) st = (Throw e, st1).
Proof. intros H. unfold mbind, M_bind. rewrite H. reflexivity. Qed.

(** ** What is shown for a result of two eigenpairs *)

Lemma SortCompare_lt_asym (x y : float) :
  SortCompare_lt x y = true -> SortCompare_lt y x = false.
Proof.
  unfold SortCompare_lt, String.ltb. rewrite (String.compare_antisym (JS.toString x)).
  destruct (JS.toString y ?= JS.toString x)%string; cbn; congruence.
Qed.

Lemma sorted_two (a b : float) :
  sorted [a; b] = [fst (stringOrdered a b); snd (stringOrdered a b)].
Proof.
  unfold sorted, stringOrdered. cbn [foldr sort_insert].
  destruct (SortCompare_lt b a); reflexivity.
Qed.

(** Sorting again changes nothing. *)
Lemma sorted_twice (a b : float) : sorted (sorted [a; b]) = sorted [a; b].
Proof.
  rewrite sorted_two. unfold stringOrdered.
  destruct (SortCompare_lt b a) eqn:E; cbn [fst snd];
    unfold sorted; cbn [foldr sort_insert].
  - rewrite (SortCompare_lt_asym b a E). reflexivity.
  - rewrite E. reflexivity.
Qed.

Lemma showLambdas_two (e0 e1 : eigenpair) (st : page) :
  showLambdas [e0; e1] st = (Ok (fresh (dom (store st))), twoShown e0 e1 st).
Proof.
  unfold showLambdas. cbn [map].
  erewrite bind_run by reflexivity.
  erewrite bind_run by (apply Array_sort_run; apply lookup_insert_eq).
  erewrite bind_run.
  2: { eapply index_toFixed_run; [apply lookup_insert_eq|lia|].
       rewrite sorted_two. reflexivity. }
  erewrite bind_run by reflexivity.
  erewrite bind_run by (apply Array_sort_run; apply lookup_insert_eq).
  erewrite bind_run.
  2: { eapply index_toFixed_run; [apply lookup_insert_eq|lia|].
       rewrite sorted_twice, sorted_two. reflexivity. }
  erewrite bind_run by reflexivity.
  unfold twoShown. cbv zeta. rewrite sorted_twice. reflexivity.
Qed.

Lemma drawResult_two_lambdas (Math_exp : float -> float) (st : page)
  (x y : Z) (e0 e1 : eigenpair) :
  lambda1 (snd (drawResult Math_exp x y [e0; e1] st))
  = JS.toFixed (snd (stringOrdered (value e0 / 1000) (value e1 / 1000)))
  /\ lambda2 (snd (drawResult Math_exp x y [e0; e1] st))
     = JS.toFixed (fst (stringOrdered (value e0 / 1000) (value e1 / 1000))).
Proof.
  unfold drawResult. erewrite bind_run by apply showLambdas_two.
  assert (Hd : draw_only
            (drawKernel Math_exp x y
             ≫= fun _ => drawArrows x y [e0; e1] 0 (fresh (dom (store st)))))
    by (apply draw_only_bind; [apply draw_only_drawKernel|];
        intros _; apply draw_only_drawArrows).
  destruct (Hd (twoShown e0 e1 st)) as [ops Hops]. rewrite Hops.
  split; reflexivity.
Qed.

(** ** The cells of the kernel overlay *)

Lemma for_M_draws (P : page -> Prop) (l : list Z)
  (body : Z -> unit -> M unit) (ops : Z -> list canvas_op) (st : page) :
  (forall st ops, P st -> P (add_drawn ops st)) ->
  (forall i u st, P st -> body i u st = (Ok tt, add_drawn (ops i) st)) ->
  P st ->
  for_M l body tt st = (Ok tt, add_drawn (concat (map ops l)) st).
Proof.
  intros HP Hbody. revert st. induction l as [|i l IH]; intros st Hst.
  - cbn. rewrite add_drawn_nil. reflexivity.
  - cbn [for_M map concat]. erewrite bind_run by (apply Hbody, Hst).
    rewrite IH by (apply HP, Hst). rewrite add_drawn_app. reflexivity.
Qed.

Lemma concat_map_prod {A B C : Type} (f : A * B -> C) (ys : list A)
  (xs : list B) :
  concat (map (fun y => map (fun x => f (y, x)) xs) ys)
  = map f (list_prod ys xs).
Proof.
  induction ys as [|y ys IH]; [reflexivity|].
  cbn [map concat list_prod]. rewrite map_app, map_map, IH. reflexivity.
Qed.

Lemma concat_map_singleton {A B : Type} (g : A -> B) (l : list A) :
  concat (map (fun x => [g x]) l) = map g l.
Proof. induction l as [|x l IH]; [reflexivity|]. cbn. rewrite IH. reflexivity. Qed.

Lemma drawKernel_run (Math_exp : float -> float) (x y : Z) (st : page)
  (kernel : list float) :
  generateGaussianKernel Math_exp (kernelSize st) (kernelSigma st) = Ok kernel ->
  drawKernel Math_exp x y st
  = (Ok tt,
     add_drawn (kernelCells (width st) (height st) (kernelSize st) kernel x y)
       st).
Proof.
  intros Hk. unfold drawKernel.
  do 3 (erewrite bind_run by reflexivity).
  erewrite bind_run by (unfold gaussianKernel; rewrite Hk; reflexivity).
  set (P := fun s : page =>
              width s = width st /\ height s = height st
              /\ kernelSize s = kernelSize st
              /\ kernelSigma s = kernelSigma st).
  assert (HP : forall s ops, P s -> P (add_drawn ops s)) by (intros s ops H; exact H).
  erewrite (for_M_draws P).
  - unfold kernelCells. cbv zeta. rewrite <- concat_map_prod. reflexivity.
  - exact HP.
  - intros ky u s Hs. destruct u.
    erewrite (for_M_draws P _ _ (fun kx => [_])); [|exact HP| |exact Hs].
    + rewrite concat_map_singleton. reflexivity.
    + intros kx u s' (Hw & Hh & Hsz & Hsg). destruct u.
      erewrite bind_run
        by (unfold gaussianKernel; rewrite Hsz, Hsg, Hk; reflexivity).
      reflexivity.
  - repeat split.
Qed.

(** ** What no run changes: the canvas size and the parameters *)

Lemma sameSetup_refl (st : page) : sameSetup st st.
Proof. repeat split. Qed.

Lemma sameSetup_trans (st1 st2 st3 : page) :
  sameSetup st1 st2 -> sameSetup st2 st3 -> sameSetup st1 st3.
Proof.
  intros (A1 & A2 & A3 & A4) (B1 & B2 & B3 & B4).
  repeat split; congruence.
Qed.

Lemma keepsSetup_readonly {A} (m : M A) : readonly m -> keepsSetup m.
Proof. intros Hm st. rewrite Hm. apply sameSetup_refl. Qed.

Lemma keepsSetup_bind {A B} (m : M A) (f : A -> M B) :
  keepsSetup m -> (forall a, keepsSetup (f a)) -> keepsSetup (m ≫= f).
Proof.
  intros Hm Hf st. specialize (Hm st). unfold mbind, M_bind.
  destruct (m st) as [[a|e] st1]; cbn [snd] in *; [|exact Hm].
  eapply sameSetup_trans; [exact Hm|apply Hf].
Qed.

Lemma keepsSetup_modify (f : page -> page) :
  (forall st, sameSetup st (f st)) -> keepsSetup (modify f).
Proof. intros Hf st. apply Hf. Qed.

Lemma keepsSetup_alloc (a : list float) : keepsSetup (alloc a).
Proof. intros st. repeat split. Qed.

Lemma keepsSetup_sort (l : loc) : keepsSetup (Array_sort l).
Proof.
  intros st. unfold Array_sort. destruct (store st !! l); repeat split.
Qed.

Lemma keepsSetup_draw (op : canvas_op) : keepsSetup (draw op).
Proof. intros st. repeat split. Qed.

Lemma keepsSetup_for_M {S} (l : list Z) (body : Z -> S -> M S) (init : S) :
  (forall i s, keepsSetup (body i s)) -> keepsSetup (for_M l body init).
Proof.
  intros Hbody. revert init. induction l as [|i l IH]; intros init.
  - apply keepsSetup_readonly, readonly_ret.
  - cbn [for_M]. apply keepsSetup_bind; [apply Hbody|]. intros s. apply IH.
Qed.

Section SetupKept.

Variable Math_exp : float -> float.
Variable eigs : list (list float) -> outcome (list eigenpair).

Ltac keeps_read lemma :=
  apply keepsSetup_bind; [apply keepsSetup_readonly, lemma|intros ?].

Lemma keepsSetup_Array_map (f : float -> Z -> float) (l : loc) :
  keepsSetup (Array_map f l).
Proof.
  unfold Array_map. keeps_read readonly_deref. apply keepsSetup_alloc.
Qed.

Lemma keepsSetup_computeGradients : keepsSetup computeGradients.
Proof.
  unfold computeGradients.
  keeps_read (@readonly_gets Z). keeps_read (@readonly_gets Z).
  destruct (_ || _); [apply keepsSetup_readonly, readonly_throw|].
  keeps_read (@readonly_gets (list Z)).
  destruct (gradientArrays _ _ _) as [ix iy].
  apply keepsSetup_bind; [apply keepsSetup_alloc|intros ?].
  apply keepsSetup_bind; [apply keepsSetup_alloc|intros ?].
  apply keepsSetup_modify. intros st. repeat split.
Qed.

Lemma keepsSetup_structureTensor (x y : Z) :
  keepsSetup (structureTensor Math_exp x y).
Proof.
  unfold structureTensor.
  keeps_read readonly_get_gradients.
  apply keepsSetup_bind; [apply keepsSetup_Array_map|intros ?].
  keeps_read readonly_applyGaussian.
  apply keepsSetup_bind; [apply keepsSetup_Array_map|intros ?].
  keeps_read readonly_applyGaussian.
  keeps_read readonly_deref.
  apply keepsSetup_bind; [apply keepsSetup_Array_map|intros ?].
  keeps_read readonly_applyGaussian.
  apply keepsSetup_readonly, readonly_ret.
Qed.

Lemma keepsSetup_showLambdas (eigenvectors : list eigenpair) :
  keepsSetup (showLambdas eigenvectors).
Proof.
  unfold showLambdas.
  apply keepsSetup_bind; [apply keepsSetup_alloc|intros ?].
  apply keepsSetup_bind; [apply keepsSetup_sort|intros ?].
  keeps_read readonly_index_toFixed.
  apply keepsSetup_bind;
    [apply keepsSetup_modify; intros; repeat split|intros ?].
  apply keepsSetup_bind; [apply keepsSetup_sort|intros ?].
  keeps_read readonly_index_toFixed.
  apply keepsSetup_bind;
    [apply keepsSetup_modify; intros; repeat split|intros ?].
  apply keepsSetup_readonly, readonly_ret.
Qed.

Lemma keepsSetup_drawKernel (x y : Z) : keepsSetup (drawKernel Math_exp x y).
Proof.
  unfold drawKernel.
  do 3 keeps_read (@readonly_gets Z).
  keeps_read readonly_gaussianKernel.
  apply keepsSetup_for_M. intros ky s. apply keepsSetup_for_M. intros kx s'.
  keeps_read readonly_gaussianKernel. apply keepsSetup_draw.
Qed.

Lemma keepsSetup_drawArrows (x y : Z) (eigenvectors : list eigenpair) (i : Z)
  (eigenvalues : loc) :
  keepsSetup (drawArrows x y eigenvectors i eigenvalues).
Proof.
  revert i. induction eigenvectors as [|vec rest IH]; intros i; cbn [drawArrows].
  - apply keepsSetup_readonly, readonly_ret.
  - keeps_read readonly_deref.
    apply keepsSetup_bind; [apply keepsSetup_draw|intros ?]. apply IH.
Qed.

Lemma keepsSetup_drawOverlay (x y : Z) :
  keepsSetup (drawOverlay Math_exp eigs x y).
Proof.
  unfold drawOverlay.
  do 2 keeps_read (@readonly_gets Z).
  apply keepsSetup_bind; [apply keepsSetup_draw|intros ?].
  apply keepsSetup_bind; [apply keepsSetup_draw|intros ?].
  apply keepsSetup_bind.
  - unfold computeEigenvectors.
    apply keepsSetup_bind; [apply keepsSetup_structureTensor|intros ?].
    apply keepsSetup_readonly, readonly_lift.
  - intros evs. unfold drawResult.
    apply keepsSetup_bind; [apply keepsSetup_showLambdas|intros ?].
    apply keepsSetup_bind; [apply keepsSetup_drawKernel|intros ?].
    apply keepsSetup_drawArrows.
Qed.

End SetupKept.

(** ** A pointer move as a function of the gradient field *)

Section PointerMove.

Variable Math_exp : float -> float.
Variable eigs : list (list float) -> outcome (list eigenpair).

(** The tensor stage reads the setup and the two gradient arrays, and
    nothing else of the state. *)
Lemma structureTensor_determined (sa sb : page) (g g' : gradient_field)
  (ix iy : list float) (x y : Z) :
  sameSetup sa sb -> Z.odd (kernelSize sa) = true ->
  gradients sa = Some g -> store sa !! Ix g = Some ix ->
  store sa !! Iy g = Some iy ->
  gradients sb = Some g' -> store sb !! Ix g' = Some ix ->
  store sb !! Iy g' = Some iy ->
  fst (structureTensor Math_exp x y sb) = fst (structureTensor Math_exp x y sa).
Proof.
  intros (Ew & Eh & Es & Eg) Hodd Hg Hix Hiy Hg' Hix' Hiy'.
  pose proof (generateGaussianKernel_cases Math_exp (kernelSize sa)
                (kernelSigma sa)) as Hk.
  rewrite <- Z.negb_odd, Hodd in Hk. cbn [negb] in Hk.
  destruct Hk as (kernel & Hk & _).
  rewrite (structureTensor_run Math_exp x y sa g ix iy kernel) by assumption.
  rewrite (structureTensor_run Math_exp x y sb g' ix iy kernel)
    by (try assumption; rewrite Es, Eg; exact Hk).
  rewrite Ew, Eh, Es. reflexivity.
Qed.

(** What a pointer move shows when the eigensolver returns two pairs. *)
Lemma drawOverlay_lambdas (st : page) (g : gradient_field)
  (ix iy kernel : list float) (x y : Z) (e0 e1 : eigenpair) :
  gradients st = Some g -> store st !! Ix g = Some ix ->
  store st !! Iy g = Some iy ->
  generateGaussianKernel Math_exp (kernelSize st) (kernelSigma st) = Ok kernel ->
  eigs (tensorAt (width st) (height st) (kernelSize st) kernel ix iy x y)
  = Ok [e0; e1] ->
  lambda1 (snd (drawOverlay Math_exp eigs x y st))
  = JS.toFixed (snd (stringOrdered (value e0 / 1000) (value e1 / 1000)))
  /\ lambda2 (snd (drawOverlay Math_exp eigs x y st))
     = JS.toFixed (fst (stringOrdered (value e0 / 1000) (value e1 / 1000))).
Proof.
  intros Hg Hix Hiy Hk Heigs. unfold drawOverlay.
  do 4 (erewrite bind_run by reflexivity).
  set (st1 := with_drawn _ (with_drawn _ st)).
  erewrite bind_run.
  2: { unfold computeEigenvectors. erewrite bind_run.
       2: { rewrite (surjective_pairing (structureTensor _ _ _ _)).
            apply pair_equal_spec. split; [|reflexivity].
            apply (structureTensor_run Math_exp x y st1 g ix iy kernel);
              assumption. }
       unfold lift. cbn [width height kernelSize st1 with_drawn].
       rewrite Heigs. reflexivity. }
  apply drawResult_two_lambdas.
Qed.

End PointerMove.

(** ** Rounding with a sign *)

Section SignedRounding.

Local Open Scope R_scope.

Lemma fin0_finite (x : spec_float) : fin0 x -> finite x.
Proof. destruct x as [| | |[]]; cbn; auto. Qed.

Lemma SF2R_opp (x : spec_float) : SF2R (SFopp x) = - SF2R x.
Proof.
  destruct x as [s|s| |s m e]; cbn [SFopp SF2R]; try lra.
  destruct s; cbn [negb]; lra.
Qed.

Lemma finite_opp (x : spec_float) : finite x -> finite (SFopp x).
Proof. destruct x; cbn; auto. Qed.

(** The sign of a rounding is the sign it is given. *)
Lemma binary_round_aux_opp (m e : Z) (l : location) :
  binary_round_aux prec emax true m e l
  = SFopp (binary_round_aux prec emax false m e l).
Proof.
  unfold binary_round_aux.
  destruct (shr_fexp prec emax m e l) as [mrs e'].
  destruct (shr_fexp prec emax _ e' loc_Exact) as [mrs' e''].
  destruct (shr_m mrs'); [reflexivity| |reflexivity].
  destruct (e'' <=? emax - prec)%Z; reflexivity.
Qed.

Lemma near_nearS (t : R) (z : spec_float) : 0 <= t -> near t z -> nearS t z.
Proof.
  intros Ht [Hf He]. split; [apply fin0_finite, Hf|].
  rewrite (Rabs_pos_eq t Ht). exact He.
Qed.

Lemma nearS_opp (t : R) (z : spec_float) : nearS t z -> nearS (- t) (SFopp z).
Proof.
  intros [Hf He]. split; [apply finite_opp, Hf|].
  rewrite SF2R_opp, Rabs_Ropp.
  replace (- SF2R z - - t) with (- (SF2R z - t)) by lra.
  rewrite Rabs_Ropp. exact He.
Qed.

(** One exact mantissa at an exponent, rounded with a sign. *)
Lemma binary_round_aux_nearS (s : bool) (m e : Z) :
  (0 <= m)%Z -> (e <= 970)%Z -> IZR m * pow2 e <= pow2 900 ->
  nearS ((if s then -1 else 1) * (IZR m * pow2 e))
    (binary_round_aux prec emax s m e loc_Exact).
Proof.
  intros Hm He Ht.
  assert (H0 : 0 <= IZR m * pow2 e).
  { apply Rmult_le_pos; [apply IZR_le, Hm|apply Rlt_le, pow2_pos]. }
  assert (Hn : near (IZR m * pow2 e)
                 (binary_round_aux prec emax false m e loc_Exact)).
  { apply binary_round_aux_near; try assumption. left. split; reflexivity. }
  destruct s.
  - rewrite binary_round_aux_opp.
    replace (-1 * (IZR m * pow2 e)) with (- (IZR m * pow2 e)) by lra.
    apply nearS_opp, near_nearS; assumption.
  - rewrite Rmult_1_l. apply near_nearS; assumption.
Qed.

Lemma nearS_zero (s : bool) : nearS 0 (S754_zero s).
Proof.
  split; [exact I|]. cbn [SF2R]. rewrite Rminus_0_r, Rabs_R0.
  pose proof (pow2_pos (-1074)). unfold eta. lra.
Qed.

Lemma nearS_exact (x : spec_float) : finite x -> nearS (SF2R x) x.
Proof.
  intros Hx. split; [exact Hx|].
  replace (SF2R x - SF2R x) with 0 by lra. rewrite Rabs_R0.
  pose proof (pow2_pos (-1074)). pose proof (Rabs_pos (SF2R x)).
  unfold eta, eps. nra.
Qed.

Lemma SF2R_signed (s : bool) (m : positive) (e : Z) :
  SF2R (S754_finite s m e) = (if s then -1 else 1) * (IZR (Z.pos m) * pow2 e).
Proof. cbn [SF2R]. destruct s; lra. Qed.

Lemma SF2R_abs (s : bool) (m : positive) (e : Z) :
  Rabs (SF2R (S754_finite s m e)) = IZR (Z.pos m) * pow2 e.
Proof.
  rewrite SF2R_signed.
  assert (0 <= IZR (Z.pos m) * pow2 e).
  { apply Rmult_le_pos; [apply IZR_le; lia|apply Rlt_le, pow2_pos]. }
  destruct s.
  - replace (-1 * (IZR (Z.pos m) * pow2 e)) with (- (IZR (Z.pos m) * pow2 e)) by lra.
    rewrite Rabs_Ropp. apply Rabs_pos_eq. assumption.
  - rewrite Rmult_1_l. apply Rabs_pos_eq. assumption.
Qed.

Lemma SFmul_nearS (x y : spec_float) :
  finite x -> finite y -> Rabs (SF2R x) * Rabs (SF2R y) <= pow2 900 ->
  nearS (SF2R x * SF2R y) (SFmul prec emax x y).
Proof.
  intros Hx Hy Ht.
  destruct x as [sx|sx| |sx mx ex]; try contradiction;
    destruct y as [sy|sy| |sy my ey]; try contradiction;
    cbn [SFmul]; try (cbn [SF2R]; rewrite ?Rmult_0_l, ?Rmult_0_r; apply nearS_zero).
  rewrite !SF2R_abs in Ht.
  pose proof (pow2_pos ex). pose proof (pow2_pos ey).
  assert (H1x : 1 <= IZR (Z.pos mx)) by (apply IZR_le; lia).
  assert (H1y : 1 <= IZR (Z.pos my)) by (apply IZR_le; lia).
  assert (Hv : IZR (Z.pos (mx * my)) * pow2 (ex + ey)
               = IZR (Z.pos mx) * pow2 ex * (IZR (Z.pos my) * pow2 ey)).
  { rewrite Pos2Z.inj_mul, mult_IZR, pow2_add. ring. }
  replace (SF2R (S754_finite sx mx ex) * SF2R (S754_finite sy my ey))
    with ((if xorb sx sy then -1 else 1)
          * (IZR (Z.pos (mx * my)) * pow2 (ex + ey))).
  2: { rewrite Hv, !SF2R_signed. destruct sx, sy; cbn [xorb]; ring. }
  apply binary_round_aux_nearS.
  - lia.
  - assert (Hle : pow2 (ex + ey) <= pow2 900).
    { rewrite pow2_add.
      apply Rle_trans
        with (IZR (Z.pos mx) * pow2 ex * (IZR (Z.pos my) * pow2 ey));
        [|exact Ht].
      apply Rmult_le_compat; nra. }
    apply pow2_le_inv in Hle. lia.
  - rewrite Hv. exact Ht.
Qed.

(** The sign of a square is +. *)
Lemma SFmul_square (x : spec_float) :
  finite x -> SF2R x * SF2R x <= pow2 900 ->
  near (SF2R x * SF2R x) (SFmul prec emax x x).
Proof.
  intros Hx Ht.
  destruct x as [sx|sx| |sx mx ex]; try contradiction.
  - cbn [SFmul SF2R]. rewrite Rmult_0_l. apply near_zero.
  - cbn [SFmul]. rewrite Bool.xorb_nilpotent.
    pose proof (pow2_pos ex).
    assert (H1x : 1 <= IZR (Z.pos mx)) by (apply IZR_le; lia).
    assert (Hv : IZR (Z.pos (mx * mx)) * pow2 (ex + ex)
                 = SF2R (S754_finite sx mx ex) * SF2R (S754_finite sx mx ex)).
    { rewrite Pos2Z.inj_mul, mult_IZR, pow2_add, !SF2R_signed.
      destruct sx; ring. }
    apply binary_round_aux_near.
    + lia.
    + assert (Hle : pow2 (ex + ex) <= pow2 900).
      { rewrite pow2_add. rewrite <- Hv in Ht.
        rewrite Pos2Z.inj_mul, mult_IZR, pow2_add in Ht.
        apply Rle_trans with (2 := Ht).
        replace (pow2 ex * pow2 ex) with (1 * 1 * (pow2 ex * pow2 ex)) at 1 by ring.
        apply Rmult_le_compat_r; [nra|]. nra. }
      apply pow2_le_inv in Hle. lia.
    + exact Ht.
    + left. split; [reflexivity|]. symmetry. exact Hv.
Qed.

(** A rounding of a positive mantissa with a sign, through
    [binary_round]. *)
Lemma binary_round_nearS (s : bool) (m : positive) (e : Z) :
  (e <= 970)%Z -> IZR (Z.pos m) * pow2 e <= pow2 900 ->
  nearS ((if s then -1 else 1) * (IZR (Z.pos m) * pow2 e))
    (binary_round prec emax s m e).
Proof.
  intros He Ht. unfold binary_round.
  set (F := fexp prec emax (Z.pos (digits2_pos m) + e)).
  destruct (shl_align_any m e F) as [Hle Hv].
  destruct (shl_align m e F) as [mz ez]. cbn [fst snd] in Hle, Hv.
  rewrite <- Hv. apply binary_round_aux_nearS.
  - lia.
  - lia.
  - rewrite Hv. exact Ht.
Qed.

Lemma binary_normalize_nearS (M e : Z) :
  (e <= 970)%Z -> Rabs (IZR M * pow2 e) <= pow2 900 ->
  nearS (IZR M * pow2 e) (binary_normalize prec emax M e false).
Proof.
  intros He Ht. pose proof (pow2_pos e) as Hp.
  destruct M as [|p|p]; cbn [binary_normalize].
  - rewrite Rmult_0_l. apply nearS_zero.
  - replace (IZR (Z.pos p) * pow2 e) with (1 * (IZR (Z.pos p) * pow2 e)) by lra.
    apply (binary_round_nearS false); [exact He|].
    rewrite Rabs_pos_eq in Ht; [exact Ht|].
    apply Rmult_le_pos; [apply IZR_le; lia|lra].
  - replace (IZR (Z.neg p) * pow2 e) with (-1 * (IZR (Z.pos p) * pow2 e)).
    2: { change (Z.neg p) with (- Z.pos p)%Z. rewrite opp_IZR. ring. }
    apply (binary_round_nearS true); [exact He|].
    replace (IZR (Z.neg p) * pow2 e) with (- (IZR (Z.pos p) * pow2 e)) in Ht.
    2: { change (Z.neg p) with (- Z.pos p)%Z. rewrite opp_IZR. ring. }
    rewrite Rabs_Ropp, Rabs_pos_eq in Ht; [exact Ht|].
    apply Rmult_le_pos; [apply IZR_le; lia|lra].
Qed.

Lemma cond_Zopp_R (s : bool) (m : Z) :
  IZR (cond_Zopp s m) = (if s then -1 else 1) * IZR m.
Proof. destruct s; cbn [cond_Zopp]; [rewrite opp_IZR|]; lra. Qed.

Lemma SFadd_nearS (x y : spec_float) :
  finite x -> finite y -> Rabs (SF2R x) + Rabs (SF2R y) <= pow2 900 ->
  nearS (SF2R x + SF2R y) (SFadd prec emax x y).
Proof.
  intros Hx Hy Ht.
  destruct x as [sx|sx| |sx mx ex]; try contradiction;
    destruct y as [sy|sy| |sy my ey]; try contradiction.
  - cbn [SF2R]. rewrite Rplus_0_l.
    destruct sx, sy; apply nearS_zero.
  - cbn [SFadd]. change (SF2R (S754_zero sx)) with 0. rewrite Rplus_0_l.
    apply nearS_exact. exact I.
  - cbn [SFadd]. change (SF2R (S754_zero sy)) with 0. rewrite Rplus_0_r.
    apply nearS_exact. exact I.
  - cbn [SFadd]. rewrite !SF2R_abs in Ht.
    destruct (shl_align_R mx ex (Z.min ex ey) ltac:(lia)) as [_ Hvx].
    destruct (shl_align_R my ey (Z.min ex ey) ltac:(lia)) as [_ Hvy].
    set (ax := fst (shl_align mx ex (Z.min ex ey))) in *.
    set (ay := fst (shl_align my ey (Z.min ex ey))) in *.
    pose proof (pow2_pos ex) as Hpx. pose proof (pow2_pos ey) as Hpy.
    assert (H1x : 1 <= IZR (Z.pos mx)) by (apply IZR_le; lia).
    assert (H1y : 1 <= IZR (Z.pos my)) by (apply IZR_le; lia).
    assert (Hx0 : pow2 ex <= IZR (Z.pos mx) * pow2 ex) by nra.
    assert (Hy0 : pow2 ey <= IZR (Z.pos my) * pow2 ey) by nra.
    assert (Hsum : IZR (cond_Zopp sx (Z.pos ax) + cond_Zopp sy (Z.pos ay))
                   * pow2 (Z.min ex ey)
                   = SF2R (S754_finite sx mx ex) + SF2R (S754_finite sy my ey)).
    { rewrite plus_IZR, !cond_Zopp_R, !SF2R_signed, <- Hvx, <- Hvy. ring. }
    rewrite <- Hsum. apply binary_normalize_nearS.
    + assert (H : pow2 ex <= pow2 900) by lra.
      apply pow2_le_inv in H. lia.
    + rewrite Hsum.
      apply Rle_trans with (2 := Ht).
      apply Rle_trans with (1 := Rabs_triang _ _).
      rewrite !SF2R_abs. lra.
Qed.

Lemma Fin0_Finite (x : float) : Fin0 x -> Finite x.
Proof. apply fin0_finite. Qed.

Lemma mul_signed (x y : float) :
  Finite x -> Finite y -> Rabs (Rval x) * Rabs (Rval y) <= pow2 900 ->
  NearS (Rval x * Rval y) (x * y)%float.
Proof.
  intros Hx Hy Ht. unfold NearS, Rval in *. rewrite mul_spec.
  apply SFmul_nearS; assumption.
Qed.

Lemma add_signed (x y : float) :
  Finite x -> Finite y -> Rabs (Rval x) + Rabs (Rval y) <= pow2 900 ->
  NearS (Rval x + Rval y) (x + y)%float.
Proof.
  intros Hx Hy Ht. unfold NearS, Rval in *. rewrite add_spec.
  apply SFadd_nearS; assumption.
Qed.

Lemma mul_square (x : float) :
  Finite x -> Rval x * Rval x <= pow2 900 ->
  Near (Rval x * Rval x) (x * x)%float.
Proof.
  intros Hx Ht. unfold Near, Rval in *. rewrite mul_spec.
  apply SFmul_square; assumption.
Qed.

End SignedRounding.

(** ** Sums of rounded numbers of either sign *)

Section SignedSums.

Local Open Scope R_scope.

Lemma leb_upper (x hi : float) :
  PosFin hi -> (0 <=? x)%float = true -> (x <=? hi)%float = true ->
  Fin0 x /\ Rval x <= Rval hi.
Proof.
  intros (mh & eh & Hh). rewrite !leb_spec.
  pose proof (Prim2SF_valid x) as Vx. pose proof (Prim2SF_valid hi) as Vh.
  unfold Fin0, Rval. rewrite Hh in *.
  change (Prim2SF 0) with (S754_zero false).
  destruct (Prim2SF x) as [s|s| |s m e].
  - intros _ _. split; [exact I|]. cbn [SF2R].
    pose proof (SF2R_pos mh eh) as H. pose proof (pow2_pos eh). cbn [SF2R] in H. lra.
  - destruct s; cbn; discriminate.
  - cbn. discriminate.
  - destruct s; [cbn; discriminate|]. intros _ H.
    split; [exact I|]. apply SFleb_R; assumption.
Qed.

Lemma NearS_bounds (t : R) (x : float) :
  NearS t x -> Finite x /\ Rabs (Rval x - t) <= eps * Rabs t + eta.
Proof. intros H. exact H. Qed.

Lemma Rabs_near (a t d : R) : Rabs (a - t) <= d -> Rabs a <= Rabs t + d.
Proof.
  intros H. replace a with (t + (a - t)) at 1 by lra.
  eapply Rle_trans; [apply Rabs_triang|]. lra.
Qed.

Context {K : Type} (v : K -> float).

Lemma magSum_nil : magSum v [] = 0.
Proof. reflexivity. Qed.

Lemma magSum_cons (k : K) (ks : list K) :
  magSum v (k :: ks) = Rabs (Rval (v k)) + magSum v ks.
Proof. reflexivity. Qed.

Lemma magSum_nonneg (ks : list K) : 0 <= magSum v ks.
Proof.
  induction ks as [|k ks IH]; [rewrite magSum_nil; lra|].
  rewrite magSum_cons. pose proof (Rabs_pos (Rval (v k))). lra.
Qed.

Lemma magSum_le (ks : list K) (bound : R) :
  (forall k, k ∈ ks -> Rabs (Rval (v k)) <= bound) ->
  magSum v ks <= INR (length ks) * bound.
Proof.
  induction ks as [|k ks IH]; intros H.
  - rewrite magSum_nil. cbn [length INR]. lra.
  - rewrite magSum_cons. cbn [length]. rewrite S_INR.
    assert (Rabs (Rval (v k)) <= bound) by (apply H; left).
    assert (magSum v ks <= INR (length ks) * bound)
      by (apply IH; intros k' Hk'; apply H; right; exact Hk').
    lra.
Qed.

(** The accumulated sum [sum += value] of values of either sign: it is
    finite while the magnitudes stay below [B], and it differs from the
    exact sum by one rounding of at most [B] per step. *)
Lemma fold_add_signed (ks : list K) (a : float) (B : R) :
  (forall k, k ∈ ks -> Finite (v k)) -> Finite a ->
  (1 + eps) ^ length ks
  * (Rabs (Rval a) + magSum v ks + INR (length ks) * eta) <= B ->
  B <= pow2 900 ->
  Finite (fold_left (fun s k => (s + v k)%float) ks a)
  /\ Rabs (Rval (fold_left (fun s k => (s + v k)%float) ks a)
           - (Rval a + exactSum v ks))
     <= INR (length ks) * (eps * B + eta).
Proof.
  pose proof eps_pos as He. pose proof eta_pos as Hη.
  intros Hv Ha HB HB9. revert a Hv Ha HB.
  induction ks as [|k ks IH]; intros a Hv Ha HB.
  - cbn [fold_left length INR]. rewrite exactSum_nil.
    split; [exact Ha|].
    replace (Rval a - (Rval a + 0)) with 0 by lra. rewrite Rabs_R0. lra.
  - assert (Hk : Finite (v k)) by (apply Hv; left).
    assert (Hv' : forall k', k' ∈ ks -> Finite (v k'))
      by (intros k' Hk'; apply Hv; right; exact Hk').
    pose proof (magSum_nonneg ks) as Hm0.
    pose proof (pos_INR (length ks)) as Hn0.
    pose proof (Rabs_pos (Rval a)) as Ha0.
    pose proof (Rabs_pos (Rval (v k))) as Hk0.
    assert (Hu : 1 <= (1 + eps) ^ length ks) by (apply pow_R1_Rle; lra).
    cbn [length fold_left] in *. rewrite S_INR in *.
    change ((1 + eps) ^ S (length ks))
      with ((1 + eps) * (1 + eps) ^ length ks) in *.
    rewrite exactSum_cons, magSum_cons in *.
    set (U := (1 + eps) ^ length ks) in *.
    set (T := magSum v ks) in *. set (n := INR (length ks)) in *.
    set (A := Rabs (Rval a)) in *. set (V := Rabs (Rval (v k))) in *.
    assert (Hne : 0 <= n * eta) by (apply Rmult_le_pos; lra).
    set (W := A + (V + T) + (n + 1) * eta) in *.
    assert (HW0 : 0 <= W) by (unfold W; lra).
    assert (HWB : (1 + eps) * W <= B).
    { apply Rle_trans with (2 := HB). rewrite Rmult_assoc.
      apply Rmult_le_compat_l; [lra|].
      replace W with (1 * W) at 1 by lra.
      apply Rmult_le_compat_r; lra. }
    assert (HeW : 0 <= eps * W) by (apply Rmult_le_pos; lra).
    assert (Hsmall : A + V <= pow2 900) by (unfold W in *; lra).
    destruct (NearS_bounds _ _ (add_signed a (v k) Ha Hk Hsmall)) as [Hf Hr].
    pose proof (Rabs_triang (Rval a) (Rval (v k))) as Htri. fold A V in Htri.
    assert (HeAV : eps * Rabs (Rval a + Rval (v k)) <= eps * (A + V))
      by (apply Rmult_le_compat_l; lra).
    pose proof (Rabs_near _ _ _ Hr) as Ha1.
    set (A1 := Rabs (Rval (a + v k)%float)) in *.
    destruct (IH (a + v k)%float Hv' Hf) as [Hfr Herr].
    { fold A1 T n U.
      apply Rle_trans with (2 := HB).
      rewrite (Rmult_comm (1 + eps) U), Rmult_assoc.
      apply Rmult_le_compat_l; [lra|].
      assert (0 <= eps * (T + (n + 1) * eta)) by (apply Rmult_le_pos; lra).
      unfold W. lra. }
    split; [exact Hfr|].
    set (F := Rval (fold_left (fun s k0 => (s + v k0)%float) ks (a + v k)%float)) in *.
    replace (F - (Rval a + (Rval (v k) + exactSum v ks)))
      with ((F - (Rval (a + v k)%float + exactSum v ks))
            + (Rval (a + v k)%float - (Rval a + Rval (v k)))) by lra.
    eapply Rle_trans; [apply Rabs_triang|].
    assert (eps * (A + V) <= eps * B).
    { apply Rmult_le_compat_l; [lra|]. unfold W in *. lra. }
    lra.
Qed.

End SignedSums.

(** ** The luminance of a pixel *)

(** Checked on each of the 256 bytes: the size of the three terms of the
    luminance. *)
Lemma luminance_terms_checked :
  forallb (fun t => (0 <=? t)%float && (t <=? 76.5)%float) red_terms
  && forallb (fun t => (0 <=? t)%float && (t <=? 150.5)%float) green_terms
  && forallb (fun t => (0 <=? t)%float && (t <=? 28.125)%float) blue_terms
  = true.
Proof. vm_compute. reflexivity. Qed.

Section GradientRange.

Local Open Scope R_scope.

Ltac closed_Rval x :=
  rewrite (Rval_closed x _ _ eq_refl);
  match goal with
  | |- context [IZR (2 ^ Z.pos ?p)] =>
      let z := eval vm_compute in (2 ^ Z.pos p)%Z in
      change (2 ^ Z.pos p)%Z with z
  end.

Lemma term_range (c : float) (hi : float) (terms : list float) (b : Z) :
  terms = map (fun b => (c * JS.of_Z b)%float) (seqZ 0 256) ->
  forallb (fun t => (0 <=? t)%float && (t <=? hi)%float) terms = true ->
  PosFin hi -> (0 <= b <= 255)%Z ->
  Fin0 (c * JS.of_Z b)%float /\ Rval (c * JS.of_Z b)%float <= Rval hi.
Proof.
  intros -> Hall Hhi Hb.
  rewrite forallb_forall in Hall.
  assert (Hin : In (c * JS.of_Z b)%float
                  (map (fun b => (c * JS.of_Z b)%float) (seqZ 0 256))).
  { apply (in_map (fun b => (c * JS.of_Z b)%float)).
    apply list_elem_of_In, elem_of_seqZ. lia. }
  apply Hall in Hin. apply andb_prop in Hin as [H0 H1].
  apply leb_upper; assumption.
Qed.

(** The luminance of a colour is a number between 0 and 255.2. *)
Lemma gray_range (r g b : Z) :
  (0 <= r <= 255)%Z -> (0 <= g <= 255)%Z -> (0 <= b <= 255)%Z ->
  Fin0 (gray r g b) /\ Rval (gray r g b) <= 2552 / 10.
Proof.
  intros Hr Hg Hb.
  pose proof luminance_terms_checked as H.
  apply andb_prop in H as [H Hblue]. apply andb_prop in H as [Hred Hgreen].
  destruct (term_range 0.3 76.5 red_terms r eq_refl Hred
              (PosFin_closed 76.5 _ _ eq_refl) Hr) as [Fr Br].
  destruct (term_range 0.59 150.5 green_terms g eq_refl Hgreen
              (PosFin_closed 150.5 _ _ eq_refl) Hg) as [Fg Bg].
  destruct (term_range 0.11 28.125 blue_terms b eq_refl Hblue
              (PosFin_closed 28.125 _ _ eq_refl) Hb) as [Fb Bb].
  assert (E1 : Rval 76.5 = 765 / 10) by (closed_Rval (76.5)%float; lra).
  assert (E2 : Rval 150.5 = 1505 / 10) by (closed_Rval (150.5)%float; lra).
  assert (E3 : Rval 28.125 = 28125 / 1000) by (closed_Rval (28.125)%float; lra).
  rewrite E1 in Br. rewrite E2 in Bg. rewrite E3 in Bb.
  pose proof (Fin0_nonneg _ Fr) as Pr. pose proof (Fin0_nonneg _ Fg) as Pg.
  pose proof (Fin0_nonneg _ Fb) as Pb.
  pose proof pow2_900_large as Hbig.
  pose proof eps_small as He. pose proof eps_pos as He0.
  pose proof eta_small as Hη. pose proof eta_pos as Hη0.
  unfold gray.
  set (tr := (0.3 * JS.of_Z r)%float) in *.
  set (tg := (0.59 * JS.of_Z g)%float) in *.
  set (tb := (0.11 * JS.of_Z b)%float) in *.
  destruct (Near_bounds _ _ (add_near tr tg Fr Fg ltac:(lra))) as [Frg [_ Brg]].
  pose proof (Fin0_nonneg _ Frg) as Prg.
  assert (Hrg : Rval (tr + tg)%float <= 227001 / 1000).
  { assert (eps * (Rval tr + Rval tg) <= / 1000000000000000 * 227)
      by (apply Rmult_le_compat; lra).
    lra. }
  destruct (Near_bounds _ _ (add_near (tr + tg)%float tb Frg Fb ltac:(lra)))
    as [Ft [_ Bt]].
  split; [exact Ft|].
  assert (eps * (Rval (tr + tg)%float + Rval tb) <= / 1000000000000000 * 256)
    by (apply Rmult_le_compat; lra).
  lra.
Qed.

Lemma luminance_range (data : list Z) (width height x y : Z) :
  imageData data width height ->
  (0 <= x < width)%Z -> (0 <= y < height)%Z ->
  Fin0 (luminance data width x y)
  /\ Rval (luminance data width x y) <= 2552 / 10.
Proof.
  intros [Hlen Hbytes] Hx Hy. unfold luminance. cbv zeta.
  set (p := (y * width + x)%Z).
  assert (Hp : (0 <= p < width * height)%Z) by (unfold p; nia).
  assert (Hbyte : forall i, (0 <= i < 3)%Z ->
            exists c, data !! Z.to_nat (4 * p + i) = Some c /\ (0 <= c <= 255)%Z).
  { intros i Hi.
    destruct (lookup_lt_is_Some_2 data (Z.to_nat (4 * p + i)) ltac:(lia))
      as [c Hc].
    exists c. split; [exact Hc|].
    exact (proj1 (Forall_lookup _ _) Hbytes _ _ Hc). }
  destruct (Hbyte 0%Z ltac:(lia)) as (r & Hr & Rr).
  destruct (Hbyte 1%Z ltac:(lia)) as (g & Hg & Rg).
  destruct (Hbyte 2%Z ltac:(lia)) as (b & Hb & Rb).
  rewrite Z.add_0_r in Hr.
  unfold byte_get.
  destruct (Z.ltb_spec (4 * p) 0); [lia|].
  destruct (Z.ltb_spec (4 * p + 1) 0); [lia|].
  destruct (Z.ltb_spec (4 * p + 2) 0); [lia|].
  rewrite Hr, Hg, Hb. cbn [from_option].
  apply gray_range; assumption.
Qed.

Lemma Rval_m1 : Rval (-1) = -1.
Proof.
  unfold Rval. change (Prim2SF (-1)) with (S754_finite true 4503599627370496 (-52)).
  cbn [SF2R]. change (-52)%Z with (- (52))%Z. rewrite pow2_neg, <- pow2_IZR by lia.
  change (2 ^ 52)%Z with 4503599627370496%Z. field.
Qed.

Lemma Rval_m2 : Rval (-2) = -2.
Proof.
  unfold Rval. change (Prim2SF (-2)) with (S754_finite true 4503599627370496 (-51)).
  cbn [SF2R]. change (-51)%Z with (- (51))%Z. rewrite pow2_neg, <- pow2_IZR by lia.
  change (2 ^ 51)%Z with 2251799813685248%Z. field.
Qed.

(** One product of the Sobel sum: a luminance times an entry [E] of
    magnitude at most 2. *)
Lemma sobel_term (l e : float) (E : R) :
  Fin0 l -> Rval l <= 2552 / 10 -> Finite e -> Rval e = E -> Rabs E <= 2 ->
  Finite (l * e)%float
  /\ Rabs (Rval (l * e)%float - Rval l * E) <= / 1000000000000
  /\ Rabs (Rval (l * e)%float) <= 511.
Proof.
  intros Fl Bl Fe He HE.
  pose proof (Fin0_nonneg _ Fl) as Pl.
  pose proof pow2_900_large as Hbig.
  pose proof eps_small as Hes. pose proof eps_pos as He0.
  pose proof eta_small as Hη. pose proof eta_pos as Hη0.
  pose proof (Rabs_pos E) as HE0.
  assert (Hprod : Rabs (Rval l) * Rabs (Rval e) <= 2552 / 10 * 2).
  { rewrite He, (Rabs_pos_eq _ Pl). apply Rmult_le_compat; lra. }
  destruct (NearS_bounds _ _ (mul_signed l e (Fin0_Finite _ Fl) Fe ltac:(lra)))
    as [Ff Hr].
  rewrite He in Hr.
  assert (Hmag : Rabs (Rval l * E) <= 2552 / 10 * 2).
  { rewrite Rabs_mult, (Rabs_pos_eq _ Pl). apply Rmult_le_compat; lra. }
  assert (Hem : eps * Rabs (Rval l * E) <= / 1000000000000000 * (2552 / 10 * 2))
    by (apply Rmult_le_compat; try lra; apply Rabs_pos).
  split; [exact Ff|]. split; [lra|].
  apply Rabs_near in Hr. lra.
Qed.

End GradientRange.

(** ** The Sobel sums of an image of bytes *)

Section SobelRange.

Local Open Scope R_scope.

Lemma Rabs_le_2 (x : R) : -2 <= x <= 2 -> Rabs x <= 2.
Proof. intros H. apply Rabs_le. lra. Qed.

Lemma pow_1_eps_9 : (1 + eps) ^ 9 <= 1 + / 1000000000000.
Proof.
  pose proof eps_small as He. pose proof eps_pos as He0.
  eapply Rle_trans; [apply pow_up; cbn [INR]; lra|]. cbn [INR]. lra.
Qed.

Ltac entry_values :=
  repeat match goal with
         | |- context [entry ?r ?a ?b] =>
             let c := eval vm_compute in (entry r a b) in
             change (entry r a b) with c
         | H : context [entry ?r ?a ?b] |- _ =>
             let c := eval vm_compute in (entry r a b) in
             change (entry r a b) with c in H
         end.

Ltac entry_reals :=
  rewrite ?Rval_m1, ?Rval_m2, ?Rval_1, ?Rval_2, ?Rval_0.

Ltac sobel_range rows :=
  match goal with
  | Hd : imageData ?data ?W ?H, Hx : (1 <= ?x < _)%Z, Hy : (1 <= ?y < _)%Z |- _ =>
      pose proof pow2_900_large as Hbig;
      pose proof eps_small as Hes; pose proof eps_pos as He0;
      pose proof eta_small as Hη; pose proof eta_pos as Hη0;
      pose proof pow_1_eps_9 as Hp9;
      assert (HL : forall kx ky, (-1 <= kx <= 1)%Z -> (-1 <= ky <= 1)%Z ->
                Fin0 (luminance data W (x + kx) (y + ky))
                /\ Rval (luminance data W (x + kx) (y + ky)) <= 2552 / 10)
        by (intros kx ky Hkx Hky; apply (luminance_range data W H); [exact Hd|lia|lia]);
      unfold sobelSum;
      set (v := fun k : Z * Z =>
                  (luminance data W (x + fst k) (y + snd k)
                   * entry rows (fst k) (snd k))%float);
      change (fold_left _ neighbourhood 0%float)
        with (fold_left (fun acc k => (acc + v k)%float) neighbourhood 0%float);
      assert (HT : Forall (fun k =>
                  Finite (v k)
                  /\ Rabs (Rval (v k)
                           - Rval (luminance data W (x + fst k) (y + snd k))
                             * Rval (entry rows (fst k) (snd k)))
                     <= / 1000000000000
                  /\ Rabs (Rval (v k)) <= 511) neighbourhood)
        by (unfold neighbourhood;
            repeat (constructor;
                    [unfold v; cbn [fst snd];
                     apply sobel_term;
                     [apply HL; lia|apply HL; lia
                     |entry_values; exact I|reflexivity
                     |entry_values; entry_reals; apply Rabs_le_2; lra]|]);
            constructor)
  end.

Ltac sobel_bound rows :=
  sobel_range rows;
  match goal with
  | v := _ : Z * Z -> float, HT : Forall _ neighbourhood,
    HL : (forall kx ky : Z, _) |- _ =>
  destruct (fold_add_signed v neighbourhood 0%float 5000) as [Hf Herr];
  [ intros k Hk; exact (proj1 (proj1 (Forall_forall _ _) HT k Hk))
  | exact I
  | rewrite Rval_0, Rabs_R0;
    assert (Hm : magSum v neighbourhood <= INR (length neighbourhood) * 511)
      by (apply magSum_le; intros k Hk;
          exact (proj2 (proj2 (proj1 (Forall_forall _ _) HT k Hk))));
    pose proof (magSum_nonneg v neighbourhood) as Hm0;
    change (length neighbourhood) with 9%nat in *;
    replace (INR 9) with 9 in * by (cbn [INR]; lra);
    set (S := 0 + magSum v neighbourhood + 9 * eta) in *;
    assert (HS : 0 <= S <= 4600) by (unfold S; lra);
    assert ((1 + eps) ^ 9 * S <= (1 + / 1000000000000) * S)
      by (apply Rmult_le_compat_r; lra);
    lra
  | lra
  | split; [exact Hf|];
    change (length neighbourhood) with 9%nat in Herr;
    replace (INR 9) with 9 in Herr by (cbn [INR]; lra);
    rewrite Rval_0 in Herr;
    set (F := Rval (fold_left _ neighbourhood 0%float)) in *;
    unfold neighbourhood in HT, Herr;
    rewrite !exactSum_cons, exactSum_nil in Herr;
    repeat match goal with
           | H : Forall _ (_ :: _) |- _ =>
               apply Forall_cons in H;
               let A := fresh "A" in
               let B := fresh "B" in
               destruct H as [(_ & A & _) B]; cbn [fst snd] in A
           end;
    entry_values; rewrite ?Rval_m1, ?Rval_m2, ?Rval_1, ?Rval_2, ?Rval_0 in *;
    pose proof (HL (-1)%Z (-1)%Z ltac:(lia) ltac:(lia)) as [F1 L1];
    pose proof (HL 0%Z (-1)%Z ltac:(lia) ltac:(lia)) as [F2 L2];
    pose proof (HL 1%Z (-1)%Z ltac:(lia) ltac:(lia)) as [F3 L3];
    pose proof (HL (-1)%Z 0%Z ltac:(lia) ltac:(lia)) as [F4 L4];
    pose proof (HL 0%Z 0%Z ltac:(lia) ltac:(lia)) as [F5 L5];
    pose proof (HL 1%Z 0%Z ltac:(lia) ltac:(lia)) as [F6 L6];
    pose proof (HL (-1)%Z 1%Z ltac:(lia) ltac:(lia)) as [F7 L7];
    pose proof (HL 0%Z 1%Z ltac:(lia) ltac:(lia)) as [F8 L8];
    pose proof (HL 1%Z 1%Z ltac:(lia) ltac:(lia)) as [F9 L9];
    apply Fin0_nonneg in F1, F2, F3, F4, F5, F6, F7, F8, F9;
    repeat match goal with
           | H : Rabs _ <= _ |- _ => apply Rabs_le_both in H
           end;
    apply Rabs_le_both;
    assert (eps * 5000 <= / 1000000000000000 * 5000)
      by (apply Rmult_le_compat_r; lra);
    lra ]
  end.

(** The Sobel sums of an image of bytes: the luminances lie between 0 and
    255.2, the positive entries of either kernel add up to 4 and so do the
    negative ones. *)
Lemma sobelSum_Sx_range (data : list Z) (width height x y : Z) :
  imageData data width height ->
  (1 <= x < width - 1)%Z -> (1 <= y < height - 1)%Z ->
  Finite (sobelSum Sx_rows data width x y)
  /\ Rabs (Rval (sobelSum Sx_rows data width x y)) <= 1021.
Proof. intros Hd Hx Hy. sobel_bound Sx_rows. Qed.

Lemma sobelSum_Sy_range (data : list Z) (width height x y : Z) :
  imageData data width height ->
  (1 <= x < width - 1)%Z -> (1 <= y < height - 1)%Z ->
  Finite (sobelSum Sy_rows data width x y)
  /\ Rabs (Rval (sobelSum Sy_rows data width x y)) <= 1021.
Proof. intros Hd Hx Hy. sobel_bound Sy_rows. Qed.

End SobelRange.

(** ** The entries of the gradient arrays *)

Lemma gradient_entry_range (f : Z -> Z -> float) (width height i : Z) :
  0 < width -> 0 < height -> 0 <= i < width * height ->
  (forall x y, 1 <= x < width - 1 -> 1 <= y < height - 1 ->
     Finite (f x y) /\ (Rabs (Rval (f x y)) <= 1021)%R) ->
  let a := written (fun k => fst k * width + snd k)
             (fun k => f (snd k) (fst k))
             (interior width height)
             (replicate (Z.to_nat (width * height)) 0%float) in
  Finite (aget a i) /\ (Rabs (Rval (aget a i)) <= 1021)%R.
Proof.
  intros HW HH Hi Hf. cbv zeta.
  assert (Hx : 0 <= i mod width < width) by (apply Z.mod_pos_bound; lia).
  assert (Hy : 0 <= i / width < height).
  { split; [apply Z.div_pos; lia|]. apply Z.div_lt_upper_bound; lia. }
  assert (E : i = i / width * width + i mod width)
    by (pose proof (Z.div_mod i width ltac:(lia)); lia).
  pose proof (written_gradient f width height _ _ Hx Hy) as Hl.
  rewrite <- E in Hl.
  unfold aget. destruct (Z.ltb_spec i 0); [lia|]. rewrite Hl.
  cbn [from_option]. unfold Datatypes.id.
  destruct (Z.leb_spec 1 (i mod width)), (Z.ltb_spec (i mod width) (width - 1)),
    (Z.leb_spec 1 (i / width)), (Z.ltb_spec (i / width) (height - 1));
    cbn [andb];
    try (apply Hf; lia);
    (split; [exact I|rewrite Rval_0, Rabs_R0; lra]).
Qed.

(** Every entry of the two gradient arrays of an image of bytes is a
    finite number of magnitude at most 1021. *)
Lemma gradientArrays_range (data : list Z) (width height i : Z) :
  0 < width -> 0 < height -> imageData data width height ->
  0 <= i < width * height ->
  (Finite (aget (fst (gradientArrays data width height)) i)
   /\ (Rabs (Rval (aget (fst (gradientArrays data width height)) i)) <= 1021)%R)
  /\ (Finite (aget (snd (gradientArrays data width height)) i)
      /\ (Rabs (Rval (aget (snd (gradientArrays data width height)) i)) <= 1021)%R).
Proof.
  intros HW HH Hd Hi. rewrite gradientArrays_written. cbn [fst snd]. split.
  - apply (gradient_entry_range (sobelSum Sx_rows data width)); try assumption.
    intros x y Hx Hy. apply (sobelSum_Sx_range data width height); assumption.
  - apply (gradient_entry_range (sobelSum Sy_rows data width)); try assumption.
    intros x y Hx Hy. apply (sobelSum_Sy_range data width height); assumption.
Qed.

Lemma gradientArrays_length (data : list Z) (width height : Z) :
  0 < width -> 0 < height ->
  length (fst (gradientArrays data width height)) = Z.to_nat (width * height)
  /\ length (snd (gradientArrays data width height)) = Z.to_nat (width * height).
Proof.
  intros HW HH. rewrite gradientArrays_written. cbn [fst snd].
  split; (rewrite written_length; [apply length_replicate|]);
    intros [y x] Hk; apply elem_of_interior in Hk; cbn [fst snd];
    rewrite length_replicate; nia.
Qed.

(** ** The weights of the samples *)

(** The two loops of [applyGaussian] read every entry of the kernel table
    once, in the order of the table. *)
Lemma sample_weights (width height size x y : Z) (kernel : list float) :
  0 < size -> Z.odd size = true ->
  length kernel = Z.to_nat (size * size) ->
  map (fun s => aget kernel (snd s)) (sampleIndices width height size x y)
  = kernel.
Proof.
  intros Hs Hodd Hlen. unfold sampleIndices. cbv zeta. rewrite map_map.
  cbn [snd].
  pose proof Hodd as Ho. apply Z.odd_spec in Ho as [h Hh].
  assert (Hhalf : size / 2 = h)
    by (symmetry; apply (Z.div_unique size 2 h 1); lia).
  rewrite Hhalf. replace (2 * h + 1) with size by lia.
  apply list_eq. intros i. rewrite list_lookup_fmap.
  destruct (Nat.lt_ge_cases i (Z.to_nat (size * size))) as [Hi|Hi].
  - set (n := Z.to_nat size).
    assert (Hn : (0 < n)%nat) by (unfold n; lia).
    assert (Hnn : Z.to_nat (size * size) = (n * n)%nat) by (unfold n; lia).
    assert (Hu : (i / n < n)%nat)
      by (apply Nat.Div0.div_lt_upper_bound; lia).
    assert (Hv : (i mod n < n)%nat) by (apply Nat.mod_upper_bound; lia).
    assert (Ei : i = (i / n * n + i mod n)%nat)
      by (pose proof (Nat.div_mod_eq i n); lia).
    rewrite Ei at 1.
    replace n with (length (seqZ (- h) size)) at 2 by (rewrite length_seqZ; lia).
    erewrite list_prod_lookup;
      [|apply lookup_seqZ_lt; lia|apply lookup_seqZ_lt; lia].
    cbn [fmap option_fmap option_map fst snd].
    destruct (lookup_lt_is_Some_2 kernel i ltac:(lia)) as [w Hw].
    rewrite Hw. f_equal. unfold aget.
    replace ((- h + Z.of_nat (i / n) + h) * size + (- h + Z.of_nat (i mod n) + h))
      with (Z.of_nat i) by (rewrite Ei at 1; unfold n; nia).
    destruct (Z.ltb_spec (Z.of_nat i) 0); [lia|].
    rewrite Nat2Z.id, Hw. reflexivity.
  - rewrite (lookup_ge_None_2 kernel i) by lia.
    rewrite lookup_ge_None_2; [reflexivity|].
    rewrite length_prod, !length_seqZ. nia.
Qed.

Section WeightedSums.

Local Open Scope R_scope.

Context {K : Type}.

Lemma exactSum_scaled (v u : K -> float) (ks : list K) (a b : R) :
  (forall k, k ∈ ks -> Rval (v k) <= a * Rval (u k) + b) ->
  exactSum v ks <= a * exactSum u ks + INR (length ks) * b.
Proof.
  induction ks as [|k ks IH]; intros H.
  - rewrite !exactSum_nil. cbn [length INR]. lra.
  - rewrite !exactSum_cons. cbn [length]. rewrite S_INR.
    assert (Rval (v k) <= a * Rval (u k) + b) by (apply H; left).
    assert (exactSum v ks <= a * exactSum u ks + INR (length ks) * b)
      by (apply IH; intros k' Hk'; apply H; right; exact Hk').
    lra.
Qed.

Lemma magSum_scaled (v u : K -> float) (ks : list K) (a b : R) :
  (forall k, k ∈ ks -> Rabs (Rval (v k)) <= a * Rval (u k) + b) ->
  magSum v ks <= a * exactSum u ks + INR (length ks) * b.
Proof.
  induction ks as [|k ks IH]; intros H.
  - rewrite magSum_nil, exactSum_nil. cbn [length INR]. lra.
  - rewrite magSum_cons, exactSum_cons. cbn [length]. rewrite S_INR.
    assert (Rabs (Rval (v k)) <= a * Rval (u k) + b) by (apply H; left).
    assert (magSum v ks <= a * exactSum u ks + INR (length ks) * b)
      by (apply IH; intros k' Hk'; apply H; right; exact Hk').
    lra.
Qed.

Lemma exactSum_abs (v : K -> float) (ks : list K) :
  Rabs (exactSum v ks) <= magSum v ks.
Proof.
  induction ks as [|k ks IH].
  - rewrite exactSum_nil, magSum_nil, Rabs_R0. lra.
  - rewrite exactSum_cons, magSum_cons.
    eapply Rle_trans; [apply Rabs_triang|]. lra.
Qed.

End WeightedSums.

(** ** The entries of the tensor *)

Lemma aget_imap (f : nat -> float -> float) (a : list float) (i : Z) :
  0 <= i < Z.of_nat (length a) ->
  aget (imap f a) i = f (Z.to_nat i) (aget a i).
Proof.
  intros Hi. unfold aget. destruct (Z.ltb_spec i 0); [lia|].
  rewrite list_lookup_imap.
  destruct (lookup_lt_is_Some_2 a (Z.to_nat i) ltac:(lia)) as [v Hv].
  rewrite Hv. reflexivity.
Qed.

Section TensorRange.

Local Open Scope R_scope.

Lemma rounding_factor (n : nat) :
  INR n <= 2601 -> (1 + eps) ^ n * (1 + eps) <= 1 + / 100000000000.
Proof.
  intros Hn. pose proof eps_small as He. pose proof eps_pos as He0.
  pose proof (pos_INR n) as Hn0.
  assert (Hne : INR n * eps <= 2601 * / 1000000000000000)
    by (apply Rmult_le_compat; lra).
  pose proof (pow_up n ltac:(lra)) as Hup.
  assert (H1 : 1 <= (1 + eps) ^ n) by (apply pow_R1_Rle; lra).
  set (U := (1 + eps) ^ n) in *.
  assert (U * eps <= 2 * / 1000000000000000)
    by (apply Rmult_le_compat; lra).
  lra.
Qed.

(** The sum [applyGaussian] accumulates over a component of non-negative
    entries: at most the largest entry times the sum of the weights, up to
    the roundings. *)
Lemma weightedSum_range (component kernel : list float)
  (samples : list (Z * Z)) (C : R) :
  (forall s, s ∈ samples ->
     Fin0 (aget component (fst s)) /\ Rval (aget component (fst s)) <= C
     /\ Fin0 (aget kernel (snd s))) ->
  0 <= C <= 2000000 ->
  exactSum (fun s => aget kernel (snd s)) samples <= 2 ->
  INR (length samples) <= 2601 ->
  Fin0 (weightedSum component kernel samples)
  /\ Rval (weightedSum component kernel samples)
     <= C * exactSum (fun s => aget kernel (snd s)) samples
        * (1 + / 100000000000)
        + / 100000000000000000000.
Proof.
  intros Hs HC HW Hn.
  pose proof pow2_900_large as Hbig.
  pose proof eps_small as He. pose proof eps_pos as He0.
  pose proof eta_small as Hη. pose proof eta_pos as Hη0.
  pose proof (pos_INR (length samples)) as Hn0.
  set (u := fun s : Z * Z => aget kernel (snd s)) in *.
  set (t := fun s : Z * Z => (aget component (fst s) * u s)%float).
  assert (Hu : forall s, s ∈ samples -> Fin0 (u s))
    by (intros s Hin; apply Hs, Hin).
  pose proof (exactSum_nonneg u samples Hu) as HW0.
  set (W := exactSum u samples) in *.
  assert (Ht : forall s, s ∈ samples ->
            Fin0 (t s) /\ Rval (t s) <= (1 + eps) * C * Rval (u s) + eta).
  { intros s Hin. destruct (Hs s Hin) as (Fc & Bc & Fu).
    change (Fin0 (u s)) in Fu.
    pose proof (Fin0_nonneg _ Fc) as Pc. pose proof (Fin0_nonneg _ Fu) as Pu.
    pose proof (exactSum_ge u samples s Hu Hin) as Hle. fold W in Hle.
    assert (Hprod : Rval (aget component (fst s)) * Rval (u s) <= C * Rval (u s))
      by (apply Rmult_le_compat_r; assumption).
    assert (HCu : C * Rval (u s) <= 2000000 * 2)
      by (apply Rmult_le_compat; lra).
    destruct (Near_bounds _ _ (mul_near _ _ Fc Fu ltac:(fold (u s); lra)))
      as [Ff [_ Hb]].
    split; [exact Ff|]. fold (u s) in Hb. fold (t s) in Hb.
    assert ((1 + eps) * (Rval (aget component (fst s)) * Rval (u s))
            <= (1 + eps) * (C * Rval (u s)))
      by (apply Rmult_le_compat_l; lra).
    lra. }
  assert (HT : exactSum t samples
               <= (1 + eps) * C * W + INR (length samples) * eta).
  { apply exactSum_scaled. intros s Hin. apply Ht, Hin. }
  pose proof (exactSum_nonneg t samples (fun s Hin => proj1 (Ht s Hin))) as HT0.
  assert (HCW : C * W <= 2000000 * 2) by (apply Rmult_le_compat; lra).
  assert (HCW0 : 0 <= C * W) by (apply Rmult_le_pos; lra).
  assert (Hne : INR (length samples) * eta
                <= 2601 * / 1000000000000000000000000000000)
    by (apply Rmult_le_compat; lra).
  assert (Hne0 : 0 <= INR (length samples) * eta) by (apply Rmult_le_pos; lra).
  pose proof (rounding_factor (length samples) Hn) as Hrf.
  assert (HU1 : 1 <= (1 + eps) ^ length samples) by (apply pow_R1_Rle; lra).
  set (U := (1 + eps) ^ length samples) in *.
  assert (HU2 : U <= 2).
  { assert (U * 1 <= U * (1 + eps)) by (apply Rmult_le_compat_l; lra). lra. }
  assert (HeCW : 0 <= eps * (C * W)) by (apply Rmult_le_pos; lra).
  assert (HeCW2 : eps * (C * W) <= / 1000000000000000 * (2000000 * 2))
    by (apply Rmult_le_compat; lra).
  unfold weightedSum.
  change (fold_left _ samples 0%float)
    with (fold_left (fun s k => (s + t k)%float) samples 0%float).
  destruct (fold_add_near t samples 0%float
              (fun s Hin => proj1 (Ht s Hin)) I) as [Ff [_ Hhi]].
  { rewrite Rval_0. fold U.
    set (X := 0 + exactSum t samples + INR (length samples) * eta) in *.
    assert (0 <= X <= 4000001) by (unfold X; lra).
    assert (U * X <= 2 * X) by (apply Rmult_le_compat_r; lra).
    lra. }
  split; [exact Ff|].
  rewrite Rval_0 in Hhi. fold U in Hhi.
  apply Rle_trans with (1 := Hhi).
  set (n := INR (length samples)) in *.
  apply Rle_trans with (U * ((1 + eps) * C * W + 2 * (n * eta))).
  { apply Rmult_le_compat_l; lra. }
  replace (U * ((1 + eps) * C * W + 2 * (n * eta)))
    with (U * (1 + eps) * (C * W) + U * (2 * (n * eta))) by ring.
  assert (U * (1 + eps) * (C * W) <= (1 + / 100000000000) * (C * W))
    by (apply Rmult_le_compat_r; lra).
  assert (U * (2 * (n * eta)) <= 2 * (2 * (n * eta)))
    by (apply Rmult_le_compat_r; lra).
  lra.
Qed.

(** The same for a component of entries of either sign. *)
Lemma weightedSum_signed_range (component kernel : list float)
  (samples : list (Z * Z)) (C : R) :
  (forall s, s ∈ samples ->
     Finite (aget component (fst s))
     /\ Rabs (Rval (aget component (fst s))) <= C
     /\ Fin0 (aget kernel (snd s))) ->
  0 <= C <= 2000000 ->
  exactSum (fun s => aget kernel (snd s)) samples <= 2 ->
  INR (length samples) <= 2601 ->
  Finite (weightedSum component kernel samples)
  /\ Rabs (Rval (weightedSum component kernel samples))
     <= C * exactSum (fun s => aget kernel (snd s)) samples
        * (1 + / 100000000000)
        + / 10000.
Proof.
  intros Hs HC HW Hn.
  pose proof pow2_900_large as Hbig.
  pose proof eps_small as He. pose proof eps_pos as He0.
  pose proof eta_small as Hη. pose proof eta_pos as Hη0.
  pose proof (pos_INR (length samples)) as Hn0.
  set (u := fun s : Z * Z => aget kernel (snd s)) in *.
  set (t := fun s : Z * Z => (aget component (fst s) * u s)%float).
  assert (Hu : forall s, s ∈ samples -> Fin0 (u s))
    by (intros s Hin; apply Hs, Hin).
  pose proof (exactSum_nonneg u samples Hu) as HW0.
  set (W := exactSum u samples) in *.
  assert (Ht : forall s, s ∈ samples ->
            Finite (t s)
            /\ Rabs (Rval (t s)) <= (1 + eps) * C * Rval (u s) + eta).
  { intros s Hin. destruct (Hs s Hin) as (Fc & Bc & Fu).
    change (Fin0 (u s)) in Fu.
    pose proof (Rabs_pos (Rval (aget component (fst s)))) as Pc.
    pose proof (Fin0_nonneg _ Fu) as Pu.
    pose proof (exactSum_ge u samples s Hu Hin) as Hle. fold W in Hle.
    assert (Hprod : Rabs (Rval (aget component (fst s))) * Rval (u s)
                    <= C * Rval (u s))
      by (apply Rmult_le_compat_r; assumption).
    assert (HCu : C * Rval (u s) <= 2000000 * 2)
      by (apply Rmult_le_compat; lra).
    destruct (NearS_bounds _ _
                (mul_signed (aget component (fst s)) (u s) Fc
                   (Fin0_Finite _ Fu)
                   ltac:(rewrite (Rabs_pos_eq (Rval (u s))) by exact Pu; lra)))
      as [Ff Hb].
    split; [exact Ff|]. fold (t s) in Hb.
    apply Rabs_near in Hb.
    rewrite Rabs_mult, (Rabs_pos_eq (Rval (u s))) in Hb by exact Pu.
    assert (eps * (Rabs (Rval (aget component (fst s))) * Rval (u s))
            <= eps * (C * Rval (u s)))
      by (apply Rmult_le_compat_l; lra).
    lra. }
  assert (HT : magSum t samples
               <= (1 + eps) * C * W + INR (length samples) * eta).
  { apply magSum_scaled. intros s Hin. apply Ht, Hin. }
  pose proof (magSum_nonneg t samples) as HT0.
  pose proof (exactSum_abs t samples) as HTa.
  assert (HCW : C * W <= 2000000 * 2) by (apply Rmult_le_compat; lra).
  assert (HCW0 : 0 <= C * W) by (apply Rmult_le_pos; lra).
  assert (Hne : INR (length samples) * eta
                <= 2601 * / 1000000000000000000000000000000)
    by (apply Rmult_le_compat; lra).
  assert (Hne0 : 0 <= INR (length samples) * eta) by (apply Rmult_le_pos; lra).
  pose proof (rounding_factor (length samples) Hn) as Hrf.
  assert (HU1 : 1 <= (1 + eps) ^ length samples) by (apply pow_R1_Rle; lra).
  set (U := (1 + eps) ^ length samples) in *.
  assert (HU2 : U <= 2).
  { assert (U * 1 <= U * (1 + eps)) by (apply Rmult_le_compat_l; lra). lra. }
  assert (HeCW : 0 <= eps * (C * W)) by (apply Rmult_le_pos; lra).
  assert (HeCW2 : eps * (C * W) <= / 1000000000000000 * (2000000 * 2))
    by (apply Rmult_le_compat; lra).
  unfold weightedSum.
  change (fold_left _ samples 0%float)
    with (fold_left (fun s k => (s + t k)%float) samples 0%float).
  destruct (fold_add_signed t samples 0%float 10000000
              (fun s Hin => proj1 (Ht s Hin)) I) as [Ff Herr].
  { rewrite Rval_0, Rabs_R0. fold U.
    set (X := 0 + magSum t samples + INR (length samples) * eta) in *.
    assert (0 <= X <= 4000001) by (unfold X; lra).
    assert (U * X <= 2 * X) by (apply Rmult_le_compat_r; lra).
    lra. }
  { lra. }
  split; [exact Ff|].
  rewrite Rval_0 in Herr. apply Rabs_near in Herr.
  replace (0 + exactSum t samples) with (exactSum t samples) in Herr by lra.
  set (n := INR (length samples)) in *.
  assert (He7 : eps * 10000000 <= / 1000000000000000 * 10000000)
    by (apply Rmult_le_compat_r; lra).
  assert (Hstep : n * (eps * 10000000 + eta)
                  <= 2601 * (/ 1000000000000000 * 10000000
                             + / 1000000000000000000000000000000))
    by (apply Rmult_le_compat; lra).
  lra.
Qed.

End TensorRange.

Lemma square_range (v : float) :
  Finite v -> (Rabs (Rval v) <= 1021)%R ->
  Fin0 (v * v)%float /\ (Rval (v * v)%float <= 1042442)%R.
Proof.
  intros Fv Bv.
  pose proof pow2_900_large as Hbig.
  pose proof eps_small as He. pose proof eps_pos as He0.
  pose proof eta_small as Hη. pose proof eta_pos as Hη0.
  pose proof (Rabs_pos (Rval v)) as Pv.
  assert (Hsq : (Rval v * Rval v <= 1021 * 1021)%R).
  { replace (Rval v * Rval v)%R with (Rabs (Rval v) * Rabs (Rval v))%R.
    - apply Rmult_le_compat; lra.
    - rewrite <- Rabs_mult. apply Rabs_pos_eq. nra. }
  assert (Hsq0 : (0 <= Rval v * Rval v)%R) by nra.
  destruct (Near_bounds _ _ (mul_square v Fv ltac:(lra))) as [Ff [_ Hb]].
  split; [exact Ff|].
  assert ((eps * (Rval v * Rval v) <= / 1000000000000000 * (1021 * 1021))%R)
    by (apply Rmult_le_compat; lra).
  lra.
Qed.

Lemma product_range (v w : float) :
  Finite v -> (Rabs (Rval v) <= 1021)%R ->
  Finite w -> (Rabs (Rval w) <= 1021)%R ->
  Finite (v * w)%float /\ (Rabs (Rval (v * w)%float) <= 1042442)%R.
Proof.
  intros Fv Bv Fw Bw.
  pose proof pow2_900_large as Hbig.
  pose proof eps_small as He. pose proof eps_pos as He0.
  pose proof eta_small as Hη. pose proof eta_pos as Hη0.
  pose proof (Rabs_pos (Rval v)) as Pv. pose proof (Rabs_pos (Rval w)) as Pw.
  assert (Hp : (Rabs (Rval v) * Rabs (Rval w) <= 1021 * 1021)%R)
    by (apply Rmult_le_compat; lra).
  destruct (NearS_bounds _ _ (mul_signed v w Fv Fw ltac:(lra))) as [Ff Hb].
  split; [exact Ff|].
  apply Rabs_near in Hb. rewrite Rabs_mult in Hb.
  assert ((eps * (Rabs (Rval v) * Rabs (Rval w))
           <= / 1000000000000000 * (1021 * 1021))%R)
    by (apply Rmult_le_compat; try lra; apply Rmult_le_pos; lra).
  lra.
Qed.

(** The three entries of the tensor for arrays of finite entries of
    magnitude at most 1021 and a kernel of weights that sum to 1. *)
Lemma tensorAt_range (width height size : Z) (kernel ix iy : list float)
  (x y : Z) :
  0 < width -> 0 < height -> 1 <= size <= 51 -> Z.odd size = true ->
  length kernel = Z.to_nat (size * size) ->
  (forall w, w ∈ kernel -> Fin0 w) ->
  (Rabs (Rsum (map Rval kernel) - 1) <= / 10000000000)%R ->
  length ix = Z.to_nat (width * height) ->
  length iy = Z.to_nat (width * height) ->
  (forall i, 0 <= i < width * height ->
     (Finite (aget ix i) /\ (Rabs (Rval (aget ix i)) <= 1021)%R)
     /\ (Finite (aget iy i) /\ (Rabs (Rval (aget iy i)) <= 1021)%R)) ->
  exists Ixx Ixy Iyy,
    tensorAt width height size kernel ix iy x y = [[Ixx; Ixy]; [Ixy; Iyy]]
    /\ Fin0 Ixx /\ Fin0 Iyy /\ Finite Ixy
    /\ (Rval Ixx <= 1050000)%R /\ (Rval Iyy <= 1050000)%R
    /\ (Rabs (Rval Ixy) <= 1050000)%R.
Proof.
  intros HW HH Hsize Hodd Hlen Hfin Hsum Hlx Hly Hg.
  unfold tensorAt. cbv zeta.
  set (samples := sampleIndices width height size x y).
  pose proof (sampleIndices_in_range width height size x y HW HH
                ltac:(lia) Hodd) as Hr.
  fold samples in Hr. rewrite Forall_forall in Hr.
  pose proof (sample_weights width height size x y kernel ltac:(lia) Hodd Hlen)
    as Hsw.
  fold samples in Hsw.
  assert (HWs : exactSum (fun s => aget kernel (snd s)) samples
                = Rsum (map Rval kernel)).
  { unfold exactSum. rewrite <- (map_map (fun s => aget kernel (snd s)) Rval).
    rewrite Hsw. reflexivity. }
  assert (Hn : (INR (length samples) <= 2601)%R).
  { assert (E : length samples = Z.to_nat (size * size)).
    { rewrite <- Hlen. rewrite <- Hsw at 1. rewrite length_map. reflexivity. }
    rewrite E. replace 2601%R with (INR 2601) by (rewrite INR_IZR_INZ; reflexivity).
    apply le_INR. nia. }
  apply Rabs_le_both in Hsum.
  assert (Hk : forall s, s ∈ samples -> Fin0 (aget kernel (snd s))).
  { intros s Hin. apply aget_Fin0; [exact Hfin|]. rewrite Hlen.
    pose proof (Hr s Hin). lia. }
  eexists _, _, _. split; [reflexivity|].
  destruct (weightedSum_range (imap (fun _ v => (v * v)%float) ix) kernel
              samples 1042442) as [Fxx Bxx].
  { intros s Hin. pose proof (Hr s Hin) as [Hi _].
    rewrite aget_imap by lia.
    destruct (Hg _ Hi) as [[Fv Bv] _].
    destruct (square_range _ Fv Bv) as [F B].
    split; [exact F|]. split; [exact B|]. apply Hk, Hin. }
  { lra. }
  { rewrite HWs. lra. }
  { exact Hn. }
  destruct (weightedSum_range (imap (fun _ v => (v * v)%float) iy) kernel
              samples 1042442) as [Fyy Byy].
  { intros s Hin. pose proof (Hr s Hin) as [Hi _].
    rewrite aget_imap by lia.
    destruct (Hg _ Hi) as [_ [Fv Bv]].
    destruct (square_range _ Fv Bv) as [F B].
    split; [exact F|]. split; [exact B|]. apply Hk, Hin. }
  { lra. }
  { rewrite HWs. lra. }
  { exact Hn. }
  destruct (weightedSum_signed_range
              (imap (fun i v => (v * aget iy (Z.of_nat i))%float) ix) kernel
              samples 1042442) as [Fxy Bxy].
  { intros s Hin. pose proof (Hr s Hin) as [Hi _].
    rewrite aget_imap by lia. rewrite Z2Nat.id by lia.
    destruct (Hg _ Hi) as [[Fv Bv] [Fw Bw]].
    destruct (product_range _ _ Fv Bv Fw Bw) as [F B].
    split; [exact F|]. split; [exact B|]. apply Hk, Hin. }
  { lra. }
  { rewrite HWs. lra. }
  { exact Hn. }
  rewrite HWs in Bxx, Byy, Bxy.
  set (S := Rsum (map Rval kernel)) in *.
  assert (HCS : (1042442 * S <= 1042442 * (1 + / 10000000000))%R)
    by (apply Rmult_le_compat_l; lra).
  repeat split; try assumption; lra.
Qed.

Lemma elem_of_aget (a : list float) (v : float) :
  v ∈ a -> exists i, 0 <= i < Z.of_nat (length a) /\ aget a i = v.
Proof.
  intros Hin. apply list_elem_of_lookup in Hin as [i Hi].
  exists (Z.of_nat i). split.
  - apply lookup_lt_Some in Hi. lia.
  - unfold aget. destruct (Z.ltb_spec (Z.of_nat i) 0); [lia|].
    rewrite Nat2Z.id, Hi. reflexivity.
Qed.

Lemma dot10_imageData : imageData (image_data dot10) 10 10.
Proof.
  split; [vm_compute; reflexivity|].
  apply (bool_decide_eq_true_1
           (Forall (fun b => 0 <= b <= 255) (image_data dot10))).
  vm_compute. reflexivity.
Qed.

(** ** The state after the tensor stage *)

Lemma store_only_readonly {A} (m : M A) : readonly m -> store_only m.
Proof.
  intros Hm st. exists (fun s => s). rewrite Hm. destruct st; reflexivity.
Qed.

Lemma store_only_bind {A B} (m : M A) (f : A -> M B) :
  store_only m -> (forall a, store_only (f a)) -> store_only (m ≫= f).
Proof.
  intros Hm Hf st. unfold mbind, M_bind. destruct (Hm st) as [f1 H1].
  destruct (m st) as [[a|e] st1]; cbn [snd] in *; subst st1.
  - destruct (Hf a (with_store f1 st)) as [f2 H2].
    exists (fun s => f2 (f1 s)). rewrite H2. reflexivity.
  - exists f1. reflexivity.
Qed.

Lemma store_only_Array_map (f : float -> Z -> float) (l : loc) :
  store_only (Array_map f l).
Proof.
  unfold Array_map. apply store_only_bind.
  - apply store_only_readonly, readonly_deref.
  - intros a st. eexists. reflexivity.
Qed.

Lemma store_only_structureTensor (Math_exp : float -> float) (x y : Z) :
  store_only (structureTensor Math_exp x y).
Proof.
  unfold structureTensor.
  apply store_only_bind;
    [apply store_only_readonly, readonly_get_gradients|intros ?].
  apply store_only_bind; [apply store_only_Array_map|intros ?].
  apply store_only_bind;
    [apply store_only_readonly, readonly_applyGaussian|intros ?].
  apply store_only_bind; [apply store_only_Array_map|intros ?].
  apply store_only_bind;
    [apply store_only_readonly, readonly_applyGaussian|intros ?].
  apply store_only_bind; [apply store_only_readonly, readonly_deref|intros ?].
  apply store_only_bind; [apply store_only_Array_map|intros ?].
  apply store_only_bind;
    [apply store_only_readonly, readonly_applyGaussian|intros ?].
  apply store_only_readonly, readonly_ret.
Qed.

(** The tensor stage at the start of a pointer move: the canvas was
    cleared and the image redrawn, which the stage does not read. *)
Lemma structureTensor_after_redraw (Math_exp : float -> float) (st : page)
  (g : gradient_field) (ix iy : list float) (x y : Z)
  (tensor : list (list float)) :
  gradients st = Some g -> store st !! Ix g = Some ix ->
  store st !! Iy g = Some iy -> Z.odd (kernelSize st) = true ->
  fst (structureTensor Math_exp x y st) = Ok tensor ->
  exists f,
    structureTensor Math_exp x y
      (with_drawn (drawImage 0 0)
         (with_drawn (clearRect 0 0 (width st) (height st)) st))
    = (Ok tensor,
       with_store f
         (with_drawn (drawImage 0 0)
            (with_drawn (clearRect 0 0 (width st) (height st)) st))).
Proof.
  intros Hg Hix Hiy Hodd Ht.
  set (st1 := with_drawn _ (with_drawn _ st)).
  pose proof (generateGaussianKernel_cases Math_exp (kernelSize st)
                (kernelSigma st)) as Hk.
  rewrite <- Z.negb_odd, Hodd in Hk. cbn [negb] in Hk.
  destruct Hk as (kernel & Hk & _).
  rewrite (structureTensor_run Math_exp x y st g ix iy kernel) in Ht
    by assumption.
  pose proof (structureTensor_run Math_exp x y st1 g ix iy kernel
                Hg Hix Hiy Hk) as H1.
  cbn [width height kernelSize st1 with_drawn] in H1. rewrite Ht in H1.
  destruct (store_only_structureTensor Math_exp x y st1) as [f Hf].
  exists f. rewrite (surjective_pairing (structureTensor _ _ _ _)).
  rewrite H1, Hf. reflexivity.
Qed.

(** ** [Math.max] and the alphas of the overlay *)

Section MathMax.

Local Open Scope R_scope.

(** The order of two numbers that are zero or positive, as [SFcompare]
    finds it. *)
Lemma SFcompare_fin0 (x y : spec_float) :
  fin0 x -> fin0 y -> valid_binary x = true -> valid_binary y = true ->
  match SFcompare x y with
  | Some Lt => SF2R x <= SF2R y
  | Some Eq => SF2R x = SF2R y
  | Some Gt => SF2R y <= SF2R x
  | None => False
  end.
Proof.
  intros Hx Hy Vx Vy.
  destruct x as [sx|sx| |[] mx ex]; try contradiction;
    destruct y as [sy|sy| |[] my ey]; try contradiction.
  - cbn. reflexivity.
  - cbn [SFcompare]. apply fin0_nonneg. exact I.
  - cbn [SFcompare]. apply (fin0_nonneg (S754_finite false mx ex)). exact I.
  - cbn [valid_binary] in Vx, Vy. cbn [SFcompare].
    destruct (Z.compare_spec ex ey) as [->|Hlt|Hgt].
    + change (Pos.compare_cont Eq mx my) with (mx ?= my)%positive.
      cbn [SF2R]. pose proof (pow2_pos ey).
      destruct (Pos.compare_spec mx my) as [->|Hm|Hm].
      * reflexivity.
      * apply Rmult_le_compat_r; [lra|]. apply IZR_le. lia.
      * apply Rmult_le_compat_r; [lra|]. apply IZR_le. lia.
    + apply SFleb_R; try assumption. unfold SFleb, SFcompare.
      rewrite (proj2 (Z.compare_lt_iff ex ey) Hlt). reflexivity.
    + apply SFleb_R; try assumption. unfold SFleb, SFcompare.
      rewrite (proj2 (Z.compare_lt_iff ey ex) Hgt). reflexivity.
Qed.

Lemma is_nan_Fin0 (x : float) : Fin0 x -> PrimFloat.is_nan x = false.
Proof.
  unfold Fin0, PrimFloat.is_nan. rewrite FloatAxioms.eqb_spec. unfold SFeqb.
  destruct (Prim2SF x) as [s|s| |[] m e]; try contradiction; intros _.
  - reflexivity.
  - cbn [SFcompare]. rewrite Z.compare_refl.
    change (Pos.compare_cont Eq m m) with (m ?= m)%positive.
    rewrite Pos.compare_refl. reflexivity.
Qed.

(** One step of [Math.max] on numbers that are zero or positive. *)
Lemma max_step (h n : float) :
  h = neg_infinity \/ Fin0 h -> Fin0 n ->
  let r := if PrimFloat.is_nan h || PrimFloat.is_nan n then nan
           else if PrimFloat.ltb h n then n
           else if PrimFloat.eqb h n && get_sign h && negb (get_sign n)
                then n
                else h in
  Fin0 r /\ Rval n <= Rval r /\ (Fin0 h -> Rval h <= Rval r).
Proof.
  intros Hh Hn. cbv zeta. rewrite (is_nan_Fin0 n Hn).
  destruct Hh as [->|Hh].
  - change (PrimFloat.is_nan neg_infinity) with false. cbn [orb].
    assert (Hlt : PrimFloat.ltb neg_infinity n = true).
    { rewrite ltb_spec. change (Prim2SF neg_infinity) with (S754_infinity true).
      unfold Fin0 in Hn.
      destruct (Prim2SF n) as [s|s| |[] m e]; try contradiction; reflexivity. }
    rewrite Hlt. split; [exact Hn|]. split; [lra|].
    intros H. exfalso. revert H. unfold Fin0.
    change (Prim2SF neg_infinity) with (S754_infinity true). exact (fun f => f).
  - rewrite (is_nan_Fin0 h Hh). cbn [orb].
    rewrite ltb_spec, FloatAxioms.eqb_spec. unfold SFltb, SFeqb.
    pose proof (SFcompare_fin0 (Prim2SF h) (Prim2SF n) Hh Hn
                  (Prim2SF_valid h) (Prim2SF_valid n)) as Hc.
    fold (Rval h) in Hc. fold (Rval n) in Hc.
    destruct (SFcompare (Prim2SF h) (Prim2SF n)) as [[| |]|];
      try contradiction.
    + destruct (true && get_sign h && negb (get_sign n)).
      * split; [exact Hn|]. split; [lra|]. intros _. lra.
      * split; [exact Hh|]. split; [lra|]. intros _. lra.
    + split; [exact Hn|]. split; [lra|]. intros _. exact Hc.
    + cbn [andb]. split; [exact Hh|]. split; [exact Hc|]. intros _. lra.
Qed.

Lemma Math_max_fold (l : list float) (h : float) :
  h = neg_infinity \/ Fin0 h -> (forall w, w ∈ l -> Fin0 w) ->
  let m :=
    fold_left
      (fun highest number =>
         if PrimFloat.is_nan highest || PrimFloat.is_nan number then nan
         else if PrimFloat.ltb highest number then number
         else if PrimFloat.eqb highest number && get_sign highest
                 && negb (get_sign number)
              then number
              else highest)
      l h in
  (l = [] /\ m = h)
  \/ (Fin0 m /\ (forall w, w ∈ l -> Rval w <= Rval m)
      /\ (Fin0 h -> Rval h <= Rval m)).
Proof.
  revert h. induction l as [|n l IH]; intros h Hh Hl; cbv zeta.
  - left. split; reflexivity.
  - right. cbn [fold_left].
    destruct (max_step h n Hh (Hl n ltac:(left))) as (Fr & Hn & Hhr).
    cbv zeta in Fr, Hn, Hhr.
    set (r := if PrimFloat.is_nan h || PrimFloat.is_nan n then nan
              else if PrimFloat.ltb h n then n
              else if PrimFloat.eqb h n && get_sign h && negb (get_sign n)
                   then n
                   else h) in *.
    destruct (IH r (or_intror Fr)
                (fun w Hw => Hl w ltac:(right; exact Hw)))
      as [[-> ->]|(Fm & Hall & Hr)]; cbv zeta in *.
    + cbn [fold_left]. split; [exact Fr|]. split.
      * intros w Hw. apply elem_of_cons in Hw as [->|Hw]; [exact Hn|].
        inversion Hw.
      * exact Hhr.
    + split; [exact Fm|]. split.
      * intros w Hw. apply elem_of_cons in Hw as [->|Hw].
        -- specialize (Hr Fr). lra.
        -- apply Hall, Hw.
      * intros Fh. specialize (Hr Fr). specialize (Hhr Fh). lra.
Qed.

(** [Math.max] of numbers that are zero or positive is one that is at
    least as large as each of them. *)
Lemma Math_max_Fin0 (l : list float) :
  l <> [] -> (forall w, w ∈ l -> Fin0 w) ->
  Fin0 (JS.Math_max l) /\ forall w, w ∈ l -> Rval w <= Rval (JS.Math_max l).
Proof.
  intros Hne Hl.
  destruct (Math_max_fold l neg_infinity (or_introl eq_refl) Hl)
    as [[E _]|(Fm & Hall & _)]; [contradiction|].
  split; [exact Fm|exact Hall].
Qed.

Lemma aget_elem (a : list float) (i : Z) :
  (0 <= i < Z.of_nat (length a))%Z -> aget a i ∈ a.
Proof.
  intros Hi. unfold aget. destruct (Z.ltb_spec i 0); [lia|].
  destruct (lookup_lt_is_Some_2 a (Z.to_nat i) ltac:(lia)) as [w Hw].
  rewrite Hw. eapply list_elem_of_lookup_2, Hw.
Qed.

(** One alpha of the overlay: a weight divided by the largest weight. *)
Lemma alpha_range (kernel : list float) (i : Z) :
  (forall w, w ∈ kernel -> Fin0 w) ->
  Rabs (Rsum (map Rval kernel) - 1) <= / 10000000000 ->
  (0 <= i < Z.of_nat (length kernel))%Z ->
  Fin0 (aget kernel i / JS.Math_max kernel)%float
  /\ Rval (aget kernel i / JS.Math_max kernel)%float <= 1 + / 1000000000.
Proof.
  intros Hfin Hsum Hi.
  pose proof pow2_900_large as Hbig.
  pose proof eps_small as He. pose proof eps_pos as He0.
  pose proof eta_small as Hη. pose proof eta_pos as Hη0.
  assert (Hne : kernel <> []) by (intros ->; cbn in Hi; lia).
  destruct (Math_max_Fin0 kernel Hne Hfin) as [Fm Hall].
  apply Rabs_le_both in Hsum.
  assert (Hpos : 0 < Rval (JS.Math_max kernel)).
  { pose proof (exactSum_le (fun x : float => x) kernel _ Hall) as Hle.
    change (exactSum (fun x : float => x) kernel)
      with (Rsum (map Rval kernel)) in Hle.
    pose proof (Fin0_nonneg _ Fm) as Hm0.
    destruct (Rle_lt_or_eq_dec _ _ Hm0) as [Hlt|Heq]; [exact Hlt|].
    rewrite <- Heq, Rmult_0_r in Hle. lra. }
  pose proof (Fin0_PosFin _ Fm Hpos) as Pm.
  pose proof (aget_elem kernel i Hi) as Hin.
  pose proof (Hfin _ Hin) as Fw. pose proof (Hall _ Hin) as Hw.
  pose proof (Fin0_nonneg _ Fw) as Hw0.
  assert (Hq : Rval (aget kernel i) / Rval (JS.Math_max kernel) <= 1).
  { apply Rmult_le_reg_r with (Rval (JS.Math_max kernel)); [exact Hpos|].
    replace (Rval (aget kernel i) / Rval (JS.Math_max kernel)
             * Rval (JS.Math_max kernel))
      with (Rval (aget kernel i)) by (field; lra).
    lra. }
  assert (Hq0 : 0 <= Rval (aget kernel i) / Rval (JS.Math_max kernel)).
  { apply Rmult_le_pos; [exact Hw0|]. apply Rlt_le, Rinv_0_lt_compat, Hpos. }
  destruct (Near_bounds _ _ (div_near _ _ Fw Pm ltac:(lra))) as [Fa [_ Ha]].
  split; [exact Fa|].
  set (q := Rval (aget kernel i) / Rval (JS.Math_max kernel)) in *.
  assert (eps * q <= / 1000000000000000 * 1)
    by (apply Rmult_le_compat; lra).
  lra.
Qed.

End MathMax.

(** ** The square root of a rounded number *)

Section SquareRoot.

Local Open Scope R_scope.

(** The integer square root of a number of [n] digits has at least
    [(n + 1) / 2] digits. *)
Lemma Zdigits2_sqrt (m : Z) :
  (0 < m)%Z -> ((Zdigits2 m + 1) / 2 <= Zdigits2 (Z.sqrt m))%Z.
Proof.
  intros Hm.
  destruct (Zdigits2_bounds m Hm) as [Hlo _].
  assert (Hd : (0 < Zdigits2 m)%Z) by (destruct m; cbn; lia).
  set (k := ((Zdigits2 m + 1) / 2 - 1)%Z).
  assert (Hk : (0 <= k)%Z) by (unfold k; Z.div_mod_to_equations; lia).
  assert (H2k : (2 * k <= Zdigits2 m - 1)%Z)
    by (unfold k; Z.div_mod_to_equations; lia).
  assert (Hsq : (2 ^ k * 2 ^ k <= m)%Z).
  { rewrite <- Z.pow_add_r by lia.
    apply Z.le_trans with (2 ^ (Zdigits2 m - 1))%Z; [|exact Hlo].
    apply Z.pow_le_mono_r; lia. }
  assert (Hq : (2 ^ k <= Z.sqrt m)%Z).
  { apply Z.sqrt_le_square; [lia|apply Z.pow_nonneg; lia|exact Hsq]. }
  pose proof (Zdigits2_ge (Z.sqrt m) k Hk Hq). unfold k in *. lia.
Qed.

Lemma sqrt_pow2 (e : Z) : R_sqrt.sqrt (pow2 (2 * e)) = pow2 e.
Proof.
  replace (2 * e)%Z with (e + e)%Z by lia. rewrite pow2_add.
  apply sqrt_square. apply Rlt_le, pow2_pos.
Qed.

Lemma sqrt_IZR_bounds (m q r : Z) :
  (0 <= q)%Z -> (m = q * q + r)%Z -> (0 <= r <= 2 * q)%Z ->
  IZR q <= R_sqrt.sqrt (IZR m) <= IZR q + 1.
Proof.
  intros Hq Hm Hr.
  assert (H0 : 0 <= IZR q) by (apply IZR_le; lia).
  split.
  - rewrite <- (sqrt_square (IZR q)) at 1 by exact H0.
    apply sqrt_le_1_alt. rewrite <- mult_IZR. apply IZR_le. lia.
  - rewrite <- (sqrt_square (IZR q + 1)) by lra.
    apply sqrt_le_1_alt. rewrite <- plus_IZR, <- mult_IZR. apply IZR_le. nia.
Qed.

Lemma SFsqrt_near (x : spec_float) :
  fin0 x -> SF2R x <= pow2 900 -> near (R_sqrt.sqrt (SF2R x)) (SFsqrt prec emax x).
Proof.
  intros Hx Ht.
  destruct x as [sx|sx| |[] mx ex]; try contradiction.
  - cbn [SFsqrt SF2R]. rewrite sqrt_0. apply near_zero.
  - cbn [SFsqrt]. unfold SFsqrt_core_binary.
    set (d := Zdigits2 (Z.pos mx)).
    set (e' := Z.min (fexp prec emax (Z.div2 (d + ex + 1))) (Z.div2 ex)).
    set (s := (ex - 2 * e')%Z).
    assert (He2 : (2 * Z.div2 ex <= ex)%Z)
      by (rewrite Z.div2_div; Z.div_mod_to_equations; lia).
    assert (Hs : (0 <= s)%Z) by (unfold s, e'; lia).
    set (m' := match s with
               | Z0 => Z.pos mx
               | Zpos _ => Z.shiftl (Z.pos mx) s
               | Zneg _ => 0%Z
               end).
    assert (Hm' : m' = (Z.pos mx * 2 ^ s)%Z).
    { unfold m'. destruct s as [|p|p] eqn:Hsp; try lia.
      apply Z.shiftl_mul_pow2. lia. }
    clearbody m'.
    assert (Hps : (0 < 2 ^ s)%Z) by (apply Z.pow_pos_nonneg; lia).
    assert (Hm'0 : (0 < m')%Z) by nia.
    pose proof (Z.sqrtrem_spec m' ltac:(lia)) as Hspec.
    pose proof (Z.sqrtrem_sqrt m') as Hfst.
    destruct (Z.sqrtrem m') as [q r]. cbn [fst] in Hfst. subst q.
    destruct Hspec as [Hqr Hr].
    set (q := Z.sqrt m') in *.
    assert (Hq0 : (0 <= q)%Z) by apply Z.sqrt_nonneg.
    pose proof (pow2_pos ex) as Hpx. pose proof (pow2_pos e') as Hpe'.
    assert (H1x : 1 <= IZR (Z.pos mx)) by (apply IZR_le; lia).
    cbn [SF2R] in *.
    assert (Hval : IZR (Z.pos mx) * pow2 ex = IZR m' * pow2 (2 * e')).
    { rewrite Hm', mult_IZR, pow2_IZR by exact Hs.
      rewrite Rmult_assoc, <- pow2_add. do 2 f_equal. unfold s. lia. }
    assert (Hroot : R_sqrt.sqrt (IZR (Z.pos mx) * pow2 ex) = R_sqrt.sqrt (IZR m') * pow2 e').
    { rewrite Hval, sqrt_mult_alt by (apply IZR_le; lia).
      rewrite sqrt_pow2. reflexivity. }
    destruct (sqrt_IZR_bounds m' q r Hq0 Hqr Hr) as [Hlo Hhi].
    assert (Hex : (ex <= 900)%Z).
    { assert (H : pow2 ex <= pow2 900) by nra. apply pow2_le_inv in H. exact H. }
    apply binary_round_aux_near.
    + exact Hq0.
    + unfold e'. rewrite (Z.div2_div ex). Z.div_mod_to_equations. lia.
    + rewrite Hroot.
      assert (Hs1 : R_sqrt.sqrt (IZR (Z.pos mx) * pow2 ex) <= R_sqrt.sqrt (pow2 900))
        by (apply sqrt_le_1_alt; exact Ht).
      rewrite Hroot in Hs1. apply Rle_trans with (1 := Hs1).
      replace 900%Z with (2 * 450)%Z by lia. rewrite sqrt_pow2.
      apply pow2_le. lia.
    + right. split.
      * (* the exponent is the one of the format for the root's digits *)
        assert (Hdq : ((Zdigits2 m' + 1) / 2 <= Zdigits2 q)%Z)
          by (apply Zdigits2_sqrt; exact Hm'0).
        assert (Hdm : (d + s <= Zdigits2 m')%Z).
        { destruct (Zdigits2_bounds (Z.pos mx) ltac:(lia)) as [Hl _].
          fold d in Hl.
          assert (Hd : (0 < d)%Z) by (unfold d; cbn; lia).
          assert (H : (2 ^ (d + s - 1) <= m')%Z).
          { replace (d + s - 1)%Z with ((d - 1) + s)%Z by lia.
            rewrite Z.pow_add_r by lia. rewrite Hm'.
            apply Z.mul_le_mono_nonneg_r; lia. }
          pose proof (Zdigits2_ge m' (d + s - 1) ltac:(lia) H). lia. }
        assert (Hmono : (Z.div2 (d + ex + 1) <= Zdigits2 q + e')%Z).
        { rewrite Z.div2_div. unfold s in *. Z.div_mod_to_equations. lia. }
        assert (Hmin : (e' <= fexp prec emax (Z.div2 (d + ex + 1)))%Z)
          by (unfold e'; lia).
        unfold fexp, SpecFloat.emin, prec, emax in *. lia.
      * rewrite Hroot. split; apply Rmult_le_compat_r; lra.
Qed.

Lemma sqrt_near (x : float) :
  Fin0 x -> Rval x <= pow2 900 -> Near (R_sqrt.sqrt (Rval x)) (PrimFloat.sqrt x).
Proof.
  intros Hx Ht. unfold Near, Rval in *. rewrite sqrt_spec.
  apply SFsqrt_near; assumption.
Qed.

End SquareRoot.

(** ** Differences and quotients of numbers of either sign *)

Section SignedOperations.

Local Open Scope R_scope.

Lemma cond_Zopp_negb (s : bool) (m : Z) :
  cond_Zopp (negb s) m = (- cond_Zopp s m)%Z.
Proof. destruct s; cbn [cond_Zopp negb]; lia. Qed.

(** A subtraction is the addition of the opposite. *)
Lemma SFsub_add_opp (x y : spec_float) :
  finite x -> finite y ->
  SFsub prec emax x y = SFadd prec emax x (SFopp y).
Proof.
  intros Hx Hy.
  destruct x as [sx|sx| |sx mx ex]; try contradiction;
    destruct y as [sy|sy| |sy my ey]; try contradiction;
    cbn [SFsub SFadd SFopp].
  - destruct sx, sy; reflexivity.
  - reflexivity.
  - reflexivity.
  - rewrite cond_Zopp_negb. reflexivity.
Qed.

Lemma SFsub_nearS (x y : spec_float) :
  finite x -> finite y -> Rabs (SF2R x) + Rabs (SF2R y) <= pow2 900 ->
  nearS (SF2R x - SF2R y) (SFsub prec emax x y).
Proof.
  intros Hx Hy Ht. rewrite SFsub_add_opp by assumption.
  replace (SF2R x - SF2R y) with (SF2R x + SF2R (SFopp y))
    by (rewrite SF2R_opp; lra).
  apply SFadd_nearS; [exact Hx|apply finite_opp, Hy|].
  rewrite SF2R_opp, Rabs_Ropp. exact Ht.
Qed.

(** A quotient of numbers of either sign. *)
Lemma SFdiv_nearS (x : spec_float) (sy : bool) (my : positive) (ey : Z) :
  finite x ->
  Rabs (SF2R x) / Rabs (SF2R (S754_finite sy my ey)) <= pow2 900 ->
  nearS (SF2R x / SF2R (S754_finite sy my ey))
    (SFdiv prec emax x (S754_finite sy my ey)).
Proof.
  intros Hx Ht.
  pose proof (pow2_pos ey) as Hpy.
  assert (H1y : 1 <= IZR (Z.pos my)) by (apply IZR_le; lia).
  assert (Hy0 : 0 < IZR (Z.pos my) * pow2 ey) by nra.
  rewrite SF2R_abs in Ht.
  destruct x as [sx|sx| |sx mx ex]; try contradiction.
  - cbn [SFdiv]. replace (SF2R (S754_zero sx) / _) with 0
      by (cbn [SF2R]; unfold Rdiv; lra).
    apply nearS_zero.
  - rewrite SF2R_abs in Ht.
    pose proof (SFdiv_near (S754_finite false mx ex) my ey I) as Hn.
    cbn [SF2R] in Hn. specialize (Hn Ht).
    cbn [SFdiv] in *.
    destruct (SFdiv_core_binary prec emax (Z.pos mx) ex (Z.pos my) ey)
      as [[mz ez] lz].
    cbn [xorb] in Hn.
    pose proof (pow2_pos ex) as Hpx.
    assert (H1x : 1 <= IZR (Z.pos mx)) by (apply IZR_le; lia).
    assert (Hq0 : 0 <= IZR (Z.pos mx) * pow2 ex / (IZR (Z.pos my) * pow2 ey)).
    { apply Rmult_le_pos; [nra|]. apply Rlt_le, Rinv_0_lt_compat, Hy0. }
    replace (SF2R (S754_finite sx mx ex) / SF2R (S754_finite sy my ey))
      with ((if xorb sx sy then -1 else 1)
            * (IZR (Z.pos mx) * pow2 ex / (IZR (Z.pos my) * pow2 ey))).
    2: { rewrite !SF2R_signed. destruct sx, sy; cbn [xorb]; field; lra. }
    destruct (xorb sx sy).
    + rewrite binary_round_aux_opp.
      replace (-1 * (IZR (Z.pos mx) * pow2 ex / (IZR (Z.pos my) * pow2 ey)))
        with (- (IZR (Z.pos mx) * pow2 ex / (IZR (Z.pos my) * pow2 ey)))
        by lra.
      apply nearS_opp, near_nearS; assumption.
    + rewrite Rmult_1_l. apply near_nearS; assumption.
Qed.

Lemma sub_signed (x y : float) :
  Finite x -> Finite y -> Rabs (Rval x) + Rabs (Rval y) <= pow2 900 ->
  NearS (Rval x - Rval y) (x - y)%float.
Proof.
  intros Hx Hy Ht. unfold NearS, Rval in *. rewrite sub_spec.
  apply SFsub_nearS; assumption.
Qed.

Lemma NonZero_Finite (x : float) : NonZero x -> Finite x.
Proof. intros (s & m & e & H). unfold Finite. rewrite H. exact I. Qed.

Lemma NonZero_Rval (x : float) : NonZero x -> 0 < Rabs (Rval x).
Proof.
  intros (s & m & e & H). unfold Rval. rewrite H, SF2R_abs.
  pose proof (pow2_pos e).
  assert (1 <= IZR (Z.pos m)) by (apply IZR_le; lia). nra.
Qed.

Lemma div_signed (x y : float) :
  Finite x -> NonZero y -> Rabs (Rval x) / Rabs (Rval y) <= pow2 900 ->
  NearS (Rval x / Rval y) (x / y)%float.
Proof.
  intros Hx (s & m & e & Hy) Ht. unfold NearS, Rval in *. rewrite div_spec.
  rewrite Hy in *. apply SFdiv_nearS; assumption.
Qed.

(** The test [b == 0] on a finite number. *)
Lemma eqb_zero (x : float) :
  Finite x ->
  if (x =? 0)%float then Rval x = 0 /\ Fin0 x else NonZero x.
Proof.
  unfold Finite, Rval, Fin0, NonZero. rewrite FloatAxioms.eqb_spec.
  change (Prim2SF 0) with (S754_zero false). unfold SFeqb.
  destruct (Prim2SF x) as [s|s| |s m e]; try contradiction; intros _.
  - cbn. split; [reflexivity|exact I].
  - cbn [SFcompare]. destruct s; eexists _, _, _; reflexivity.
Qed.

(** The clamp [max(v, 0)] as the script writes it. *)
Lemma clamp_negative (x : float) :
  Finite x ->
  Fin0 (if (x <? 0)%float then 0%float else x)
  /\ Rval (if (x <? 0)%float then 0%float else x) = Rmax (Rval x) 0.
Proof.
  unfold Finite, Rval, Fin0. rewrite ltb_spec.
  change (Prim2SF 0) with (S754_zero false). unfold SFltb.
  destruct (Prim2SF x) as [s|s| |s m e] eqn:E; try contradiction; intros _.
  - cbn [SFcompare]. rewrite E. split; [exact I|].
    cbn [SF2R]. rewrite Rmax_left; lra.
  - cbn [SFcompare]. pose proof (pow2_pos e).
    assert (1 <= IZR (Z.pos m)) by (apply IZR_le; lia).
    destruct s.
    + change (Prim2SF 0) with (S754_zero false). split; [exact I|].
      cbn [SF2R]. rewrite Rmax_right; [reflexivity|nra].
    + rewrite E. split; [exact I|]. cbn [SF2R]. rewrite Rmax_left; nra.
Qed.

End SignedOperations.

(** ** The eigenvalues of the closed form *)

Section ClosedFormValues.

Local Open Scope R_scope.

Lemma Rabs_square (x : R) : x * x = Rabs x * Rabs x.
Proof. unfold Rabs. destruct (Rcase_abs x); ring. Qed.

(** The difference of two products, from the differences of the factors. *)
Lemma product_close (x X y Y ex ey : R) :
  Rabs (x - X) <= ex -> Rabs (y - Y) <= ey ->
  Rabs (x * y - X * Y) <= ex * Rabs y + Rabs X * ey.
Proof.
  intros Hx Hy. replace (x * y - X * Y) with ((x - X) * y + X * (y - Y)) by ring.
  eapply Rle_trans; [apply Rabs_triang|]. rewrite !Rabs_mult.
  pose proof (Rabs_pos y). pose proof (Rabs_pos X).
  pose proof (Rabs_pos (x - X)). pose proof (Rabs_pos (y - Y)).
  apply Rplus_le_compat; apply Rmult_le_compat; lra.
Qed.

(** [2^-1000] and [2^-500] bound what underflow can add. *)
Lemma eta_nu : eta * 18889465931478580854784 = pow2 (-1000).
Proof.
  unfold eta. replace 18889465931478580854784 with (pow2 74).
  - rewrite <- pow2_add. reflexivity.
  - rewrite <- pow2_IZR by lia. reflexivity.
Qed.

Lemma tau_square : pow2 (-500) * pow2 (-500) = pow2 (-1000).
Proof. rewrite <- pow2_add. reflexivity. Qed.

Lemma tau_small : pow2 (-500) <= / 1000000000000000000000000000000.
Proof.
  apply Rle_trans with (pow2 (-100)); [apply pow2_le; lia|].
  change (-100)%Z with (- (100))%Z. rewrite pow2_neg, <- pow2_IZR by lia.
  change (2 ^ 100)%Z with 1267650600228229401496703205376%Z.
  apply Rinv_le_contravar; lra.
Qed.

Lemma nu_tau : pow2 (-1000) <= pow2 (-500) / 1000000000000000000000000000000.
Proof.
  rewrite <- tau_square. pose proof tau_small. pose proof (pow2_pos (-500)).
  nra.
Qed.

Variables a b d : float.
Hypothesis Ha : Fin0 a.
Hypothesis Hd : Fin0 d.
Hypothesis Hb : Finite b.
Hypothesis Ba : Rval a <= 1050000.
Hypothesis Bd : Rval d <= 1050000.
Hypothesis Bb : Rabs (Rval b) <= 1050000.

Lemma trace_near : Near (Rval a + Rval d) (a + d)%float.
Proof. apply add_near; try assumption. pose proof pow2_900_large. lra. Qed.

Lemma det_close :
  Finite (a * d - b * b)%float
  /\ Rabs (Rval (a * d - b * b)%float - (Rval a * Rval d - Rval b * Rval b))
     <= 3 * eps * ((Rval a + Rval d + Rabs (Rval b))
                   * (Rval a + Rval d + Rabs (Rval b))) + 4 * eta.
Proof.
  pose proof (Fin0_nonneg _ Ha) as A0. pose proof (Fin0_nonneg _ Hd) as D0.
  pose proof (Rabs_pos (Rval b)) as B0. pose proof pow2_900_large as Hbig.
  pose proof (Rabs_square (Rval b)) as HBB.
  assert (Hp : Near (Rval a * Rval d) (a * d)%float)
    by (apply mul_near; try assumption; nra).
  assert (Hq : Near (Rval b * Rval b) (b * b)%float)
    by (apply mul_square; try assumption; nra).
  destruct Hp as [Fp Hp], Hq as [Fq Hq]. fold (Fin0 (a * d)) in Fp.
  fold (Fin0 (b * b)) in Fq. fold (Rval (a * d)) in Hp. fold (Rval (b * b)) in Hq.
  pose proof (Fin0_nonneg _ Fp) as P0. pose proof (Fin0_nonneg _ Fq) as Q0.
  apply Rabs_le_both in Hp, Hq. unfold eps in Hp, Hq.
  pose proof eta_small as He.
  assert (Rval a * Rval d <= 1050000 * 1050000) by nra.
  assert (Rval b * Rval b <= 1050000 * 1050000) by nra.
  assert (Hs : NearS (Rval (a * d) - Rval (b * b)) (a * d - b * b)%float).
  { apply sub_signed; try (apply Fin0_Finite; assumption).
    rewrite !Rabs_pos_eq by assumption. lra. }
  destruct Hs as [Fs Hs]. split; [exact Fs|].
  fold (Rval (a * d - b * b)) in Hs.
  assert (Hm : Rabs (Rval (a * d) - Rval (b * b)) <= Rval (a * d) + Rval (b * b))
    by (apply Rabs_le_both; lra).
  apply Rabs_le_both in Hs. apply Rabs_le_both.
  set (A := Rval a) in *. set (D := Rval d) in *. set (Bm := Rabs (Rval b)) in *.
  set (B := Rval b) in *.
  assert (0 <= A * D) by nra. assert (0 <= A * Bm) by nra.
  assert (0 <= D * Bm) by nra. assert (0 <= A * A) by nra.
  assert (0 <= D * D) by nra. assert (0 <= Bm * Bm) by nra.
  unfold eps in *. lra.
Qed.

Lemma Rval_4 : Rval 4 = 4.
Proof.
  rewrite (Rval_closed 4 _ _ eq_refl).
  match goal with
  | |- context [IZR (2 ^ Z.pos ?p)] =>
      let z := eval vm_compute in (2 ^ Z.pos p)%Z in
      change (2 ^ Z.pos p)%Z with z
  end. lra.
Qed.

Lemma quarter_close :
  Fin0 ((a + d) * (a + d) / 4)%float
  /\ Rabs (Rval ((a + d) * (a + d) / 4)%float
           - (Rval a + Rval d) * (Rval a + Rval d) / 4)
     <= 11 / 10 * eps * ((Rval a + Rval d) * (Rval a + Rval d)) + 2000000 * eta.
Proof.
  pose proof (Fin0_nonneg _ Ha) as A0. pose proof (Fin0_nonneg _ Hd) as D0.
  pose proof pow2_900_large as Hbig. pose proof eta_small as He.
  assert (0 < eta) as He0 by apply pow2_pos.
  destruct trace_near as [Ft Ht]. fold (Fin0 (a + d)) in Ft.
  fold (Rval (a + d)) in Ht. pose proof (Fin0_nonneg _ Ft) as T0.
  set (G := Rval a + Rval d) in *. set (T := Rval (a + d)) in *.
  assert (HTT : Rabs (T * T - G * G)
                <= (eps * G + eta) * Rabs T + Rabs G * (eps * G + eta))
    by (apply product_close; exact Ht).
  assert (HG : 0 <= G <= 2100000) by (unfold G; lra).
  rewrite (Rabs_pos_eq T), (Rabs_pos_eq G) in HTT by lra.
  apply Rabs_le_both in Ht. unfold eps in Ht, HTT.
  assert (HGG : G * G <= 2100000 * 2100000) by nra.
  assert (HGe : G * eta <= 2100000 * eta) by nra.
  assert (HTe : T * eta <= 2100001 * eta) by nra.
  assert (HGT : G * T <= (1 + / 4503599627370496) * (G * G) + 2100000 * eta)
    by nra.
  assert (0 <= G * G) by nra.
  apply Rabs_le_both in HTT.
  assert (Hm : Near (T * T) ((a + d) * (a + d))%float)
    by (apply mul_near; try assumption; fold T; lra).
  destruct Hm as [Fm Hm]. fold (Fin0 ((a + d) * (a + d))) in Fm.
  fold (Rval ((a + d) * (a + d))) in Hm.
  set (TT := Rval ((a + d) * (a + d))) in *.
  apply Rabs_le_both in Hm. unfold eps in Hm.
  assert (Hq : Near (TT / Rval 4) ((a + d) * (a + d) / 4)%float).
  { apply div_near; [assumption|apply (PosFin_closed 4 _ _ eq_refl)|].
    rewrite Rval_4. fold TT. lra. }
  rewrite Rval_4 in Hq. destruct Hq as [Fq Hq]. split; [exact Fq|].
  fold (Rval ((a + d) * (a + d) / 4)) in Hq. apply Rabs_le_both in Hq.
  apply Rabs_le_both. unfold eps in *. lra.
Qed.

Local Abbreviation Sc := (Rval a + Rval d + Rabs (Rval b)).
Local Abbreviation Rx :=
  ((Rval a - Rval d) * (Rval a - Rval d) / 4 + Rval b * Rval b).
Local Abbreviation radicand := ((a + d) * (a + d) / 4 - (a * d - b * b))%float.
Local Abbreviation disc :=
  (PrimFloat.sqrt (if (radicand <? 0)%float then 0%float else radicand)).

Lemma scale_facts :
  0 <= Rval a /\ 0 <= Rval d /\ 0 <= Rabs (Rval b) /\ 0 <= Sc <= 3150000
  /\ 0 <= Sc * Sc <= 3150000 * 3150000
  /\ (Rval a + Rval d) * (Rval a + Rval d) <= Sc * Sc
  /\ Rabs (Rval a * Rval d - Rval b * Rval b)
     <= Rval a * Rval d + Rval b * Rval b
  /\ Rval a * Rval d + Rval b * Rval b <= Sc * Sc
  /\ 0 <= Rx <= Sc * Sc.
Proof.
  pose proof (Fin0_nonneg _ Ha) as A0. pose proof (Fin0_nonneg _ Hd) as D0.
  pose proof (Rabs_pos (Rval b)) as B0.
  pose proof (Rabs_square (Rval b)) as HBB.
  set (A := Rval a) in *. set (D := Rval d) in *. set (Bm := Rabs (Rval b)) in *.
  set (B := Rval b) in *.
  assert (0 <= A * D) by nra. assert (0 <= A * Bm) by nra.
  assert (0 <= D * Bm) by nra. assert (0 <= A * A) by nra.
  assert (0 <= D * D) by nra. assert (0 <= Bm * Bm) by nra.
  pose proof (Rle_0_sqr (A - D)) as Hsq. unfold Rsqr in Hsq.
  assert (A * D <= 1050000 * 1050000) by nra.
  assert (HS : 0 <= A + D + Bm <= 3150000) by lra.
  repeat split; try lra; try nra.
  apply Rabs_le_both. lra.
Qed.

Lemma radicand_close :
  Finite radicand
  /\ Rabs (Rval radicand - Rx) <= 6 * eps * (Sc * Sc) + 3000000 * eta.
Proof.
  destruct scale_facts as (A0 & D0 & B0 & HS & HSS & HG & HD & HW & HR).
  pose proof pow2_900_large as Hbig. pose proof eta_small as He.
  assert (0 < eta) as He0 by apply pow2_pos.
  destruct quarter_close as [Fq Hq], det_close as [Fd Hd'].
  pose proof (Fin0_nonneg _ Fq) as Q0.
  pose proof (Rabs_near _ _ _ Hd') as Hdm.
  assert (0 <= (Rval a + Rval d) * (Rval a + Rval d)) by nra.
  apply Rabs_le_both in Hq. unfold eps in Hq, Hdm.
  assert (Hs : NearS (Rval ((a + d) * (a + d) / 4) - Rval (a * d - b * b))
                 radicand).
  { apply sub_signed; [apply Fin0_Finite; assumption|assumption|].
    rewrite (Rabs_pos_eq _ Q0). lra. }
  destruct Hs as [Fs Hs]. split; [exact Fs|].
  fold (Rval radicand) in Hs.
  assert (Hm : Rabs (Rval ((a + d) * (a + d) / 4) - Rval (a * d - b * b))
               <= Rval ((a + d) * (a + d) / 4) + Rabs (Rval (a * d - b * b))).
  { unfold Rminus at 1. eapply Rle_trans; [apply Rabs_triang|].
    rewrite Rabs_Ropp, (Rabs_pos_eq _ Q0). lra. }
  apply Rabs_le_both in Hs, Hd'. apply Rabs_le_both. unfold eps in *. lra.
Qed.

Lemma root_of_sum (x s t : R) :
  0 <= x -> 0 <= s -> 0 <= t -> x * x <= s * s + t * t -> x <= s + t.
Proof.
  intros Hx Hs Ht H. destruct (Rle_lt_dec x (s + t)) as [|Hlt]; [assumption|].
  assert (0 <= s * t) by nra.
  assert ((s + t) * (s + t) < x * x) by nra. lra.
Qed.

Lemma disc_close :
  Fin0 disc
  /\ Rval disc <= 102 / 100 * Sc + 2 * pow2 (-500)
  /\ Rabs (Rval disc * Rval disc - Rx)
     <= 9 * eps * (Sc * Sc) + 20000000 * eta.
Proof.
  destruct scale_facts as (A0 & D0 & B0 & HS & HSS & HG & HD & HW & HR).
  pose proof pow2_900_large as Hbig. pose proof eta_small as He.
  assert (0 < eta) as He0 by apply pow2_pos.
  pose proof eta_nu as Hnu. pose proof tau_square as Htt.
  pose proof tau_small as Hts. pose proof (pow2_pos (-500)) as Ht0.
  destruct radicand_close as [Fr Hr].
  destruct (clamp_negative _ Fr) as [Fc Hc].
  set (c := if (radicand <? 0)%float then 0%float else radicand) in *.
  assert (Hp : Rabs (Rval c - Rx) <= 6 * eps * (Sc * Sc) + 3000000 * eta).
  { rewrite Hc. apply Rabs_le_both in Hr. apply Rabs_le_both.
    unfold Rmax. destruct (Rle_dec _ _); unfold eps in *; lra. }
  pose proof (Fin0_nonneg _ Fc) as C0. clear Hc Hr.
  apply Rabs_le_both in Hp. unfold eps in Hp.
  assert (Hn : Near (R_sqrt.sqrt (Rval c)) (PrimFloat.sqrt c))
    by (apply sqrt_near; [assumption|lra]).
  destruct Hn as [Fn Hn]. split; [exact Fn|].
  fold (Rval (PrimFloat.sqrt c)) in Hn.
  pose proof (sqrt_pos (Rval c)) as S0. pose proof (sqrt_sqrt _ C0) as Hsq.
  set (sg := R_sqrt.sqrt (Rval c)) in *. set (Dv := Rval (PrimFloat.sqrt c)) in *.
  assert (D0' : 0 <= Dv) by (apply Fin0_nonneg; exact Fn).
  assert (Hsg : sg <= 101 / 100 * Sc + pow2 (-500)).
  { apply root_of_sum; [lra|lra|lra|]. rewrite Hsq, Htt. lra. }
  assert (Hd2 : Rabs (Dv * Dv - sg * sg)
                <= (eps * sg + eta) * Rabs Dv + Rabs sg * (eps * sg + eta))
    by (apply product_close; exact Hn).
  rewrite (Rabs_pos_eq Dv), (Rabs_pos_eq sg) in Hd2 by lra.
  apply Rabs_le_both in Hn, Hd2. unfold eps in Hn, Hd2.
  assert (Hsge : sg * eta <= 3200000 * eta) by nra.
  assert (HDe : Dv * eta <= 3200000 * eta) by nra.
  assert (HsD : sg * Dv <= (1 + / 4503599627370496) * (sg * sg) + 3200000 * eta)
    by nra.
  pose proof nu_tau as Hnt.
  split; [lra|]. apply Rabs_le_both. unfold eps. lra.
Qed.

Lemma half_close :
  Fin0 ((a + d) / 2)%float
  /\ Rabs (Rval ((a + d) / 2)%float - (Rval a + Rval d) / 2)
     <= 101 / 100 * eps * (Rval a + Rval d) + 2 * eta.
Proof.
  pose proof (Fin0_nonneg _ Ha) as A0. pose proof (Fin0_nonneg _ Hd) as D0.
  pose proof pow2_900_large as Hbig. pose proof eta_small as He.
  assert (0 < eta) as He0 by apply pow2_pos.
  destruct trace_near as [Ft Ht]. fold (Fin0 (a + d)) in Ft.
  fold (Rval (a + d)) in Ht. apply Rabs_le_both in Ht. unfold eps in Ht.
  assert (Hh : Near (Rval (a + d) / Rval 2) ((a + d) / 2)%float).
  { apply div_near; [assumption|apply (PosFin_closed 2 _ _ eq_refl)|].
    rewrite Rval_2. lra. }
  rewrite Rval_2 in Hh. destruct Hh as [Fh Hh]. split; [exact Fh|].
  fold (Rval ((a + d) / 2)) in Hh. apply Rabs_le_both in Hh.
  apply Rabs_le_both. unfold eps in *. lra.
Qed.

Local Abbreviation G := (Rval a + Rval d).
Local Abbreviation low := ((a + d) / 2 - disc)%float.
Local Abbreviation high := ((a + d) / 2 + disc)%float.

Lemma values_close :
  Finite low /\ Fin0 high
  /\ Rabs (Rval low) <= 16 / 10 * Sc + 4 * pow2 (-500)
  /\ Rval high <= 16 / 10 * Sc + 4 * pow2 (-500)
  /\ Rabs (Rval low + Rval high - (Rval a + Rval d))
     <= 6 * eps * Sc + pow2 (-500)
  /\ Rabs (Rval low * Rval high - (Rval a * Rval d - Rval b * Rval b))
     <= 15 * eps * (Sc * Sc) + pow2 (-500).
Proof.
  destruct scale_facts as (A0 & D0 & B0 & HS & HSS & HG & HD & HW & HR).
  pose proof pow2_900_large as Hbig. pose proof eta_small as He.
  assert (0 < eta) as He0 by apply pow2_pos.
  pose proof eta_nu as Hnu. pose proof tau_square as Htt.
  pose proof tau_small as Hts. pose proof (pow2_pos (-500)) as Ht0.
  pose proof nu_tau as Hnt.
  destruct half_close as [Fh Hh], disc_close as (Fd & Hdm & Hd2).
  pose proof (Fin0_nonneg _ Fh) as H0. pose proof (Fin0_nonneg _ Fd) as Dv0.
  set (h := ((a + d) / 2)%float) in *. set (dv := disc) in *.
  assert (HG0 : 0 <= G <= Sc) by lra.
  assert (Hhh : Rabs (Rval h * Rval h - G / 2 * (G / 2))
                <= (101 / 100 * eps * G + 2 * eta) * Rabs (Rval h)
                   + Rabs (G / 2) * (101 / 100 * eps * G + 2 * eta))
    by (apply product_close; exact Hh).
  rewrite (Rabs_pos_eq (Rval h)), (Rabs_pos_eq (G / 2)) in Hhh by lra.
  apply Rabs_le_both in Hh, Hhh. unfold eps in Hh, Hhh.
  assert (Hl : NearS (Rval h - Rval dv) (h - dv)%float).
  { apply sub_signed; try (apply Fin0_Finite; assumption).
    rewrite !Rabs_pos_eq by assumption. lra. }
  assert (Hu : Near (Rval h + Rval dv) (h + dv)%float)
    by (apply add_near; try assumption; lra).
  destruct Hl as [Fl Hl], Hu as [Fu Hu].
  fold (Rval (h - dv)) in Hl. fold (Rval (h + dv)) in Hu.
  fold (Fin0 (h + dv)) in Fu. pose proof (Fin0_nonneg _ Fu) as U0.
  set (L := Rval (h - dv)) in *. set (U := Rval (h + dv)) in *.
  set (H := Rval h) in *. set (Dv := Rval dv) in *.
  set (Y := H + Dv) in *. assert (EY : Y = H + Dv) by reflexivity.
  assert (Hm : Rabs (H - Dv) <= Y) by (apply Rabs_le_both; unfold Y; lra).
  assert (HY : 0 <= Y <= 153 / 100 * Sc + 3 * pow2 (-500)) by (unfold Y; lra).
  assert (Hl' : Rabs (L - (H - Dv)) <= eps * Y + eta).
  { eapply Rle_trans; [exact Hl|]. unfold eps. lra. }
  assert (Hp : Rabs (L * U - (H - Dv) * Y)
               <= (eps * Y + eta) * Rabs U + Rabs (H - Dv) * (eps * Y + eta))
    by (apply product_close; [exact Hl'|exact Hu]).
  rewrite (Rabs_pos_eq U) in Hp by lra.
  apply Rabs_le_both in Hl', Hu. unfold eps in Hl', Hu, Hp.
  assert (HYY : Y * Y <= 235 / 100 * (Sc * Sc) + 100000000 * pow2 (-500)).
  { assert (Y * Y <= (153 / 100 * Sc + 3 * pow2 (-500))
                     * (153 / 100 * Sc + 3 * pow2 (-500)))
      by (apply Rmult_le_compat; lra).
    assert (Sc * pow2 (-500) <= 3150000 * pow2 (-500))
      by (apply Rmult_le_compat_r; lra).
    lra. }
  assert (HYe : Y * eta <= 5000000 * eta)
    by (apply Rmult_le_compat_r; lra).
  assert (HYU : Y * U <= Y * ((1 + / 4503599627370496) * Y + eta))
    by (apply Rmult_le_compat_l; lra).
  assert (HUe : U * eta <= 5100000 * eta)
    by (apply Rmult_le_compat_r; lra).
  assert (HYm : (/ 4503599627370496 * Y + eta) * Rabs (H - Dv)
                <= (/ 4503599627370496 * Y + eta) * Y)
    by (apply Rmult_le_compat_l; [lra|exact Hm]).
  assert (HGG : 0 <= G * G) by (apply Rmult_le_pos; lra).
  assert (HGe : G * eta <= 3150000 * eta)
    by (apply Rmult_le_compat_r; lra).
  assert (HHe : H * eta <= 3150000 * eta)
    by (apply Rmult_le_compat_r; lra).
  assert (HGH : G * H
                <= G * (G / 2 + 101 / 100 * / 4503599627370496 * G + 2 * eta))
    by (apply Rmult_le_compat_l; lra).
  apply Rabs_le_both in Hd2. unfold eps in Hd2.
  split; [exact Fl|]. split; [exact Fu|].
  split; [apply Rabs_le_both; apply Rabs_le_both in Hm; lra|].
  split; [lra|].
  split; [apply Rabs_le_both; unfold eps; lra|].
  apply Rabs_le_both in Hp. apply Rabs_le_both. unfold eps.
  replace (Rval a * Rval d - Rval b * Rval b)
    with (G / 2 * (G / 2) - Rx) by field.
  replace ((H - Dv) * Y) with (H * H - Dv * Dv) in Hp by (unfold Y; ring).
  lra.
Qed.

(** The second components of the two eigenvectors before normalisation. *)
Lemma offsets_close :
  Finite (low - a) /\ Finite (high - a)
  /\ Rabs (Rval (low - a)) <= 10000000 /\ Rabs (Rval (high - a)) <= 10000000
  /\ Rabs (Rval b * Rval b + Rval (low - a) * Rval (high - a))
     <= 36 * eps * (Sc * Sc) + 4000000 * pow2 (-500).
Proof.
  destruct scale_facts as (A0 & D0 & B0 & HS & HSS & HG & HD & HW & HR).
  pose proof pow2_900_large as Hbig. pose proof eta_small as He.
  assert (0 < eta) as He0 by apply pow2_pos.
  pose proof eta_nu as Hnu. pose proof tau_square as Htt.
  pose proof tau_small as Hts. pose proof (pow2_pos (-500)) as Ht0.
  pose proof nu_tau as Hnt.
  destruct values_close as (Fl & Fu & Hlm & Hum & Hsum & Hprod).
  pose proof (Fin0_nonneg _ Fu) as U0.
  set (lo := low) in *. set (hi := high) in *.
  set (L := Rval lo) in *. set (U := Rval hi) in *.
  set (M := 26 / 10 * Sc + 4 * pow2 (-500)).
  assert (HM : 0 <= M <= 8200000) by (unfold M; lra).
  assert (HLA : Rabs (L - Rval a) <= M).
  { unfold Rminus. eapply Rle_trans; [apply Rabs_triang|].
    rewrite Rabs_Ropp, (Rabs_pos_eq _ A0). unfold M. lra. }
  assert (HUA : Rabs (U - Rval a) <= M).
  { apply Rabs_le_both. unfold M. lra. }
  assert (H0 : NearS (L - Rval a) (lo - a)%float).
  { apply sub_signed; [assumption|apply Fin0_Finite; assumption|].
    rewrite (Rabs_pos_eq _ A0). fold L. lra. }
  assert (H1 : NearS (U - Rval a) (hi - a)%float).
  { apply sub_signed; [apply Fin0_Finite; assumption
                      |apply Fin0_Finite; assumption|].
    fold U. rewrite (Rabs_pos_eq _ A0), (Rabs_pos_eq _ U0). lra. }
  destruct H0 as [F0 H0], H1 as [F1 H1].
  fold (Rval (lo - a)) in H0. fold (Rval (hi - a)) in H1.
  set (X0 := Rval (lo - a)) in *. set (X1 := Rval (hi - a)) in *.
  assert (H0' : Rabs (X0 - (L - Rval a)) <= eps * M + eta).
  { eapply Rle_trans; [exact H0|]. unfold eps. lra. }
  assert (H1' : Rabs (X1 - (U - Rval a)) <= eps * M + eta).
  { eapply Rle_trans; [exact H1|]. unfold eps. lra. }
  pose proof (Rabs_near _ _ _ H0') as HX0. pose proof (Rabs_near _ _ _ H1') as HX1.
  pose proof (product_close _ _ _ _ _ _ H0' H1') as Hp.
  unfold eps in H0', H1', HX0, HX1, Hp.
  assert (HMM : M * M <= 677 / 100 * (Sc * Sc) + 100000000 * pow2 (-500)).
  { assert (Sc * pow2 (-500) <= 3150000 * pow2 (-500))
      by (apply Rmult_le_compat_r; lra).
    unfold M. lra. }
  assert (HMe : M * eta <= 8200000 * eta) by (apply Rmult_le_compat_r; lra).
  assert (Hp1 : (/ 4503599627370496 * M + eta) * Rabs X1
                <= (/ 4503599627370496 * M + eta)
                   * (M + (/ 4503599627370496 * M + eta)))
    by (apply Rmult_le_compat_l; lra).
  assert (Hp2 : Rabs (L - Rval a) * (/ 4503599627370496 * M + eta)
                <= M * (/ 4503599627370496 * M + eta))
    by (apply Rmult_le_compat_r; lra).
  assert (Hee : eta * eta <= eta) by (apply Rmult_le_compat_l with (r := eta) in He; lra).
  assert (HaS : Rabs (Rval a * (L + U - (Rval a + Rval d)))
                <= Sc * (6 * eps * Sc + pow2 (-500))).
  { rewrite Rabs_mult, (Rabs_pos_eq _ A0).
    apply Rmult_le_compat; try lra. apply Rabs_pos. }
  assert (Sc * pow2 (-500) <= 3150000 * pow2 (-500))
    by (apply Rmult_le_compat_r; lra).
  split; [exact F0|]. split; [exact F1|].
  split; [lra|]. split; [lra|].
  replace (Rval b * Rval b + X0 * X1)
    with ((X0 * X1 - (L - Rval a) * (U - Rval a))
          + (L * U - (Rval a * Rval d - Rval b * Rval b))
          - Rval a * (L + U - (Rval a + Rval d))) by ring.
  apply Rabs_le_both in Hp, Hprod, HaS. apply Rabs_le_both.
  unfold eps in *. lra.
Qed.

End ClosedFormValues.

(** ** The eigenvectors of the closed form *)

Section ClosedFormVectors.

Local Open Scope R_scope.

Lemma div_le_bound (x y k : R) : 0 < y -> x <= k * y -> x / y <= k.
Proof.
  intros Hy H. apply (Rmult_le_reg_r y); [exact Hy|].
  replace (x / y * y) with x by (field; lra). exact H.
Qed.

Lemma div_ge_bound (x y k : R) : 0 < y -> k * y <= x -> k <= x / y.
Proof.
  intros Hy H. apply (Rmult_le_reg_r y); [exact Hy|].
  replace (x / y * y) with x by (field; lra). exact H.
Qed.

Lemma square_le_inv (x y : R) : 0 <= x -> 0 <= y -> x * x <= y * y -> x <= y.
Proof.
  intros Hx Hy H. destruct (Rle_lt_dec x y) as [|Hlt]; [assumption|].
  assert (y * y < x * x) by nra. lra.
Qed.

Lemma eta_below (e : Z) :
  (-974 <= e)%Z -> eta <= pow2 e / 1000000000000000000000000000000.
Proof.
  intros He. unfold eta. replace (-1074)%Z with (e + (-1074 - e))%Z by lia.
  rewrite pow2_add. pose proof (pow2_pos e).
  assert (pow2 (-1074 - e) <= / 1000000000000000000000000000000).
  { apply Rle_trans with (pow2 (-100)); [apply pow2_le; lia|].
    change (-100)%Z with (- (100))%Z. rewrite pow2_neg, <- pow2_IZR by lia.
    change (2 ^ 100)%Z with 1267650600228229401496703205376%Z.
    apply Rinv_le_contravar; lra. }
  unfold Rdiv. apply Rmult_le_compat_l; lra.
Qed.

(** The inner product of two pairs close to two others. *)
Lemma inner_close (vx vy wx wy bx by' cx cy e : R) :
  Rabs (vx - bx) <= e -> Rabs (vy - by') <= e ->
  Rabs (wx - cx) <= e -> Rabs (wy - cy) <= e ->
  Rabs bx <= 101 / 100 -> Rabs by' <= 101 / 100 ->
  Rabs cx <= 101 / 100 -> Rabs cy <= 101 / 100 -> e <= / 100 ->
  Rabs (vx * wx + vy * wy - (bx * cx + by' * cy)) <= 41 / 10 * e.
Proof.
  intros H1 H2 H3 H4 B1 B2 B3 B4 He.
  pose proof (Rabs_pos (vx - bx)) as E0.
  pose proof (product_close _ _ _ _ _ _ H1 H3) as Px.
  pose proof (product_close _ _ _ _ _ _ H2 H4) as Py.
  pose proof (Rabs_near _ _ _ H3) as Wx. pose proof (Rabs_near _ _ _ H4) as Wy.
  pose proof (Rabs_pos bx). pose proof (Rabs_pos by').
  assert (e * Rabs wx <= e * (102 / 100)) by (apply Rmult_le_compat_l; lra).
  assert (e * Rabs wy <= e * (102 / 100)) by (apply Rmult_le_compat_l; lra).
  assert (Rabs bx * e <= 101 / 100 * e) by (apply Rmult_le_compat_r; lra).
  assert (Rabs by' * e <= 101 / 100 * e) by (apply Rmult_le_compat_r; lra).
  replace (vx * wx + vy * wy - (bx * cx + by' * cy))
    with ((vx * wx - bx * cx) + (vy * wy - by' * cy)) by ring.
  eapply Rle_trans; [apply Rabs_triang|]. lra.
Qed.

Variables b x : float.
Hypothesis Hb : Finite b.
Hypothesis Hx : Finite x.
Hypothesis Blo : pow2 (-400) <= Rabs (Rval b).
Hypothesis Bhi : Rabs (Rval b) <= 10000000.
Hypothesis Xhi : Rabs (Rval x) <= 10000000.

Local Abbreviation N2 := (Rval b * Rval b + Rval x * Rval x).
Local Abbreviation norm := (PrimFloat.sqrt (b * b + x * x))%float.

Lemma norm_close :
  PosFin norm
  /\ (1 - 5 * eps) * N2 <= Rval norm * Rval norm <= (1 + 5 * eps) * N2
  /\ Rabs (Rval b) <= 101 / 100 * Rval norm
  /\ Rabs (Rval x) <= 101 / 100 * Rval norm.
Proof.
  pose proof (Rabs_pos (Rval b)) as B0. pose proof (Rabs_pos (Rval x)) as X0.
  pose proof (Rabs_square (Rval b)) as HBB.
  pose proof (Rabs_square (Rval x)) as HXX.
  pose proof pow2_900_large as Hbig. pose proof (pow2_pos (-400)) as Hp4.
  pose proof (eta_below (-800) ltac:(lia)) as He8.
  pose proof (eta_below (-400) ltac:(lia)) as He4.
  assert (0 < eta) as He0 by apply pow2_pos.
  assert (Hp8 : pow2 (-800) <= Rval b * Rval b).
  { rewrite HBB. change (-800)%Z with (-400 + -400)%Z. rewrite pow2_add.
    apply Rmult_le_compat; lra. }
  assert (HB2 : Rval b * Rval b <= 10000000 * 10000000)
    by (rewrite HBB; apply Rmult_le_compat; lra).
  assert (HX2 : 0 <= Rval x * Rval x <= 10000000 * 10000000)
    by (rewrite HXX; split; [apply Rmult_le_pos; lra|apply Rmult_le_compat; lra]).
  assert (Hq : Near (Rval b * Rval b) (b * b)%float)
    by (apply mul_square; [assumption|lra]).
  assert (Hxx : Near (Rval x * Rval x) (x * x)%float)
    by (apply mul_square; [assumption|lra]).
  destruct Hq as [Fq Hq], Hxx as [Fxx Hxx].
  fold (Fin0 (b * b)) in Fq. fold (Fin0 (x * x)) in Fxx.
  fold (Rval (b * b)) in Hq. fold (Rval (x * x)) in Hxx.
  apply Rabs_le_both in Hq, Hxx. unfold eps in Hq, Hxx.
  assert (Hs : Near (Rval (b * b) + Rval (x * x)) (b * b + x * x)%float)
    by (apply add_near; try assumption; lra).
  destruct Hs as [Fs Hs]. fold (Fin0 (b * b + x * x)) in Fs.
  fold (Rval (b * b + x * x)) in Hs. apply Rabs_le_both in Hs.
  unfold eps in Hs. pose proof (Fin0_nonneg _ Fs) as S0.
  assert (Hn : Near (R_sqrt.sqrt (Rval (b * b + x * x))) norm)
    by (apply sqrt_near; [assumption|lra]).
  destruct Hn as [Fn Hn]. fold (Fin0 norm) in Fn. fold (Rval norm) in Hn.
  pose proof (sqrt_pos (Rval (b * b + x * x))) as R0.
  pose proof (sqrt_sqrt _ S0) as Hsq.
  set (s := Rval (b * b + x * x)) in *. set (r := R_sqrt.sqrt s) in *.
  set (Nf := Rval norm) in *. set (Bm := Rabs (Rval b)) in *.
  set (Xm := Rabs (Rval x)) in *.
  assert (HrB : 999 / 1000 * Bm <= r).
  { apply square_le_inv; [lra|lra|].
    replace (999 / 1000 * Bm * (999 / 1000 * Bm))
      with (998001 / 1000000 * (Bm * Bm)) by field. lra. }
  assert (HrX : 999 / 1000 * Xm <= r).
  { apply square_le_inv; [lra|lra|].
    replace (999 / 1000 * Xm * (999 / 1000 * Xm))
      with (998001 / 1000000 * (Xm * Xm)) by field. lra. }
  apply Rabs_le_both in Hn. unfold eps in Hn.
  assert (Hlo : (1 - 101 / 100 * / 4503599627370496) * r <= Nf) by lra.
  assert (Hhi : Nf <= (1 + 101 / 100 * / 4503599627370496) * r) by lra.
  assert (Nf0 : 0 < Nf) by lra.
  split; [apply Fin0_PosFin; assumption|].
  assert (Hlo2 : (1 - 101 / 100 * / 4503599627370496) * r
                 * ((1 - 101 / 100 * / 4503599627370496) * r) <= Nf * Nf)
    by (apply Rmult_le_compat; lra).
  assert (Hhi2 : Nf * Nf <= (1 + 101 / 100 * / 4503599627370496) * r
                            * ((1 + 101 / 100 * / 4503599627370496) * r))
    by (apply Rmult_le_compat; lra).
  unfold eps. repeat split; lra.
Qed.

Lemma components_close :
  Finite (b / norm)%float /\ Finite (x / norm)%float
  /\ Rabs (Rval (b / norm)%float - Rval b / Rval norm) <= 102 / 100 * eps
  /\ Rabs (Rval (x / norm)%float - Rval x / Rval norm) <= 102 / 100 * eps
  /\ Rabs (Rval b / Rval norm) <= 101 / 100
  /\ Rabs (Rval x / Rval norm) <= 101 / 100.
Proof.
  destruct norm_close as (Pn & Hn2 & HnB & HnX).
  pose proof (PosFin_Rval _ Pn) as Nf0. pose proof pow2_900_large as Hbig.
  pose proof (eta_below (-400) ltac:(lia)) as He4.
  pose proof (pow2_pos (-400)) as Hp4.
  assert (0 < eta) as He0 by apply pow2_pos.
  assert (Hnz : NonZero norm)
    by (destruct Pn as (m & e & E); exists false, m, e; exact E).
  set (Nf := Rval norm) in *.
  assert (HqB : Rabs (Rval b / Nf) <= 101 / 100).
  { unfold Rdiv. rewrite Rabs_mult, Rabs_inv, (Rabs_pos_eq Nf) by lra.
    apply div_le_bound; assumption. }
  assert (HqX : Rabs (Rval x / Nf) <= 101 / 100).
  { unfold Rdiv. rewrite Rabs_mult, Rabs_inv, (Rabs_pos_eq Nf) by lra.
    apply div_le_bound; assumption. }
  assert (Hvx : NearS (Rval b / Rval norm) (b / norm)%float).
  { apply div_signed; [assumption|assumption|]. fold Nf.
    rewrite (Rabs_pos_eq Nf) by lra.
    eapply Rle_trans; [apply div_le_bound; [exact Nf0|exact HnB]|lra]. }
  assert (Hvy : NearS (Rval x / Rval norm) (x / norm)%float).
  { apply div_signed; [assumption|assumption|]. fold Nf.
    rewrite (Rabs_pos_eq Nf) by lra.
    eapply Rle_trans; [apply div_le_bound; [exact Nf0|exact HnX]|lra]. }
  destruct Hvx as [Fvx Hvx], Hvy as [Fvy Hvy]. fold Nf in Hvx, Hvy.
  fold (Rval (b / norm)) in Hvx. fold (Rval (x / norm)) in Hvy.
  unfold eps in *.
  repeat split; try assumption; lra.
Qed.

Lemma normalized_unit :
  Rabs (Rval (b / norm)%float * Rval (b / norm)%float
        + Rval (x / norm)%float * Rval (x / norm)%float - 1) <= 10 * eps.
Proof.
  destruct norm_close as (Pn & Hn2 & HnB & HnX).
  destruct components_close as (_ & _ & Hvx & Hvy & HqB & HqX).
  pose proof (PosFin_Rval _ Pn) as Nf0.
  pose proof (inner_close _ _ _ _ _ _ _ _ _ Hvx Hvy Hvx Hvy HqB HqX HqB HqX)
    as Hin.
  set (Nf := Rval norm) in *.
  assert (Hr : Rval b / Nf * (Rval b / Nf) + Rval x / Nf * (Rval x / Nf)
               = N2 / (Nf * Nf)) by (field; lra).
  rewrite Hr in Hin. clear Hr.
  assert (HNN : 0 < Nf * Nf) by (apply Rmult_lt_0_compat; assumption).
  assert (Hlo : 1 - 5 * eps <= N2 / (Nf * Nf)).
  { apply div_ge_bound; [exact HNN|]. unfold eps in *.
    assert ((1 - 5 * / 4503599627370496) * (Nf * Nf)
            <= (1 - 5 * / 4503599627370496) * ((1 + 5 * / 4503599627370496) * N2))
      by (apply Rmult_le_compat_l; lra).
    assert (0 <= N2) by lra. lra. }
  assert (Hhi : N2 / (Nf * Nf) <= 1 + 51 / 10 * eps).
  { apply div_le_bound; [exact HNN|]. unfold eps in *.
    assert ((1 + 51 / 10 * / 4503599627370496)
            * ((1 - 5 * / 4503599627370496) * N2)
            <= (1 + 51 / 10 * / 4503599627370496) * (Nf * Nf))
      by (apply Rmult_le_compat_l; lra).
    assert (0 <= N2) by lra. lra. }
  unfold eps in *. specialize (Hin ltac:(lra)).
  apply Rabs_le_both in Hin. apply Rabs_le_both. lra.
Qed.

End ClosedFormVectors.

(** The inner product of the two normalised vectors. *)
Section ClosedFormInner.

Local Open Scope R_scope.

Variables b x0 x1 : float.
Hypothesis Hb : Finite b.
Hypothesis Hx0 : Finite x0.
Hypothesis Hx1 : Finite x1.
Hypothesis Blo : pow2 (-400) <= Rabs (Rval b).
Hypothesis Bhi : Rabs (Rval b) <= 10000000.
Hypothesis X0hi : Rabs (Rval x0) <= 10000000.
Hypothesis X1hi : Rabs (Rval x1) <= 10000000.

Local Abbreviation n0 := (PrimFloat.sqrt (b * b + x0 * x0))%float.
Local Abbreviation n1 := (PrimFloat.sqrt (b * b + x1 * x1))%float.

Lemma normalized_inner :
  Rabs (Rval (b / n0)%float * Rval (b / n1)%float
        + Rval (x0 / n0)%float * Rval (x1 / n1)%float) * (Rval b * Rval b)
  <= 5 * eps * (Rval b * Rval b)
     + 103 / 100 * Rabs (Rval b * Rval b + Rval x0 * Rval x1).
Proof.
  destruct (norm_close b x0 Hb Hx0 Blo Bhi X0hi) as (P0 & _ & HB0 & _).
  destruct (norm_close b x1 Hb Hx1 Blo Bhi X1hi) as (P1 & _ & HB1 & _).
  destruct (components_close b x0 Hb Hx0 Blo Bhi X0hi)
    as (_ & _ & Hvx0 & Hvy0 & HqB0 & HqX0).
  destruct (components_close b x1 Hb Hx1 Blo Bhi X1hi)
    as (_ & _ & Hvx1 & Hvy1 & HqB1 & HqX1).
  pose proof (PosFin_Rval _ P0) as N0. pose proof (PosFin_Rval _ P1) as N1.
  pose proof (Rabs_pos (Rval b)) as B0.
  pose proof (Rabs_square (Rval b)) as HBB.
  pose proof (inner_close _ _ _ _ _ _ _ _ _ Hvx0 Hvy0 Hvx1 Hvy1
                HqB0 HqX0 HqB1 HqX1 ltac:(unfold eps; lra)) as Hin.
  set (Nf0 := Rval n0) in *. set (Nf1 := Rval n1) in *.
  set (W := Rval b * Rval b + Rval x0 * Rval x1).
  assert (Hr : Rval b / Nf0 * (Rval b / Nf1) + Rval x0 / Nf0 * (Rval x1 / Nf1)
               = W / (Nf0 * Nf1)) by (unfold W; field; lra).
  rewrite Hr in Hin. clear Hr.
  assert (HNN : 0 < Nf0 * Nf1) by (apply Rmult_lt_0_compat; assumption).
  assert (HBN : Rval b * Rval b <= 10201 / 10000 * (Nf0 * Nf1)).
  { rewrite HBB.
    replace (10201 / 10000 * (Nf0 * Nf1))
      with (101 / 100 * Nf0 * (101 / 100 * Nf1)) by field.
    apply Rmult_le_compat; lra. }
  assert (HB2 : 0 <= Rval b * Rval b)
    by (rewrite HBB; apply Rmult_le_pos; lra).
  assert (Hq : Rabs (W / (Nf0 * Nf1)) * (Rval b * Rval b)
               <= 10201 / 10000 * Rabs W).
  { unfold Rdiv. rewrite Rabs_mult, Rabs_inv, (Rabs_pos_eq (Nf0 * Nf1)) by lra.
    pose proof (Rabs_pos W) as W0.
    replace (Rabs W * / (Nf0 * Nf1) * (Rval b * Rval b))
      with (Rabs W * (Rval b * Rval b / (Nf0 * Nf1))) by (field; lra).
    rewrite (Rmult_comm (10201 / 10000)).
    apply Rmult_le_compat_l; [exact W0|].
    apply div_le_bound; assumption. }
  pose proof (Rabs_near _ _ _ Hin) as Hd.
  set (dt := Rabs (Rval (b / n0) * Rval (b / n1)
                   + Rval (x0 / n0) * Rval (x1 / n1))) in *.
  assert (Hm : dt * (Rval b * Rval b)
               <= (Rabs (W / (Nf0 * Nf1)) + 41 / 10 * (102 / 100 * eps))
                  * (Rval b * Rval b))
    by (apply Rmult_le_compat_r; lra).
  pose proof (Rabs_pos W). fold W. unfold eps in *. lra.
Qed.

End ClosedFormInner.

(** ** Closed numbers of either sign, and the axis vectors *)

Lemma Rval_signed (x : float) (s : bool) (m p : positive) :
  Prim2SF x = S754_finite s m (Z.neg p) ->
  Rval x = ((if s then -1 else 1) * (IZR (Z.pos m) / IZR (2 ^ Z.pos p)))%R.
Proof.
  intros H. unfold Rval. rewrite H. cbn [SF2R].
  change (Z.neg p) with (- Z.pos p)%Z. rewrite pow2_neg, <- pow2_IZR by lia.
  destruct s; unfold Rdiv; ring.
Qed.

Lemma unitLength_axes :
  unitLength (1%float, 0%float) /\ unitLength (0%float, 1%float)
  /\ dot (1%float, 0%float) (0%float, 1%float) = 0%R
  /\ dot (0%float, 1%float) (1%float, 0%float) = 0%R.
Proof.
  unfold unitLength, dot. cbn [fst snd]. rewrite Rval_1, Rval_0.
  assert (F1 : Finite 1) by exact I. assert (F0 : Finite 0) by exact I.
  assert (H : (Rabs (1 * 1 + 0 * 0 - 1) <= / 100000000000000)%R).
  { replace (1 * 1 + 0 * 0 - 1)%R with 0%R by ring. rewrite Rabs_R0. lra. }
  assert (H' : (Rabs (0 * 0 + 1 * 1 - 1) <= / 100000000000000)%R).
  { replace (0 * 0 + 1 * 1 - 1)%R with 0%R by ring. rewrite Rabs_R0. lra. }
  repeat split; try assumption; ring.
Qed.


(** * The claims *)

(** ** The displayed eigenvalues and the arrows *)

(** C1, at a failing input. For a result with the eigenvalues 9000 and
    10000 the page shows lambda1 = "9" and lambda2 = "10", so
    lambda1 < lambda2: the default [sort()] orders the scaled values 9 and
    10 as the strings "10" < "9", and lambda1 is read from index 1. This
    holds in every state, at every query point and for every [Math.exp]. *)
Theorem lambda_order_by_strings (Math_exp : float -> float) (st : page)
  (x y : Z) :
  lambda1 (snd (drawResult Math_exp x y ninety_ten st)) = "9"%string
  /\ lambda2 (snd (drawResult Math_exp x y ninety_ten st)) = "10"%string.
Proof.
  unfold drawResult. erewrite bind_run by apply showLambdas_ninety_ten.
  assert (Hd : draw_only
            (drawKernel Math_exp x y
             ≫= fun _ => drawArrows x y ninety_ten 0 (fresh (dom (store st))))).
  { apply draw_only_bind; [apply draw_only_drawKernel|].
    intros _. apply draw_only_drawArrows. }
  destruct (Hd (ninety_ten_shown st)) as [ops Hops].
  rewrite Hops. split; reflexivity.
Qed.

(** C2, at a failing input. For the same result, whose eigenvector (1, 0)
    belongs to the eigenvalue 9000 and (0, 1) to 10000, a run that reaches
    the arrows draws (1, 0) scaled by 10 and (0, 1) scaled by 9: the array
    of scaled eigenvalues was sorted in place before the arrows index it, so
    each eigenvector gets the other one's eigenvalue. *)
Theorem arrows_scaled_by_sorted_values (Math_exp : float -> float)
  (st : page) (x y : Z) :
  fst (drawResult Math_exp x y ninety_ten st) = Ok tt ->
  exists ops,
    drawn (snd (drawResult Math_exp x y ninety_ten st))
    = drawn st ++ ops
      ++ [stroke_line x y (JS.of_Z x + 1 * 10)%float (JS.of_Z y + 0 * 10)%float;
          stroke_line x y (JS.of_Z x + 0 * 9)%float (JS.of_Z y + 1 * 9)%float].
Proof.
  unfold drawResult. erewrite bind_run by apply showLambdas_ninety_ten.
  unfold mbind, M_bind.
  destruct (draw_only_drawKernel Math_exp x y (ninety_ten_shown st))
    as [ops Hops].
  destruct (drawKernel Math_exp x y (ninety_ten_shown st)) as [[[]|e] st2];
    cbn [snd] in Hops; subst st2; [|intros [=]].
  intros _. exists ops. unfold ninety_ten.
  erewrite (drawArrows_two x y _ _ _ [10%float; 9%float]).
  - cbn [snd add_drawn drawn ninety_ten_shown with_lambda2 with_lambda1
           with_store]. rewrite <- app_assoc. reflexivity.
  - cbn. apply lookup_insert_eq.
Qed.

Lemma arrows_scaled_by_sorted_values_witness :
  exists ops,
    drawn (snd (drawResult Reference.Math_exp 1 2 ninety_ten dot10_loaded))
    = drawn dot10_loaded ++ ops
      ++ [stroke_line 1 2 (JS.of_Z 1 + 1 * 10)%float (JS.of_Z 2 + 0 * 10)%float;
          stroke_line 1 2 (JS.of_Z 1 + 0 * 9)%float (JS.of_Z 2 + 1 * 9)%float].
Proof.
  apply (arrows_scaled_by_sorted_values Reference.Math_exp dot10_loaded 1 2).
  vm_compute. reflexivity.
Defined.

(** ** The kernel generator *)

(** C3, as the code has it. The generator fails exactly when the size is
    even. It checks no range: every odd size, also outside [1, 51], and
    every sigma, also outside [0.1, 30], yields a table, with one weight
    per pair of loop counters. *)
Theorem kernel_checks_parity_only (Math_exp : float -> float) (size : Z)
  (sigma : float) :
  (generateGaussianKernel Math_exp size sigma = Throw InvalidParameter
   <-> Z.even size = true)
  /\ (Z.odd size = true <->
      exists kernel,
        generateGaussianKernel Math_exp size sigma = Ok kernel
        /\ length kernel = (Z.to_nat size * Z.to_nat size)%nat).
Proof.
  pose proof (generateGaussianKernel_cases Math_exp size sigma) as H.
  rewrite <- Z.negb_even. destruct (Z.even size); cbn [negb].
  - split; [split; auto|]. split; [discriminate|].
    intros (kernel & Hk & _). rewrite H in Hk. discriminate.
  - destruct H as (kernel & Hk & Hlen). split.
    + split; [|discriminate]. rewrite Hk. discriminate.
    + split; [|reflexivity]. intros _. exists kernel. split; assumption.
Qed.

(** Size 53 and sigma 100 are both out of range, and the kernel is
    built. *)
Lemma out_of_range_kernel_is_built :
  51 < 53 /\ (30 <? 100)%float = true
  /\ exists kernel,
      generateGaussianKernel Reference.Math_exp 53 100 = Ok kernel
      /\ length kernel = 2809%nat.
Proof.
  split; [lia|]. split; [reflexivity|].
  pose proof (generateGaussianKernel_cases Reference.Math_exp 53 100) as H.
  exact H.
Qed.

(** ** The weights of the kernel table *)

(** C4. For every odd size in [1, 51] and every sigma in [0.1, 30] the
    generator returns a table of size * size weights, each of them
    non-negative, whose sum is within 1e-9 of 1: the exact sum of the
    binary64 weights, and also their sum accumulated in binary64 in the
    order of the table. [Math.exp] is any function that returns 1 at -0, as
    ECMAScript requires, and a number between 0 and 1 at the other
    exponents of the table. *)
Theorem kernel_weights_sum_to_one (Math_exp : float -> float) (size : Z)
  (sigma : float) :
  Z.odd size = true -> 1 <= size <= 51 ->
  (0.1 <=? sigma)%float = true -> (sigma <=? 30)%float = true ->
  Math_exp (-0)%float = 1%float ->
  (forall d : Z, 0 < d <= 2 * ((size / 2) * (size / 2)) ->
     (0 <=? Math_exp (- JS.of_Z d / (2 * (sigma * sigma))))%float = true
     /\ (Math_exp (- JS.of_Z d / (2 * (sigma * sigma))) <=? 1)%float = true) ->
  exists kernel,
    generateGaussianKernel Math_exp size sigma = Ok kernel
    /\ length kernel = Z.to_nat (size * size)
    /\ (forall w, w ∈ kernel -> (0 <=? w)%float = true)
    /\ (Rabs (Rsum (map Rval kernel) - 1) <= / 1000000000)%R
    /\ (Rabs (Rval (fold_left (fun s w => (s + w)%float) kernel 0%float) - 1)
        <= / 1000000000)%R.
Proof.
  intros Hodd Hsize Hlo Hhi Hexp0 Hexp.
  destruct (table_sum Math_exp size sigma Hodd Hsize Hlo Hhi Hexp0 Hexp)
    as (Hfin & Hsum & Hacc).
  destruct (table_length size Hsize) as [Hlen _].
  eexists. split; [apply generateGaussianKernel_run, Hodd|].
  split; [rewrite length_map; exact Hlen|].
  split; [intros w Hw; apply Fin0_leb, Hfin, Hw|].
  split; (eapply Rle_trans; [eassumption|lra]).
Qed.

Lemma kernel_weights_sum_to_one_witness :
  exists kernel,
    generateGaussianKernel Reference.Math_exp 3 1 = Ok kernel
    /\ length kernel = 9%nat
    /\ (forall w, w ∈ kernel -> (0 <=? w)%float = true)
    /\ (Rabs (Rsum (map Rval kernel) - 1) <= / 1000000000)%R
    /\ (Rabs (Rval (fold_left (fun s w => (s + w)%float) kernel 0%float) - 1)
        <= / 1000000000)%R.
Proof.
  apply (kernel_weights_sum_to_one Reference.Math_exp 3 1);
    try reflexivity; try lia.
  intros d Hd. change (2 * (3 / 2 * (3 / 2))) with 2 in Hd.
  assert (Hcases : d = 1 \/ d = 2) by lia.
  destruct Hcases as [->| ->]; split; vm_compute; reflexivity.
Defined.

(** ** The gradient stage *)

(** C5. Given an RGBA image of width W and height H, [computeGradients]
    succeeds and stores two arrays of W * H numbers in which every interior
    pixel (1 <= x < W-1, 1 <= y < H-1) holds the sums over its 3x3
    neighbourhood of L(x+kx, y+ky) * Sx[kx, ky] and of
    L(x+kx, y+ky) * Sy[kx, ky], with L = 0.3 R + 0.59 G + 0.11 B (each sum
    accumulated from 0, row by row), and every border pixel holds 0. *)
Theorem computeGradients_sobel (st : page) :
  0 < width st -> 0 < height st ->
  exists st' g ix iy,
    computeGradients st = (Ok tt, st')
    /\ gradients st' = Some g
    /\ store st' !! Ix g = Some ix
    /\ store st' !! Iy g = Some iy
    /\ forall x y, 0 <= x < width st -> 0 <= y < height st ->
       let p := Z.to_nat (y * width st + x) in
       (1 <= x < width st - 1 -> 1 <= y < height st - 1 ->
        ix !! p = Some (sobelSum Sx_rows (image_data st) (width st) x y)
        /\ iy !! p = Some (sobelSum Sy_rows (image_data st) (width st) x y))
       /\ (x = 0 \/ x = width st - 1 \/ y = 0 \/ y = height st - 1 ->
           ix !! p = Some 0%float /\ iy !! p = Some 0%float).
Proof.
  intros HW HH.
  destruct (gradientsComputed_arrays st) as (g & Hg & Hix & Hiy).
  exists (gradientsComputed st), g.
  exists (fst (gradientArrays (image_data st) (width st) (height st))).
  exists (snd (gradientArrays (image_data st) (width st) (height st))).
  split; [apply computeGradients_run; lia|].
  repeat (split; [assumption|]).
  intros x y Hx Hy p. subst p. rewrite gradientArrays_written. cbn [fst snd].
  rewrite !(written_gradient _ _ _ x y) by assumption.
  destruct (Z.leb_spec 1 x), (Z.ltb_spec x (width st - 1)),
    (Z.leb_spec 1 y), (Z.ltb_spec y (height st - 1)); cbn [andb];
    (split; [intros; (split; reflexivity) || lia
            |intros; (split; reflexivity) || lia]).
Qed.

Lemma computeGradients_sobel_witness :
  exists st' g ix iy,
    computeGradients (flat3x3 10 20 30) = (Ok tt, st')
    /\ gradients st' = Some g
    /\ store st' !! Ix g = Some ix
    /\ store st' !! Iy g = Some iy
    /\ forall x y, 0 <= x < 3 -> 0 <= y < 3 ->
       let p := Z.to_nat (y * 3 + x) in
       (1 <= x < 3 - 1 -> 1 <= y < 3 - 1 ->
        ix !! p = Some (sobelSum Sx_rows (image_data (flat3x3 10 20 30)) 3 x y)
        /\ iy !! p = Some (sobelSum Sy_rows (image_data (flat3x3 10 20 30)) 3 x y))
       /\ (x = 0 \/ x = 3 - 1 \/ y = 0 \/ y = 3 - 1 ->
           ix !! p = Some 0%float /\ iy !! p = Some 0%float).
Proof. apply (computeGradients_sobel (flat3x3 10 20 30)); cbn; lia. Defined.

(** C6, as the code has it. For every constant-intensity image, Ix is 0
    at every pixel and Iy is 0 at every border pixel. Every interior pixel
    holds one and the same Iy: the Sobel-Y sum of nine copies of the common
    luminance c, accumulated in binary64, which is 0 in exact arithmetic
    but not always in binary64. On gray images (R = G = B = v) it is 0
    except at the levels of [residue_levels], where rounding leaves a
    non-zero residue of at most 2^-45. *)
Theorem constant_image_gradients (st : page) (r g b : Z) :
  0 < width st -> 0 < height st ->
  0 <= r <= 255 -> 0 <= g <= 255 -> 0 <= b <= 255 ->
  constant_image (image_data st) (width st) (height st) r g b ->
  (exists st' gf ix iy,
    computeGradients st = (Ok tt, st')
    /\ gradients st' = Some gf
    /\ store st' !! Ix gf = Some ix
    /\ store st' !! Iy gf = Some iy
    /\ forall x y, 0 <= x < width st -> 0 <= y < height st ->
       let p := Z.to_nat (y * width st + x) in
       ix !! p = Some 0%float
       /\ (x = 0 \/ x = width st - 1 \/ y = 0 \/ y = height st - 1 ->
           iy !! p = Some 0%float)
       /\ (1 <= x < width st - 1 -> 1 <= y < height st - 1 ->
           iy !! p = Some (flatSum Sy_rows (gray r g b))))
  /\ (forall v, 0 <= v <= 255 ->
        (flatSum Sy_rows (gray v v v) = 0%float <-> v ∉ residue_levels)
        /\ (PrimFloat.abs (flatSum Sy_rows (gray v v v)) <=? 0x1p-45)%float
           = true).
Proof.
  intros HW HH Hr Hg Hb Hc. split; [|exact gray_levels_flatSum].
  destruct (gradientsComputed_arrays st) as (gf & Hgf & Hix & Hiy).
  exists (gradientsComputed st), gf.
  exists (fst (gradientArrays (image_data st) (width st) (height st))).
  exists (snd (gradientArrays (image_data st) (width st) (height st))).
  split; [apply computeGradients_run; lia|].
  repeat (split; [assumption|]).
  intros x y Hx Hy p. subst p. rewrite gradientArrays_written. cbn [fst snd].
  rewrite !(written_gradient _ _ _ x y) by assumption.
  destruct (Z.leb_spec 1 x), (Z.ltb_spec x (width st - 1)),
    (Z.leb_spec 1 y), (Z.ltb_spec y (height st - 1)); cbn [andb].
  1: { rewrite !(sobelSum_constant _ _ _ (height st) r g b) by (assumption || lia).
       rewrite flatSum_Sx_gray by assumption.
       split; [reflexivity|]. split; [intros; lia|]. intros; reflexivity. }
  all: split; [reflexivity|]; split; [intros; reflexivity|intros; lia].
Qed.

Lemma constant_image_gradients_witness :
  (exists st' gf ix iy,
    computeGradients (flat3x3 1 1 1) = (Ok tt, st')
    /\ gradients st' = Some gf
    /\ store st' !! Ix gf = Some ix
    /\ store st' !! Iy gf = Some iy
    /\ forall x y, 0 <= x < 3 -> 0 <= y < 3 ->
       let p := Z.to_nat (y * 3 + x) in
       ix !! p = Some 0%float
       /\ (x = 0 \/ x = 3 - 1 \/ y = 0 \/ y = 3 - 1 ->
           iy !! p = Some 0%float)
       /\ (1 <= x < 3 - 1 -> 1 <= y < 3 - 1 ->
           iy !! p = Some (flatSum Sy_rows (gray 1 1 1))))
  /\ (forall v, 0 <= v <= 255 ->
        (flatSum Sy_rows (gray v v v) = 0%float <-> v ∉ residue_levels)
        /\ (PrimFloat.abs (flatSum Sy_rows (gray v v v)) <=? 0x1p-45)%float
           = true).
Proof.
  apply (constant_image_gradients (flat3x3 1 1 1) 1 1 1);
    [cbn; lia|cbn; lia|lia|lia|lia|apply flat3x3_constant].
Defined.

(** The 3 by 3 image of colour (1, 1, 1) is constant, and yet its centre
    pixel gets Iy = 2^-53: the luminance 0.3 + 0.59 + 0.11 is
    0.99999999999999989 in binary64, and the partial sums -c, -3c, -4c,
    -3c, -c, 0 of the Y kernel round on the way. *)
Lemma constant_image_residue :
  constant_image (image_data (flat3x3 1 1 1)) 3 3 1 1 1
  /\ exists st' gf iy,
      computeGradients (flat3x3 1 1 1) = (Ok tt, st')
      /\ gradients st' = Some gf
      /\ store st' !! Iy gf = Some iy
      /\ iy !! 4%nat = Some 0x1p-53%float
      /\ 0x1p-53%float <> 0%float.
Proof.
  split; [apply flat3x3_constant|].
  eexists _, _, _. split; [vm_compute; reflexivity|].
  split; [reflexivity|]. split; [vm_compute; reflexivity|].
  split; [reflexivity|]. apply float_neq. reflexivity.
Qed.

(** ** The eigensolver *)




(** ** The smoothing window *)

(** C8, as the code has it. With the gradient field in place and an odd
    positive kernel size, the tensor stage is no error at any integer query
    point, inside the canvas or not: it returns the weighted sums over the
    samples, and every sample's pixel index lies in [0, W*H) and its kernel
    index in [0, size*size), the pixel coordinates having been clamped.
    The query point itself is not clamped: the result is that of the
    clamped query point when the kernel size is 1. *)
Theorem structureTensor_clamps_samples (Math_exp : float -> float)
  (st : page) (g : gradient_field) (ix iy : list float) (x y : Z) :
  0 < width st -> 0 < height st ->
  0 < kernelSize st -> Z.odd (kernelSize st) = true ->
  gradients st = Some g ->
  store st !! Ix g = Some ix -> store st !! Iy g = Some iy ->
  (exists kernel,
      generateGaussianKernel Math_exp (kernelSize st) (kernelSigma st)
      = Ok kernel
      /\ fst (structureTensor Math_exp x y st)
         = Ok (tensorAt (width st) (height st) (kernelSize st) kernel ix iy x y))
  /\ Forall (fun s => 0 <= fst s < width st * height st
                      /\ 0 <= snd s < kernelSize st * kernelSize st)
       (sampleIndices (width st) (height st) (kernelSize st) x y)
  /\ (kernelSize st = 1 ->
      fst (structureTensor Math_exp x y st)
      = fst (structureTensor Math_exp
               (clamp x 0 (width st - 1)) (clamp y 0 (height st - 1)) st)).
Proof.
  intros HW HH Hs Hodd Hg Hix Hiy.
  pose proof (generateGaussianKernel_cases Math_exp (kernelSize st)
                (kernelSigma st)) as Hk.
  rewrite <- Z.negb_odd, Hodd in Hk. cbn [negb] in Hk.
  destruct Hk as (kernel & Hk & _).
  split; [|split].
  - exists kernel. split; [exact Hk|].
    apply (structureTensor_run Math_exp x y st g); assumption.
  - apply sampleIndices_in_range; assumption.
  - intros H1.
    rewrite !(structureTensor_run Math_exp _ _ st g ix iy kernel) by assumption.
    f_equal. unfold tensorAt, sampleIndices. rewrite H1.
    change (1 / 2) with 0. change (seqZ (- 0) (2 * 0 + 1)) with [0].
    cbn [list_prod map app fst snd]. unfold clamp.
    replace (Z.min (Z.max (Z.min (Z.max y 0) (height st - 1) + 0) 0)
               (height st - 1))
      with (Z.min (Z.max (y + 0) 0) (height st - 1)) by lia.
    replace (Z.min (Z.max (Z.min (Z.max x 0) (width st - 1) + 0) 0)
               (width st - 1))
      with (Z.min (Z.max (x + 0) 0) (width st - 1)) by lia.
    reflexivity.
Qed.

Lemma structureTensor_clamps_samples_witness :
  (exists kernel,
      generateGaussianKernel Reference.Math_exp 3 1 = Ok kernel
      /\ fst (structureTensor Reference.Math_exp (-5) (-5) dot10_loaded)
         = Ok (tensorAt 10 10 3 kernel
                 (fst (gradientArrays (image_data dot10) 10 10))
                 (snd (gradientArrays (image_data dot10) 10 10)) (-5) (-5)))
  /\ Forall (fun s => 0 <= fst s < 10 * 10 /\ 0 <= snd s < 3 * 3)
       (sampleIndices 10 10 3 (-5) (-5))
  /\ (3 = 1 ->
      fst (structureTensor Reference.Math_exp (-5) (-5) dot10_loaded)
      = fst (structureTensor Reference.Math_exp
               (clamp (-5) 0 (10 - 1)) (clamp (-5) 0 (10 - 1)) dot10_loaded)).
Proof.
  apply (structureTensor_clamps_samples Reference.Math_exp dot10_loaded
           {| Ix := 1%positive; Iy := 2%positive |});
    try (cbn; lia); try reflexivity.
Defined.

(** On the 10 by 10 image [dot10] with the kernel (3, 1), the query at
    (-5, -5) samples pixel (0, 0) nine times and returns the zero tensor,
    while the query at (0, 0), its clamped point, also samples pixel (1, 1)
    and returns a tensor that is not zero. *)
Lemma query_outside_differs :
  computeGradients dot10 = (Ok tt, dot10_loaded)
  /\ (clamp (-5) 0 (width dot10_loaded - 1),
      clamp (-5) 0 (height dot10_loaded - 1)) = (0, 0)
  /\ fst (structureTensor Reference.Math_exp (-5) (-5) dot10_loaded)
     = Ok [[0; 0]; [0; 0]]%float
  /\ fst (structureTensor Reference.Math_exp 0 0 dot10_loaded)
     <> fst (structureTensor Reference.Math_exp (-5) (-5) dot10_loaded).
Proof.
  split; [apply computeGradients_run; discriminate|].
  split; [reflexivity|].
  split; [vm_compute; reflexivity|].
  intros E.
  assert (H : match fst (structureTensor Reference.Math_exp 0 0 dot10_loaded),
                    fst (structureTensor Reference.Math_exp (-5) (-5) dot10_loaded)
              with
              | Ok [[a; _]; _], Ok [[b; _]; _] => PrimFloat.Leibniz.eqb a b
              | _, _ => true
              end = true).
  { rewrite E.
    destruct (fst (structureTensor Reference.Math_exp (-5) (-5) dot10_loaded))
      as [[|[|a [|? [|]]] [|? [|]]]|]; try reflexivity.
    all: apply FloatAxioms.Leibniz.eqb_spec; reflexivity. }
  vm_compute in H. discriminate H.
Qed.

(** ** The refused kernel size *)

(** C9. Building a Gaussian kernel with an even size fails with the
    error of the generator, whatever sigma is. *)
Theorem even_size_is_refused (Math_exp : float -> float) (size : Z)
  (sigma : float) :
  Z.even size = true ->
  generateGaussianKernel Math_exp size sigma = Throw InvalidParameter.
Proof.
  intros Heven.
  pose proof (generateGaussianKernel_cases Math_exp size sigma) as H.
  rewrite Heven in H. exact H.
Qed.

(** The scenario of the specification: a build with size 4 fails. *)
Lemma even_size_is_refused_witness :
  generateGaussianKernel Reference.Math_exp 4 1 = Throw InvalidParameter.
Proof. apply even_size_is_refused. reflexivity. Defined.

(** ** The query and the gradient field *)

(** C10. A query does not mutate the cached gradient field: whatever the
    query point, and whether the query returns or throws, [gradients]
    designates the same two arrays with the same contents after
    [computeEigenvectors] and after the whole of [drawOverlay] as before
    (the arrays of products, and the array that [sort] reorders, are fresh
    ones). *)
Theorem query_preserves_gradients (Math_exp : float -> float)
  (eigs : list (list float) -> outcome (list eigenpair))
  (st : page) (g : gradient_field) (ix iy : list float) (x y : Z) :
  gradients st = Some g ->
  store st !! Ix g = Some ix -> store st !! Iy g = Some iy ->
  (gradients (snd (computeEigenvectors Math_exp eigs x y st)) = Some g
   /\ store (snd (computeEigenvectors Math_exp eigs x y st)) !! Ix g = Some ix
   /\ store (snd (computeEigenvectors Math_exp eigs x y st)) !! Iy g = Some iy)
  /\ (gradients (snd (drawOverlay Math_exp eigs x y st)) = Some g
      /\ store (snd (drawOverlay Math_exp eigs x y st)) !! Ix g = Some ix
      /\ store (snd (drawOverlay Math_exp eigs x y st)) !! Iy g = Some iy).
Proof.
  intros Hg Hix Hiy.
  assert (HD : ({[Ix g; Iy g]} : gset loc) ⊆ dom (store st)).
  { intros l Hl. apply elem_of_dom.
    apply elem_of_union in Hl as [Hl|Hl]; apply elem_of_singleton in Hl;
      subst l; eauto. }
  split.
  - destruct (frames_computeEigenvectors Math_exp eigs _ x y st HD)
      as [(G & _ & L) _].
    rewrite G, !L by set_solver. auto.
  - destruct (frames_drawOverlay Math_exp eigs _ x y st HD) as [(G & _ & L) _].
    rewrite G, !L by set_solver. auto.
Qed.

Lemma query_preserves_gradients_witness :
  (gradients (snd (computeEigenvectors Reference.Math_exp closedFormEigs
                     (-5) 3 dot10_loaded))
   = Some {| Ix := 1%positive; Iy := 2%positive |}
   /\ store (snd (computeEigenvectors Reference.Math_exp closedFormEigs
                    (-5) 3 dot10_loaded)) !! 1%positive
      = Some (fst (gradientArrays (image_data dot10) 10 10))
   /\ store (snd (computeEigenvectors Reference.Math_exp closedFormEigs
                    (-5) 3 dot10_loaded)) !! 2%positive
      = Some (snd (gradientArrays (image_data dot10) 10 10)))
  /\ (gradients (snd (drawOverlay Reference.Math_exp closedFormEigs
                        (-5) 3 dot10_loaded))
      = Some {| Ix := 1%positive; Iy := 2%positive |}
      /\ store (snd (drawOverlay Reference.Math_exp closedFormEigs
                       (-5) 3 dot10_loaded)) !! 1%positive
         = Some (fst (gradientArrays (image_data dot10) 10 10))
      /\ store (snd (drawOverlay Reference.Math_exp closedFormEigs
                       (-5) 3 dot10_loaded)) !! 2%positive
         = Some (snd (gradientArrays (image_data dot10) 10 10))).
Proof.
  apply (query_preserves_gradients Reference.Math_exp closedFormEigs
           dot10_loaded {| Ix := 1%positive; Iy := 2%positive |});
    reflexivity.
Defined.

(** * Further properties of the script *)

(** ** The symmetry of the kernel table *)

(** X1. The kernel table is symmetric under a half turn of the offsets:
    the weights at (dx, dy) and at (-dx, -dy) are the same number. *)
Theorem kernel_half_turn_symmetric (Math_exp : float -> float) (size : Z)
  (sigma : float) (x y : Z) :
  Z.odd size = true -> 0 <= x < size -> 0 <= y < size ->
  exists kernel w,
    generateGaussianKernel Math_exp size sigma = Ok kernel
    /\ kernel !! Z.to_nat (y * size + x) = Some w
    /\ kernel !! Z.to_nat ((size - 1 - y) * size + (size - 1 - x)) = Some w.
Proof.
  intros Hodd Hx Hy.
  destruct (generateGaussianKernel_entries Math_exp size sigma Hodd)
    as [sum Hk].
  eexists _, _. split; [exact Hk|].
  assert (Hat : forall u v, 0 <= u < size -> 0 <= v < size ->
            list_prod (seqZ 0 size) (seqZ 0 size) !! Z.to_nat (v * size + u)
            = Some (v, u)).
  { intros u v Hu Hv.
    replace (Z.to_nat (v * size + u))
      with (Z.to_nat v * length (seqZ 0 size) + Z.to_nat u)%nat
      by (rewrite length_seqZ; nia).
    apply list_prod_lookup.
    - rewrite lookup_seqZ_lt by lia. f_equal. lia.
    - rewrite lookup_seqZ_lt by lia. f_equal. lia. }
  rewrite !list_lookup_fmap, !Hat by lia. cbn [fmap option_fmap option_map fst snd].
  split; [reflexivity|]. f_equal. unfold rawWeight. cbv zeta.
  apply Z.odd_spec in Hodd as [m Hm].
  assert (Hh : size / 2 = m)
    by (symmetry; apply (Z.div_unique size 2 m 1); lia).
  rewrite Hh.
  replace ((size - 1 - x - m) * (size - 1 - x - m)
           + (size - 1 - y - m) * (size - 1 - y - m))
    with ((x - m) * (x - m) + (y - m) * (y - m)) by nia.
  reflexivity.
Qed.

Lemma kernel_half_turn_symmetric_witness :
  exists kernel w,
    generateGaussianKernel Reference.Math_exp 15 3 = Ok kernel
    /\ kernel !! Z.to_nat (2 * 15 + 11) = Some w
    /\ kernel !! Z.to_nat ((15 - 1 - 2) * 15 + (15 - 1 - 11)) = Some w.
Proof.
  apply (kernel_half_turn_symmetric Reference.Math_exp 15 3 11 2);
    [reflexivity|lia|lia].
Defined.

(** ** A query that shows the defect of the sort *)

(** A run of the page from the image to the canvas.

    A 10 by 10 black image with one pixel of gray level 100 at (2, 2),
    the kernel (3, 1) and the pointer at (1, 2). The structure tensor is
    diagonal, so its eigenvalues are its diagonal entries, 8485.9... and
    10644.0..., whatever the eigensolver; the page shows lambda1 = 8 and
    lambda2 = 11, and draws the eigenvector (0, 1) of the smaller
    eigenvalue with the length of the larger one. *)
Theorem dim10_query (eigs : list (list float) -> outcome (list eigenpair)) :
  eigs [[10644.026285925804; 0]; [0; 8485.916699388401]]%float
  = Ok [ {| value := 8485.916699388401; vector := (0%float, 1%float) |};
         {| value := 10644.026285925804; vector := (1%float, 0%float) |} ] ->
  computeGradients dim10 = (Ok tt, dim10_loaded)
  /\ fst (structureTensor Reference.Math_exp 1 2 dim10_loaded)
     = Ok [[10644.026285925804; 0]; [0; 8485.916699388401]]%float
  /\ lambda1 (snd (drawOverlay Reference.Math_exp eigs 1 2 dim10_loaded))
     = "8"%string
  /\ lambda2 (snd (drawOverlay Reference.Math_exp eigs 1 2 dim10_loaded))
     = "11"%string
  /\ drop 11 (drawn (snd (drawOverlay Reference.Math_exp eigs 1 2 dim10_loaded)))
     = [stroke_line 1 2 1 12.644026285925804;
        stroke_line 1 2 9.485916699388401 2]%float.
Proof.
  intros Heigs.
  split; [apply computeGradients_run; discriminate|].
  split; [vm_compute; reflexivity|].
  assert (Hrun :
    drawOverlay Reference.Math_exp eigs 1 2 dim10_loaded
    = drawResult Reference.Math_exp 1 2
        [ {| value := 8485.916699388401; vector := (0%float, 1%float) |};
          {| value := 10644.026285925804; vector := (1%float, 0%float) |} ]
        (snd (structureTensor Reference.Math_exp 1 2 dim10_cleared))).
  { unfold drawOverlay.
    do 4 (erewrite bind_run by reflexivity).
    apply bind_run. unfold computeEigenvectors.
    erewrite bind_run.
    2: { rewrite (surjective_pairing (structureTensor _ _ _ _)).
         apply pair_equal_spec. split; [vm_compute; reflexivity|reflexivity]. }
    unfold lift. rewrite Heigs. reflexivity. }
  rewrite Hrun. repeat split; vm_compute; reflexivity.
Qed.

Lemma dim10_query_witness :
  lambda1
    (snd (drawOverlay Reference.Math_exp
            (fun _ => Ok [ {| value := 8485.916699388401;
                              vector := (0%float, 1%float) |};
                           {| value := 10644.026285925804;
                              vector := (1%float, 0%float) |} ])
            1 2 dim10_loaded))
  = "8"%string.
Proof.
  apply (dim10_query
    (fun _ => Ok [ {| value := 8485.916699388401;
                      vector := (0%float, 1%float) |};
                   {| value := 10644.026285925804;
                      vector := (1%float, 0%float) |} ])
    eq_refl).
Defined.

(** ** The all-black image *)

(** X3. The scenario of the all-black image: [computeGradients] leaves two
    arrays of width * height zeros, Ix = Iy = 0 everywhere, and the
    structure tensor at every query point, inside the image or not, is the
    zero matrix, for every kernel of the sliders' ranges. [Math.exp] is as
    in C4. *)
Theorem black_image_tensor_is_zero (Math_exp : float -> float) (st : page) :
  0 < width st -> 0 < height st ->
  constant_image (image_data st) (width st) (height st) 0 0 0 ->
  Z.odd (kernelSize st) = true -> 1 <= kernelSize st <= 51 ->
  (0.1 <=? kernelSigma st)%float = true ->
  (kernelSigma st <=? 30)%float = true ->
  Math_exp (-0)%float = 1%float ->
  (forall d : Z, 0 < d <= 2 * ((kernelSize st / 2) * (kernelSize st / 2)) ->
     (0 <=? Math_exp (- JS.of_Z d / (2 * (kernelSigma st * kernelSigma st))))%float
     = true
     /\ (Math_exp (- JS.of_Z d / (2 * (kernelSigma st * kernelSigma st))) <=? 1)%float
        = true) ->
  exists st' g,
    computeGradients st = (Ok tt, st')
    /\ gradients st' = Some g
    /\ store st' !! Ix g
       = Some (replicate (Z.to_nat (width st * height st)) 0%float)
    /\ store st' !! Iy g
       = Some (replicate (Z.to_nat (width st * height st)) 0%float)
    /\ forall x y,
         fst (structureTensor Math_exp x y st') = Ok [[0; 0]; [0; 0]]%float.
Proof.
  intros HW HH Hblack Hodd Hsize Hlo Hhi Hexp0 Hexp.
  destruct (gradientsComputed_arrays st) as (g & Hg & Hix & Hiy).
  rewrite (black_image_arrays _ _ _ HW HH Hblack) in Hix, Hiy. cbn [fst snd] in *.
  exists (gradientsComputed st), g.
  split; [apply computeGradients_run; lia|].
  split; [exact Hg|]. split; [exact Hix|]. split; [exact Hiy|].
  intros x y.
  destruct (gradientsComputed_parameters st) as (Ew & Eh & Es & Eg).
  destruct (table_sum Math_exp (kernelSize st) (kernelSigma st)
              Hodd Hsize Hlo Hhi Hexp0 Hexp) as (Hfin & _ & _).
  destruct (table_length (kernelSize st) Hsize) as [Hlen _].
  erewrite structureTensor_run; [|exact Hg|exact Hix|exact Hiy|].
  2: { rewrite Es, Eg. apply generateGaussianKernel_run, Hodd. }
  rewrite Ew, Eh, Es. f_equal. apply tensorAt_zero; try assumption; try lia.
  rewrite length_map. exact Hlen.
Qed.

Lemma black_image_tensor_is_zero_witness :
  exists st' g,
    computeGradients black5 = (Ok tt, st')
    /\ gradients st' = Some g
    /\ store st' !! Ix g = Some (replicate 25 0%float)
    /\ store st' !! Iy g = Some (replicate 25 0%float)
    /\ forall x y,
         fst (structureTensor Reference.Math_exp x y st')
         = Ok [[0; 0]; [0; 0]]%float.
Proof.
  apply (black_image_tensor_is_zero Reference.Math_exp black5);
    try reflexivity; try (cbn; lia).
  - intros p Hp. change (width black5 * height black5) with 25 in Hp.
    assert (Hin : p ∈ seqZ 0 25) by (apply elem_of_seqZ; lia).
    clear Hp. revert p Hin. apply Forall_forall.
    let l := eval vm_compute in (seqZ 0 25) in change (seqZ 0 25) with l.
    repeat (constructor; [repeat split; reflexivity|]). constructor.
  - intros d Hd. change (2 * (kernelSize black5 / 2 * (kernelSize black5 / 2)))
      with 2 in Hd.
    assert (Hcases : d = 1 \/ d = 2) by lia.
    destruct Hcases as [->| ->]; split; vm_compute; reflexivity.
Defined.

(** ** Entries of the kernel table at equal distances *)

(** X2. The weight of the table depends on the offsets (dx, dy) from the
    centre only through dx^2 + dy^2: entries at the same distance from the
    centre are the same number. In particular the table is its own
    transpose and its own mirror image. *)
Theorem kernel_depends_on_distance (Math_exp : float -> float) (size : Z)
  (sigma : float) (x y x' y' : Z) :
  Z.odd size = true ->
  0 <= x < size -> 0 <= y < size -> 0 <= x' < size -> 0 <= y' < size ->
  (x - size / 2) * (x - size / 2) + (y - size / 2) * (y - size / 2)
  = (x' - size / 2) * (x' - size / 2) + (y' - size / 2) * (y' - size / 2) ->
  exists kernel w,
    generateGaussianKernel Math_exp size sigma = Ok kernel
    /\ kernel !! Z.to_nat (y * size + x) = Some w
    /\ kernel !! Z.to_nat (y' * size + x') = Some w.
Proof.
  intros Hodd Hx Hy Hx' Hy' Hd.
  destruct (generateGaussianKernel_entries Math_exp size sigma Hodd)
    as [sum Hk].
  eexists _, _. split; [exact Hk|].
  rewrite !list_lookup_fmap, !kernel_pair_lookup by lia.
  cbn [fmap option_fmap option_map fst snd].
  split; [reflexivity|]. f_equal. unfold rawWeight. cbv zeta.
  rewrite Hd. reflexivity.
Qed.

Lemma kernel_depends_on_distance_witness :
  exists kernel w,
    generateGaussianKernel Reference.Math_exp 15 3 = Ok kernel
    /\ kernel !! Z.to_nat (2 * 15 + 11) = Some w
    /\ kernel !! Z.to_nat (11 * 15 + 2) = Some w.
Proof.
  apply (kernel_depends_on_distance Reference.Math_exp 15 3 11 2 2 11);
    try reflexivity; lia.
Defined.

(** ** What is shown for a result of two eigenpairs *)

(** X5. For every result of two eigenpairs, lambda1 shows the scaled
    eigenvalue whose decimal string comes last and lambda2 the one whose
    string comes first; and a run that reaches the arrows scales the first
    eigenvector by the value whose string comes first and the second
    eigenvector by the other, whichever eigenvalue each belongs to. *)
Theorem two_eigenpairs_shown (Math_exp : float -> float) (st : page)
  (x y : Z) (e0 e1 : eigenpair) :
  lambda1 (snd (drawResult Math_exp x y [e0; e1] st))
  = JS.toFixed (snd (stringOrdered (value e0 / 1000) (value e1 / 1000)))
  /\ lambda2 (snd (drawResult Math_exp x y [e0; e1] st))
     = JS.toFixed (fst (stringOrdered (value e0 / 1000) (value e1 / 1000)))
  /\ (fst (drawResult Math_exp x y [e0; e1] st) = Ok tt ->
      exists cells,
        drawn (snd (drawResult Math_exp x y [e0; e1] st))
        = drawn st ++ cells
          ++ [stroke_line x y
                (JS.of_Z x + fst (vector e0)
                             * fst (stringOrdered (value e0 / 1000)
                                      (value e1 / 1000)))
                (JS.of_Z y + snd (vector e0)
                             * fst (stringOrdered (value e0 / 1000)
                                      (value e1 / 1000)));
              stroke_line x y
                (JS.of_Z x + fst (vector e1)
                             * snd (stringOrdered (value e0 / 1000)
                                      (value e1 / 1000)))
                (JS.of_Z y + snd (vector e1)
                             * snd (stringOrdered (value e0 / 1000)
                                      (value e1 / 1000)))]%float).
Proof.
  destruct (drawResult_two_lambdas Math_exp st x y e0 e1) as [H1 H2].
  split; [exact H1|]. split; [exact H2|].
  unfold drawResult. erewrite bind_run by apply showLambdas_two.
  unfold mbind, M_bind.
  destruct (draw_only_drawKernel Math_exp x y (twoShown e0 e1 st))
    as [ops Hops].
  destruct (drawKernel Math_exp x y (twoShown e0 e1 st)) as [[[]|e] st2];
    cbn [snd] in Hops; subst st2; [|intros [=]].
  intros _. exists ops.
  erewrite (drawArrows_two x y _ _ _ (sorted [_; _])).
  - rewrite sorted_two.
    cbn [snd add_drawn drawn twoShown with_lambda2 with_lambda1 with_store].
    rewrite <- app_assoc. reflexivity.
  - cbn. apply lookup_insert_eq.
Qed.

Lemma two_eigenpairs_shown_witness :
  exists cells,
    drawn (snd (drawResult Reference.Math_exp 1 2
                  [ {| value := 2000; vector := (1%float, 0%float) |};
                    {| value := 10000; vector := (0%float, 1%float) |} ]
                  dot10_loaded))
    = drawn dot10_loaded ++ cells
      ++ [stroke_line 1 2 (JS.of_Z 1 + 1 * 10)%float (JS.of_Z 2 + 0 * 10)%float;
          stroke_line 1 2 (JS.of_Z 1 + 0 * 2)%float (JS.of_Z 2 + 1 * 2)%float].
Proof.
  apply (two_eigenpairs_shown Reference.Math_exp dot10_loaded 1 2
           {| value := 2000; vector := (1%float, 0%float) |}
           {| value := 10000; vector := (0%float, 1%float) |}).
  vm_compute. reflexivity.
Defined.

(** ** The overlay of the kernel *)

(** X6. For an odd kernel size of the slider, from 1 to 51, the overlay of
    the kernel is drawn without an error and is made of size * size cells of
    one pixel, and every one of them lies on the canvas, wherever the
    pointer is: the cells that would fall outside are painted onto the
    border. *)
Theorem kernel_overlay_stays_on_canvas (Math_exp : float -> float)
  (st : page) (x y : Z) :
  0 < width st -> 0 < height st ->
  1 <= kernelSize st <= 51 -> Z.odd (kernelSize st) = true ->
  exists cells,
    fst (drawKernel Math_exp x y st) = Ok tt
    /\ drawn (snd (drawKernel Math_exp x y st)) = drawn st ++ cells
    /\ length cells = Z.to_nat (kernelSize st * kernelSize st)
    /\ Forall (fun op => exists alpha px py,
                 op = fillRect alpha px py 1 1
                 /\ 0 <= px < width st /\ 0 <= py < height st)
         cells.
Proof.
  intros HW HH Hs Hodd.
  pose proof (generateGaussianKernel_cases Math_exp (kernelSize st)
                (kernelSigma st)) as Hk.
  rewrite <- Z.negb_odd, Hodd in Hk. cbn [negb] in Hk.
  destruct Hk as (kernel & Hk & _).
  rewrite (drawKernel_run _ _ _ _ kernel Hk). cbn [fst snd add_drawn drawn].
  eexists. split; [reflexivity|]. split; [reflexivity|].
  unfold kernelCells. cbv zeta.
  pose proof Hodd as Ho. apply Z.odd_spec in Ho as [h Hh].
  assert (Hhalf : kernelSize st / 2 = h)
    by (symmetry; apply (Z.div_unique (kernelSize st) 2 h 1); lia).
  rewrite Hhalf. split.
  - rewrite length_map, length_prod, !length_seqZ. nia.
  - apply Forall_map, Forall_forall. intros [ky kx] _. cbn [fst snd].
    eexists _, _, _. split; [reflexivity|]. lia.
Qed.

Lemma kernel_overlay_stays_on_canvas_witness :
  exists cells,
    fst (drawKernel Reference.Math_exp (-5) 3 dot10_loaded) = Ok tt
    /\ drawn (snd (drawKernel Reference.Math_exp (-5) 3 dot10_loaded))
       = drawn dot10_loaded ++ cells
    /\ length cells = 9%nat
    /\ Forall (fun op => exists alpha px py,
                 op = fillRect alpha px py 1 1
                 /\ 0 <= px < 10 /\ 0 <= py < 10)
         cells.
Proof.
  apply (kernel_overlay_stays_on_canvas Reference.Math_exp dot10_loaded (-5) 3);
    try reflexivity; cbn; lia.
Defined.

(** ** A query after another query *)

(** X7. Whatever was queried before, with an odd kernel size a query
    computes the same tensor and, when the eigensolver returns two pairs
    for it, shows the same two values: the tensor stage and the values
    shown depend on no state that an earlier pointer move leaves. *)
Theorem query_is_independent_of_history (Math_exp : float -> float)
  (eigs : list (list float) -> outcome (list eigenpair))
  (st : page) (g : gradient_field) (ix iy : list float) (x0 y0 x y : Z) :
  gradients st = Some g ->
  store st !! Ix g = Some ix -> store st !! Iy g = Some iy ->
  Z.odd (kernelSize st) = true ->
  fst (structureTensor Math_exp x y
         (snd (drawOverlay Math_exp eigs x0 y0 st)))
  = fst (structureTensor Math_exp x y st)
  /\ (forall tensor e0 e1,
        fst (structureTensor Math_exp x y st) = Ok tensor ->
        eigs tensor = Ok [e0; e1] ->
        lambda1 (snd (drawOverlay Math_exp eigs x y
                        (snd (drawOverlay Math_exp eigs x0 y0 st))))
        = lambda1 (snd (drawOverlay Math_exp eigs x y st))
        /\ lambda2 (snd (drawOverlay Math_exp eigs x y
                           (snd (drawOverlay Math_exp eigs x0 y0 st))))
           = lambda2 (snd (drawOverlay Math_exp eigs x y st))).
Proof.
  intros Hg Hix Hiy Hodd.
  pose proof (keepsSetup_drawOverlay Math_exp eigs x0 y0 st) as Hsame.
  assert (HD : ({[Ix g; Iy g]} : gset loc) ⊆ dom (store st)).
  { intros l Hl. apply elem_of_dom.
    apply elem_of_union in Hl as [Hl|Hl]; apply elem_of_singleton in Hl;
      subst l; eauto. }
  destruct (frames_drawOverlay Math_exp eigs _ x0 y0 st HD) as [(G & _ & L) _].
  set (st' := snd (drawOverlay Math_exp eigs x0 y0 st)) in *.
  assert (Hix' : store st' !! Ix g = Some ix) by (rewrite L by set_solver; exact Hix).
  assert (Hiy' : store st' !! Iy g = Some iy) by (rewrite L by set_solver; exact Hiy).
  assert (Hg' : gradients st' = Some g) by (rewrite G; exact Hg).
  split.
  - apply (structureTensor_determined Math_exp st st' g g ix iy); assumption.
  - intros tensor e0 e1 Ht Heigs.
    pose proof (generateGaussianKernel_cases Math_exp (kernelSize st)
                  (kernelSigma st)) as Hk.
    rewrite <- Z.negb_odd, Hodd in Hk. cbn [negb] in Hk.
    destruct Hk as (kernel & Hk & _).
    rewrite (structureTensor_run Math_exp x y st g ix iy kernel) in Ht
      by assumption.
    injection Ht as <-.
    destruct Hsame as (Ew & Eh & Es & Eg).
    destruct (drawOverlay_lambdas Math_exp eigs st g ix iy kernel x y e0 e1)
      as [A1 A2]; try assumption.
    destruct (drawOverlay_lambdas Math_exp eigs st' g ix iy kernel x y e0 e1)
      as [B1 B2]; try assumption.
    + rewrite Es, Eg. exact Hk.
    + rewrite Ew, Eh, Es. exact Heigs.
    + rewrite A1, A2, B1, B2. split; reflexivity.
Qed.

Lemma query_is_independent_of_history_witness :
  fst (structureTensor Reference.Math_exp 1 2
         (snd (drawOverlay Reference.Math_exp closedFormEigs 7 7 dot10_loaded)))
  = fst (structureTensor Reference.Math_exp 1 2 dot10_loaded).
Proof.
  apply (query_is_independent_of_history Reference.Math_exp closedFormEigs
           dot10_loaded {| Ix := 1%positive; Iy := 2%positive |}
           (fst (gradientArrays (image_data dot10) 10 10))
           (snd (gradientArrays (image_data dot10) 10 10)) 7 7 1 2);
    reflexivity.
Defined.

(** ** The size of the gradients *)

(** X8. For an image of bytes, [computeGradients] leaves two arrays of
    width * height entries, and every entry is a finite number of magnitude
    at most 1021: no entry is NaN or infinite. (The largest exact value of
    a Sobel sum of luminances is 4 * 255 = 1020.) *)
Theorem gradient_entries_are_bounded (st : page) :
  0 < width st -> 0 < height st ->
  imageData (image_data st) (width st) (height st) ->
  exists st' g ix iy,
    computeGradients st = (Ok tt, st')
    /\ gradients st' = Some g
    /\ store st' !! Ix g = Some ix /\ store st' !! Iy g = Some iy
    /\ length ix = Z.to_nat (width st * height st)
    /\ length iy = Z.to_nat (width st * height st)
    /\ forall v, v ∈ ix ++ iy -> Finite v /\ (Rabs (Rval v) <= 1021)%R.
Proof.
  intros HW HH Hd.
  destruct (gradientsComputed_arrays st) as (g & Hg & Hix & Hiy).
  destruct (gradientArrays_length (image_data st) _ _ HW HH) as [Lx Ly].
  eexists (gradientsComputed st), g, _, _.
  split; [apply computeGradients_run; lia|].
  split; [exact Hg|]. split; [exact Hix|]. split; [exact Hiy|].
  split; [exact Lx|]. split; [exact Ly|].
  intros v Hv. apply elem_of_app in Hv as [Hv|Hv];
    apply elem_of_aget in Hv as (i & Hi & <-).
  - rewrite Lx in Hi.
    apply (gradientArrays_range (image_data st) _ _ i HW HH Hd). lia.
  - rewrite Ly in Hi.
    apply (gradientArrays_range (image_data st) _ _ i HW HH Hd). lia.
Qed.

Lemma gradient_entries_are_bounded_witness :
  exists st' g ix iy,
    computeGradients dot10 = (Ok tt, st')
    /\ gradients st' = Some g
    /\ store st' !! Ix g = Some ix /\ store st' !! Iy g = Some iy
    /\ length ix = Z.to_nat (10 * 10)
    /\ length iy = Z.to_nat (10 * 10)
    /\ forall v, v ∈ ix ++ iy -> Finite v /\ (Rabs (Rval v) <= 1021)%R.
Proof.
  apply (gradient_entries_are_bounded dot10).
  - reflexivity.
  - reflexivity.
  - exact dot10_imageData.
Defined.

(** ** The size of the tensor *)

(** X9. For an image of bytes and a kernel of the sliders' ranges, the
    structure tensor at every query point, inside the image or not, has
    finite entries: the two diagonal entries are zero or positive and at
    most 1050000, and the off-diagonal entry has a magnitude of at most
    1050000. No entry is NaN or infinite. [Math.exp] is as in C4. *)
Theorem tensor_entries_are_bounded (Math_exp : float -> float) (st : page) :
  0 < width st -> 0 < height st ->
  imageData (image_data st) (width st) (height st) ->
  Z.odd (kernelSize st) = true -> 1 <= kernelSize st <= 51 ->
  (0.1 <=? kernelSigma st)%float = true ->
  (kernelSigma st <=? 30)%float = true ->
  Math_exp (-0)%float = 1%float ->
  (forall d : Z, 0 < d <= 2 * ((kernelSize st / 2) * (kernelSize st / 2)) ->
     (0 <=? Math_exp (- JS.of_Z d / (2 * (kernelSigma st * kernelSigma st))))%float
     = true
     /\ (Math_exp (- JS.of_Z d / (2 * (kernelSigma st * kernelSigma st))) <=? 1)%float
        = true) ->
  exists st',
    computeGradients st = (Ok tt, st')
    /\ forall x y, exists Ixx Ixy Iyy,
         fst (structureTensor Math_exp x y st') = Ok [[Ixx; Ixy]; [Ixy; Iyy]]
         /\ Fin0 Ixx /\ Fin0 Iyy /\ Finite Ixy
         /\ (Rval Ixx <= 1050000)%R /\ (Rval Iyy <= 1050000)%R
         /\ (Rabs (Rval Ixy) <= 1050000)%R.
Proof.
  intros HW HH Hd Hodd Hsize Hlo Hhi Hexp0 Hexp.
  exists (gradientsComputed st). split; [apply computeGradients_run; lia|].
  intros x y.
  destruct (gradientsComputed_arrays st) as (g & Hg & Hix & Hiy).
  destruct (gradientsComputed_parameters st) as (Ew & Eh & Es & Eg).
  destruct (table_sum Math_exp (kernelSize st) (kernelSigma st)
              Hodd Hsize Hlo Hhi Hexp0 Hexp) as (Hfin & Hsum & _).
  destruct (table_length (kernelSize st) Hsize) as [Hlen _].
  destruct (gradientArrays_length (image_data st) _ _ HW HH) as [Lx Ly].
  erewrite structureTensor_run; [|exact Hg|exact Hix|exact Hiy|].
  2: { rewrite Es, Eg. apply generateGaussianKernel_run, Hodd. }
  rewrite Ew, Eh, Es.
  destruct (tensorAt_range (width st) (height st) (kernelSize st) _ _ _ x y
              HW HH Hsize Hodd
              ltac:(rewrite length_map; exact Hlen) Hfin Hsum Lx Ly
              (fun i Hi => gradientArrays_range (image_data st) _ _ i HW HH Hd Hi))
    as (Ixx & Ixy & Iyy & E & H).
  exists Ixx, Ixy, Iyy. split; [f_equal; exact E|exact H].
Qed.

Lemma tensor_entries_are_bounded_witness :
  exists st',
    computeGradients dot10 = (Ok tt, st')
    /\ forall x y, exists Ixx Ixy Iyy,
         fst (structureTensor Reference.Math_exp x y st')
         = Ok [[Ixx; Ixy]; [Ixy; Iyy]]
         /\ Fin0 Ixx /\ Fin0 Iyy /\ Finite Ixy
         /\ (Rval Ixx <= 1050000)%R /\ (Rval Iyy <= 1050000)%R
         /\ (Rabs (Rval Ixy) <= 1050000)%R.
Proof.
  apply (tensor_entries_are_bounded Reference.Math_exp dot10);
    try reflexivity; try (cbn; lia).
  - exact dot10_imageData.
  - intros d Hd. change (2 * (kernelSize dot10 / 2 * (kernelSize dot10 / 2)))
      with 2 in Hd.
    assert (Hcases : d = 1 \/ d = 2) by lia.
    destruct Hcases as [->| ->]; split; vm_compute; reflexivity.
Defined.

(** ** A pointer move that succeeds *)

(** X10. A pointer move on a loaded page with an odd kernel size of the
    slider, from 1 to 51, when the eigensolver returns two pairs for the
    tensor: the move succeeds, shows
    the two scaled eigenvalues in the order of their strings, and draws,
    after clearing the canvas and redrawing the image, the cells of the
    kernel and then the two arrows, and nothing else. *)
Theorem pointer_move_succeeds (Math_exp : float -> float)
  (eigs : list (list float) -> outcome (list eigenpair))
  (st : page) (g : gradient_field) (ix iy : list float) (x y : Z)
  (tensor : list (list float)) (e0 e1 : eigenpair) :
  gradients st = Some g -> store st !! Ix g = Some ix ->
  store st !! Iy g = Some iy -> Z.odd (kernelSize st) = true ->
  1 <= kernelSize st <= 51 ->
  fst (structureTensor Math_exp x y st) = Ok tensor ->
  eigs tensor = Ok [e0; e1] ->
  exists kernel st',
    generateGaussianKernel Math_exp (kernelSize st) (kernelSigma st) = Ok kernel
    /\ drawOverlay Math_exp eigs x y st = (Ok tt, st')
    /\ lambda1 st'
       = JS.toFixed (snd (stringOrdered (value e0 / 1000) (value e1 / 1000)))
    /\ lambda2 st'
       = JS.toFixed (fst (stringOrdered (value e0 / 1000) (value e1 / 1000)))
    /\ drawn st'
       = drawn st
         ++ [clearRect 0 0 (width st) (height st); drawImage 0 0]
         ++ kernelCells (width st) (height st) (kernelSize st) kernel x y
         ++ [stroke_line x y
               (JS.of_Z x + fst (vector e0)
                            * fst (stringOrdered (value e0 / 1000)
                                     (value e1 / 1000)))
               (JS.of_Z y + snd (vector e0)
                            * fst (stringOrdered (value e0 / 1000)
                                     (value e1 / 1000)));
             stroke_line x y
               (JS.of_Z x + fst (vector e1)
                            * snd (stringOrdered (value e0 / 1000)
                                     (value e1 / 1000)))
               (JS.of_Z y + snd (vector e1)
                            * snd (stringOrdered (value e0 / 1000)
                                     (value e1 / 1000)))]%float.
Proof.
  intros Hg Hix Hiy Hodd Hsize Ht Heigs.
  pose proof (generateGaussianKernel_cases Math_exp (kernelSize st)
                (kernelSigma st)) as Hk.
  rewrite <- Z.negb_odd, Hodd in Hk. cbn [negb] in Hk.
  destruct Hk as (kernel & Hk & _).
  destruct (structureTensor_after_redraw Math_exp st g ix iy x y tensor
              Hg Hix Hiy Hodd Ht) as [f Hrun].
  exists kernel. eexists. split; [exact Hk|].
  unfold drawOverlay.
  do 4 (erewrite bind_run by reflexivity).
  erewrite bind_run.
  2: { unfold computeEigenvectors. erewrite bind_run by exact Hrun.
       unfold lift. rewrite Heigs. reflexivity. }
  unfold drawResult. erewrite bind_run by apply showLambdas_two.
  erewrite bind_run by (apply (drawKernel_run _ _ _ _ kernel); exact Hk).
  erewrite (drawArrows_two x y _ _ _ (sorted [_; _]))
    by (cbn; apply lookup_insert_eq).
  split; [reflexivity|]. rewrite sorted_two.
  split; [reflexivity|]. split; [reflexivity|].
  cbn. rewrite <- !app_assoc. reflexivity.
Qed.

Lemma pointer_move_succeeds_witness :
  exists st',
    drawOverlay Reference.Math_exp
      (fun _ => Ok [ {| value := 8485.916699388401;
                        vector := (0%float, 1%float) |};
                     {| value := 10644.026285925804;
                        vector := (1%float, 0%float) |} ])
      1 2 dim10_loaded
    = (Ok tt, st')
    /\ lambda1 st' = "8"%string /\ lambda2 st' = "11"%string.
Proof.
  destruct (pointer_move_succeeds Reference.Math_exp
              (fun _ => Ok [ {| value := 8485.916699388401;
                                vector := (0%float, 1%float) |};
                             {| value := 10644.026285925804;
                                vector := (1%float, 0%float) |} ])
              dim10_loaded {| Ix := 1%positive; Iy := 2%positive |}
              (fst (gradientArrays (image_data dim10) 10 10))
              (snd (gradientArrays (image_data dim10) 10 10)) 1 2
              [[10644.026285925804; 0]; [0; 8485.916699388401]]%float
              {| value := 8485.916699388401; vector := (0%float, 1%float) |}
              {| value := 10644.026285925804; vector := (1%float, 0%float) |}
              eq_refl eq_refl eq_refl eq_refl)
    as (kernel & st' & _ & Hrun & H1 & H2 & _).
  - cbn. lia.
  - vm_compute. reflexivity.
  - reflexivity.
  - exists st'. split; [exact Hrun|]. split; [exact H1|exact H2].
Defined.

(** ** A pointer move when the eigensolver throws *)

(** X11. A pointer move on a loaded page when the eigensolver throws: the
    move throws the same error after it cleared the canvas and redrew the
    image; the two values shown stay as they were, no kernel and no arrow
    is drawn, and the gradient field is still in place. *)
Theorem pointer_move_when_eigs_throws (Math_exp : float -> float)
  (eigs : list (list float) -> outcome (list eigenpair))
  (st : page) (g : gradient_field) (ix iy : list float) (x y : Z)
  (tensor : list (list float)) (e : exn) :
  gradients st = Some g -> store st !! Ix g = Some ix ->
  store st !! Iy g = Some iy -> Z.odd (kernelSize st) = true ->
  fst (structureTensor Math_exp x y st) = Ok tensor ->
  eigs tensor = Throw e ->
  fst (drawOverlay Math_exp eigs x y st) = Throw e
  /\ drawn (snd (drawOverlay Math_exp eigs x y st))
     = drawn st ++ [clearRect 0 0 (width st) (height st); drawImage 0 0]
  /\ lambda1 (snd (drawOverlay Math_exp eigs x y st)) = lambda1 st
  /\ lambda2 (snd (drawOverlay Math_exp eigs x y st)) = lambda2 st
  /\ gradients (snd (drawOverlay Math_exp eigs x y st)) = Some g.
Proof.
  intros Hg Hix Hiy Hodd Ht Heigs.
  destruct (structureTensor_after_redraw Math_exp st g ix iy x y tensor
              Hg Hix Hiy Hodd Ht) as [f Hrun].
  assert (H : drawOverlay Math_exp eigs x y st
              = (Throw e,
                 with_store f
                   (with_drawn (drawImage 0 0)
                      (with_drawn (clearRect 0 0 (width st) (height st)) st)))).
  { unfold drawOverlay.
    do 4 (erewrite bind_run by reflexivity).
    apply bind_throw. unfold computeEigenvectors.
    erewrite bind_run by exact Hrun. unfold lift. rewrite Heigs. reflexivity. }
  rewrite H. cbn [fst snd]. split; [reflexivity|].
  split; [cbn; rewrite <- app_assoc; reflexivity|].
  split; [reflexivity|]. split; [reflexivity|]. exact Hg.
Qed.

Lemma pointer_move_when_eigs_throws_witness :
  fst (drawOverlay Reference.Math_exp
         (fun _ => Throw (Error "the matrix has no eigenvalues"))
         1 2 dim10_loaded)
  = Throw (Error "the matrix has no eigenvalues").
Proof.
  apply (pointer_move_when_eigs_throws Reference.Math_exp
           (fun _ => Throw (Error "the matrix has no eigenvalues"))
           dim10_loaded {| Ix := 1%positive; Iy := 2%positive |}
           (fst (gradientArrays (image_data dim10) 10 10))
           (snd (gradientArrays (image_data dim10) 10 10)) 1 2
           [[10644.026285925804; 0]; [0; 8485.916699388401]]%float);
    [reflexivity|reflexivity|reflexivity|reflexivity
    |vm_compute; reflexivity|reflexivity].
Defined.

(** ** The alphas of the kernel overlay *)

(** X12. For a kernel of the sliders' ranges, every cell of the kernel
    overlay is filled with an alpha that is a finite number between 0 and
    1 (up to one rounding): the weight of the cell divided by the largest
    weight of the table. No alpha is NaN, infinite or negative.
    [Math.exp] is as in C4. *)
Theorem overlay_alpha_in_range (Math_exp : float -> float) (st : page)
  (x y : Z) :
  Z.odd (kernelSize st) = true -> 1 <= kernelSize st <= 51 ->
  (0.1 <=? kernelSigma st)%float = true ->
  (kernelSigma st <=? 30)%float = true ->
  Math_exp (-0)%float = 1%float ->
  (forall d : Z, 0 < d <= 2 * ((kernelSize st / 2) * (kernelSize st / 2)) ->
     (0 <=? Math_exp (- JS.of_Z d / (2 * (kernelSigma st * kernelSigma st))))%float
     = true
     /\ (Math_exp (- JS.of_Z d / (2 * (kernelSigma st * kernelSigma st))) <=? 1)%float
        = true) ->
  exists cells,
    drawKernel Math_exp x y st = (Ok tt, add_drawn cells st)
    /\ Forall (fun op => exists alpha px py,
                 op = fillRect alpha px py 1 1
                 /\ Fin0 alpha /\ (Rval alpha <= 1 + / 1000000000)%R)
         cells.
Proof.
  intros Hodd Hsize Hlo Hhi Hexp0 Hexp.
  destruct (table_sum Math_exp (kernelSize st) (kernelSigma st)
              Hodd Hsize Hlo Hhi Hexp0 Hexp) as (Hfin & Hsum & _).
  destruct (table_length (kernelSize st) Hsize) as [Hlen _].
  pose proof (generateGaussianKernel_run Math_exp (kernelSize st)
                (kernelSigma st) Hodd) as Hk.
  cbv zeta in Hk, Hfin, Hsum.
  eexists. split; [apply (drawKernel_run _ _ _ _ _ Hk)|].
  unfold kernelCells. cbv zeta.
  pose proof Hodd as Ho. apply Z.odd_spec in Ho as [h Hh].
  assert (Hhalf : kernelSize st / 2 = h)
    by (symmetry; apply (Z.div_unique (kernelSize st) 2 h 1); lia).
  rewrite Hhalf.
  apply Forall_map, Forall_forall. intros [ky kx] Hin. cbn [fst snd].
  apply list_elem_of_In, in_prod_iff in Hin.
  rewrite <- !list_elem_of_In, !elem_of_seqZ in Hin.
  eexists _, _, _. split; [reflexivity|].
  apply alpha_range; [exact Hfin|exact Hsum|].
  rewrite length_map, Hlen. nia.
Qed.

Lemma overlay_alpha_in_range_witness :
  exists cells,
    drawKernel Reference.Math_exp 1 2 dot10_loaded
    = (Ok tt, add_drawn cells dot10_loaded)
    /\ Forall (fun op => exists alpha px py,
                 op = fillRect alpha px py 1 1
                 /\ Fin0 alpha /\ (Rval alpha <= 1 + / 1000000000)%R)
         cells.
Proof.
  apply (overlay_alpha_in_range Reference.Math_exp dot10_loaded 1 2);
    try reflexivity; try (cbn; lia).
  intros d Hd.
  change (2 * (kernelSize dot10_loaded / 2 * (kernelSize dot10_loaded / 2)))
    with 2 in Hd.
  assert (Hcases : d = 1 \/ d = 2) by lia.
  destruct Hcases as [->| ->]; split; vm_compute; reflexivity.
Defined.
